(** * The OpenAPI-to-MCP bridge: schema translation, tool catalogue and
      argument recovery

    A shallow embedding of [openapi/parser.ts] (class
    [OpenAPIToMCPConverter]) and [mcp/proxy.ts] (function
    [deserializeParams] and class [MCPProxy]), followed by the properties
    the specification states about them.

    Conventions of the embedding.
    - A JavaScript string is a [string]: a sequence of code units, of which
      the ones below 256 are representable.  [String.length] is the
      [.length] of the source.
    - A JavaScript object read as a dictionary is an association list of
      its own properties, one entry per key, in the order [Object.entries]
      enumerates it.  Assignment [o[k] = v] is [obj_set]; it puts a new key
      last, which is where the enumeration has it unless the key is an array
      index ([enumerate] gives the order in that case).  Members inherited
      from [Object.prototype] are not entries ([inheritedName] lists their
      names).
    - The document is embedded with its declared type
      ([OpenAPIV3.Document]).  A pointer that leaves that type is outside
      the embedding: [typedRef] says which pointers stay inside.
    - The instance fields [schemaCache] and [nameCounter] are threaded as
      explicit state; the [Set] handed to the translator is threaded next
      to the cache, since the translator mutates it.  The cache holds
      values: where the source changes an object after it was stored (a
      [description] or [$defs] written into a translation that is a cache
      entry), the embedding answers for the documents in which no
      reference is resolved into the cache by the callers, those whose
      pointers all name component schemas.
    - Output sent to the console is not part of the model. *)

From Stdlib Require Import Strings.String Strings.Ascii List ZArith Lia Bool.
From Stdlib Require Import NArith Numbers.DecimalString Numbers.DecimalN.
From Stdlib Require Import Numbers.DecimalFacts Numbers.DecimalPos.
From stdpp Require Import base option list gmap strings.

Import ListNotations.
Set Warnings "-abstract-large-number,-clear-no-such-hyp".
Local Open Scope string_scope.
Local Open Scope list_scope.

(** Induction principles for the trees below, which nest through lists,
    pairs, options and sums. *)
Scheme All for list.
Scheme All for prod.
Scheme All for option.
Scheme All for sum.

(** ** JavaScript strings *)

Module JsString.

(** [s.startsWith(p)] *)
Definition startsWith (p s : string) : bool := String.prefix p s.

(** [s.endsWith(p)] *)
Definition endsWith (p s : string) : bool :=
  (String.length p <=? String.length s)%nat &&
  String.eqb (substring (String.length s - String.length p) (String.length p) s) p.

(** [s.slice(0, n)] for a non-negative literal [n] *)
Definition slice0 (n : nat) (s : string) : string := substring 0 n s.

(** [s.slice(n)] for a non-negative literal [n] *)
Definition sliceFrom (n : nat) (s : string) : string :=
  substring n (String.length s - n) s.

(** [s.replace(/^p/, r)] where [p] is a literal without metacharacters *)
Definition replacePrefix (p r s : string) : string :=
  if startsWith p s then r ++ sliceFrom (String.length p) s else s.

Fixpoint repeat (c : ascii) (n : nat) : string :=
  match n with
  | O => EmptyString
  | S k => String c (repeat c k)
  end.

(** [s.padStart(n, c)] for a one-character filler *)
Definition padStart (n : nat) (c : ascii) (s : string) : string :=
  repeat c (n - String.length s) ++ s.

(** [n.toString()] for a non-negative integer *)
Definition toString (n : N) : string :=
  NilEmpty.string_of_uint (N.to_uint n).

(** The property names of an array of [n] elements. *)
Definition indices (n : nat) : list string :=
  map (fun i => toString (N.of_nat i)) (seq 0 n).

(** [s.split(sep)] for a one-character separator: never empty. *)
Fixpoint split (sep : ascii) (s : string) : list string :=
  match s with
  | EmptyString => [EmptyString]
  | String c rest =>
      if Ascii.eqb c sep then EmptyString :: split sep rest
      else match split sep rest with
           | [] => [String c EmptyString]
           | part :: parts => String c part :: parts
           end
  end.

(** [l.join(sep)] *)
Definition join (sep : string) (l : list string) : string := String.concat sep l.

(** White space and line terminators stripped by [trim], among the
    representable code units: TAB, LF, VT, FF, CR, SPACE, NBSP. *)
Definition isWhiteSpace (c : ascii) : bool :=
  let n := nat_of_ascii c in
  ((9 <=? n) && (n <=? 13))%nat || (n =? 32)%nat || (n =? 160)%nat.

Fixpoint trimStart (s : string) : string :=
  match s with
  | EmptyString => EmptyString
  | String c rest => if isWhiteSpace c then trimStart rest else s
  end.

(** Drops trailing white space: the tail is trimmed first, and a white
    character is dropped when nothing is left after it. *)
Fixpoint trimEnd (s : string) : string :=
  match s with
  | EmptyString => EmptyString
  | String c rest =>
      match trimEnd rest with
      | EmptyString => if isWhiteSpace c then EmptyString else String c EmptyString
      | kept => String c kept
      end
  end.

(** [s.trim()] *)
Definition trim (s : string) : string := trimEnd (trimStart s).

(** [s.toLowerCase()] on the representable ASCII letters *)
Definition lowerChar (c : ascii) : ascii :=
  let n := nat_of_ascii c in
  if ((65 <=? n) && (n <=? 90))%nat then ascii_of_nat (n + 32) else c.

Fixpoint toLowerCase (s : string) : string :=
  match s with
  | EmptyString => EmptyString
  | String c rest => String (lowerChar c) (toLowerCase rest)
  end.

(** Truthiness of a string: the empty string is falsy. *)
Definition truthy (s : string) : bool := negb (String.eqb s "").

End JsString.

(** ** JSON values

    Values carried through unchanged by the code ([enum], [const],
    [default], call arguments, response data).  Numbers are integers here:
    the code never computes with them. *)

Inductive json : Type :=
| JNull
| JBool (b : bool)
| JNum (n : Z)
| JStr (s : string)
| JArr (items : list json)
| JObj (entries : list (string * json)).

(** ** JavaScript objects as dictionaries *)

Module JsObject.

Section Dict.
Context {V : Type}.

(** [o[k]] on own properties.  On an object without an own property [k]
    the source's [o[k]] goes on to the prototype: see [inheritedName]
    below. *)
Fixpoint get (k : string) (o : list (string * V)) : option V :=
  match o with
  | [] => None
  | (k', v) :: rest => if String.eqb k k' then Some v else get k rest
  end.

Fixpoint replace (k : string) (v : V) (o : list (string * V)) : list (string * V) :=
  match o with
  | [] => []
  | (k', v') :: rest =>
      if String.eqb k k' then (k', v) :: rest else (k', v') :: replace k v rest
  end.

(** [o[k] = v] on an object created by a literal.  An existing key keeps
    its place, a new key goes last.  The key [__proto__] reaches the
    accessor inherited from [Object.prototype] and creates no own
    property. *)
Definition obj_set (k : string) (v : V) (o : list (string * V)) : list (string * V) :=
  if String.eqb k "__proto__" then o
  else match get k o with
       | Some _ => replace k v o
       | None => o ++ [(k, v)]
       end.

(** [{...a, ...b}] and [Object.assign]: every entry of [b] is defined on
    [a] in turn.  Definition by an object literal bypasses the
    [__proto__] accessor. *)
Definition define (k : string) (v : V) (o : list (string * V)) : list (string * V) :=
  match get k o with
  | Some _ => replace k v o
  | None => o ++ [(k, v)]
  end.

Definition spread (a b : list (string * V)) : list (string * V) :=
  fold_left (fun acc kv => define (fst kv) (snd kv) acc) b a.

Definition keys (o : list (string * V)) : list string := map fst o.

(** *** The order of enumeration

    [Object.entries], [JSON.stringify] and the spread of an object list the
    properties whose names are array indices first, in ascending numeric
    order, and then the other properties in the order of their creation.
    [obj_set] and [define] keep the order of creation; [enumerate] gives
    the order of enumeration. *)

(** The index a property name stands for: the canonical decimal numerals
    up to 2^32 - 2. *)
Definition arrayIndex (k : string) : option N :=
  match NilEmpty.uint_of_string k with
  | Some u =>
      let n := N.of_uint u in
      if String.eqb (JsString.toString n) k && (n <? 4294967295)%N then Some n else None
  | None => None
  end.

Fixpoint insertByIndex (n : N) (kv : string * V) (l : list (N * (string * V)))
  : list (N * (string * V)) :=
  match l with
  | [] => [(n, kv)]
  | (n', kv') :: rest =>
      if (n <? n')%N then (n, kv) :: l else (n', kv') :: insertByIndex n kv rest
  end.

Definition indexed (o : list (string * V)) : list (N * (string * V)) :=
  fold_right (fun kv acc =>
                match arrayIndex (fst kv) with
                | Some n => insertByIndex n kv acc
                | None => acc
                end) [] o.

Definition named (o : list (string * V)) : list (string * V) :=
  List.filter (fun kv => match arrayIndex (fst kv) with
                         | Some _ => false
                         | None => true
                         end) o.

Definition enumerate (o : list (string * V)) : list (string * V) :=
  map snd (indexed o) ++ named o.
End Dict.

(** The names of the members every plain object inherits from
    [Object.prototype].  For such a name [o[k]] is not [undefined] on an
    object without an own property [k]; [get] stands for [o[k]] only for
    the other names, or where the object has the own property. *)
Definition inheritedName (k : string) : bool :=
  existsb (String.eqb k)
    ["constructor"; "__defineGetter__"; "__defineSetter__"; "hasOwnProperty";
     "__lookupGetter__"; "__lookupSetter__"; "isPrototypeOf"; "propertyIsEnumerable";
     "toString"; "valueOf"; "__proto__"; "toLocaleString"].

End JsObject.

Import JsString JsObject.

Example split_pointer :
  split "/" "components/schemas/Pet" = ["components"; "schemas"; "Pet"].
Proof. reflexivity. Qed.

Example split_empty : split "/" "" = [""].
Proof. reflexivity. Qed.

Example trim_both : trim "  { a }  " = "{ a }".
Proof. reflexivity. Qed.

Example pad_one : padStart 4 "0" (toString 1) = "0001".
Proof. reflexivity. Qed.

Example pad_wide : padStart 4 "0" (toString 12345) = "12345".
Proof. reflexivity. Qed.

(** ** The API document ([OpenAPIV3.Document]) *)

(** The fields of a [SchemaObject] the translator copies or tests without
    descending into them. *)
Record schemaFields : Type := SchemaFields {
  s_type : option string;
  s_format : option string;
  s_description : option string;
  s_enum : option (list json);
  s_const : option json;
  s_default : option json;
  s_required : option (list string)
}.

(** [OpenAPIV3.SchemaObject | OpenAPIV3.ReferenceObject].  A node that has
    the key [$ref] is a reference whatever else it carries; the only other
    field the code reads on it is [description]. *)
Inductive schema : Type :=
| SRef (ref : string) (description : option string)
| SInline (fields : schemaFields)
          (properties : option (list (string * schema)))
          (additionalProperties : option (bool + schema))
          (items : option schema)
          (oneOf anyOf allOf : option (list schema)).

Record mediaType : Type := MediaType { mt_schema : option schema }.

Record parameterObject : Type := ParameterObject {
  p_name : string;
  p_in : string;
  p_description : option string;
  p_required : bool;
  p_schema : option schema
}.

Inductive parameterOrRef : Type :=
| PRef (ref : string)
| PObj (p : parameterObject).

Record requestBodyObject : Type := RequestBodyObject {
  rb_content : option (list (string * mediaType))
}.

Inductive requestBodyOrRef : Type :=
| RBRef (ref : string)
| RBObj (b : requestBodyObject).

Record responseObject : Type := ResponseObject {
  r_description : option string;
  r_content : option (list (string * mediaType))
}.

Inductive responseOrRef : Type :=
| RRef (ref : string)
| RObj (r : responseObject).

Record operation : Type := Operation {
  operationId : option string;
  summary : option string;
  o_description : option string;
  parameters : option (list parameterOrRef);
  requestBody : option requestBodyOrRef;
  responses : option (list (string * responseOrRef))
}.

(** A field of a path item: an operation under a verb key, anything else
    ([parameters], [summary], [servers]) under the other keys. *)
Inductive pathItemField : Type :=
| FOperation (o : operation)
| FOther.

Definition pathItem : Type := list (string * pathItemField).

Record components : Type := Components {
  c_schemas : option (list (string * schema));
  c_parameters : option (list (string * parameterOrRef));
  c_requestBodies : option (list (string * requestBodyOrRef));
  c_responses : option (list (string * responseOrRef))
}.

Record document : Type := Document {
  info_title : string;
  paths : option (list (string * option pathItem));
  d_components : option components
}.

(** ** Tool schemas ([IJsonSchema]) *)

Inductive jschema : Type := JSchema {
  js_ref : option string;
  js_type : option string;
  js_format : option string;
  js_description : option string;
  js_enum : option (list json);
  js_const : option json;
  js_default : option json;
  js_properties : option (list (string * jschema));
  js_required : option (list string);
  js_additionalProperties : option (bool + jschema);
  js_items : option jschema;
  js_oneOf : option (list jschema);
  js_anyOf : option (list jschema);
  js_allOf : option (list jschema);
  js_defs : option (list (string * jschema))
}.

(** The object literal [{}]. *)
Definition empty_schema : jschema :=
  JSchema None None None None None None None None None None None None None None None.

Definition set_ref (v : string) (j : jschema) : jschema :=
  JSchema (Some v) (js_type j) (js_format j) (js_description j) (js_enum j) (js_const j)
    (js_default j) (js_properties j) (js_required j) (js_additionalProperties j)
    (js_items j) (js_oneOf j) (js_anyOf j) (js_allOf j) (js_defs j).

Definition set_type (v : string) (j : jschema) : jschema :=
  JSchema (js_ref j) (Some v) (js_format j) (js_description j) (js_enum j) (js_const j)
    (js_default j) (js_properties j) (js_required j) (js_additionalProperties j)
    (js_items j) (js_oneOf j) (js_anyOf j) (js_allOf j) (js_defs j).

Definition set_format (v : string) (j : jschema) : jschema :=
  JSchema (js_ref j) (js_type j) (Some v) (js_description j) (js_enum j) (js_const j)
    (js_default j) (js_properties j) (js_required j) (js_additionalProperties j)
    (js_items j) (js_oneOf j) (js_anyOf j) (js_allOf j) (js_defs j).

Definition set_description (v : string) (j : jschema) : jschema :=
  JSchema (js_ref j) (js_type j) (js_format j) (Some v) (js_enum j) (js_const j)
    (js_default j) (js_properties j) (js_required j) (js_additionalProperties j)
    (js_items j) (js_oneOf j) (js_anyOf j) (js_allOf j) (js_defs j).

Definition set_enum (v : list json) (j : jschema) : jschema :=
  JSchema (js_ref j) (js_type j) (js_format j) (js_description j) (Some v) (js_const j)
    (js_default j) (js_properties j) (js_required j) (js_additionalProperties j)
    (js_items j) (js_oneOf j) (js_anyOf j) (js_allOf j) (js_defs j).

Definition set_const (v : json) (j : jschema) : jschema :=
  JSchema (js_ref j) (js_type j) (js_format j) (js_description j) (js_enum j) (Some v)
    (js_default j) (js_properties j) (js_required j) (js_additionalProperties j)
    (js_items j) (js_oneOf j) (js_anyOf j) (js_allOf j) (js_defs j).

Definition set_default (v : json) (j : jschema) : jschema :=
  JSchema (js_ref j) (js_type j) (js_format j) (js_description j) (js_enum j) (js_const j)
    (Some v) (js_properties j) (js_required j) (js_additionalProperties j)
    (js_items j) (js_oneOf j) (js_anyOf j) (js_allOf j) (js_defs j).

Definition set_properties (v : list (string * jschema)) (j : jschema) : jschema :=
  JSchema (js_ref j) (js_type j) (js_format j) (js_description j) (js_enum j) (js_const j)
    (js_default j) (Some v) (js_required j) (js_additionalProperties j)
    (js_items j) (js_oneOf j) (js_anyOf j) (js_allOf j) (js_defs j).

Definition set_required (v : list string) (j : jschema) : jschema :=
  JSchema (js_ref j) (js_type j) (js_format j) (js_description j) (js_enum j) (js_const j)
    (js_default j) (js_properties j) (Some v) (js_additionalProperties j)
    (js_items j) (js_oneOf j) (js_anyOf j) (js_allOf j) (js_defs j).

Definition set_additionalProperties (v : bool + jschema) (j : jschema) : jschema :=
  JSchema (js_ref j) (js_type j) (js_format j) (js_description j) (js_enum j) (js_const j)
    (js_default j) (js_properties j) (js_required j) (Some v)
    (js_items j) (js_oneOf j) (js_anyOf j) (js_allOf j) (js_defs j).

Definition set_items (v : jschema) (j : jschema) : jschema :=
  JSchema (js_ref j) (js_type j) (js_format j) (js_description j) (js_enum j) (js_const j)
    (js_default j) (js_properties j) (js_required j) (js_additionalProperties j)
    (Some v) (js_oneOf j) (js_anyOf j) (js_allOf j) (js_defs j).

Definition set_oneOf (v : list jschema) (j : jschema) : jschema :=
  JSchema (js_ref j) (js_type j) (js_format j) (js_description j) (js_enum j) (js_const j)
    (js_default j) (js_properties j) (js_required j) (js_additionalProperties j)
    (js_items j) (Some v) (js_anyOf j) (js_allOf j) (js_defs j).

Definition set_anyOf (v : list jschema) (j : jschema) : jschema :=
  JSchema (js_ref j) (js_type j) (js_format j) (js_description j) (js_enum j) (js_const j)
    (js_default j) (js_properties j) (js_required j) (js_additionalProperties j)
    (js_items j) (js_oneOf j) (Some v) (js_allOf j) (js_defs j).

Definition set_allOf (v : list jschema) (j : jschema) : jschema :=
  JSchema (js_ref j) (js_type j) (js_format j) (js_description j) (js_enum j) (js_const j)
    (js_default j) (js_properties j) (js_required j) (js_additionalProperties j)
    (js_items j) (js_oneOf j) (js_anyOf j) (Some v) (js_defs j).

Definition set_defs (v : list (string * jschema)) (j : jschema) : jschema :=
  JSchema (js_ref j) (js_type j) (js_format j) (js_description j) (js_enum j) (js_const j)
    (js_default j) (js_properties j) (js_required j) (js_additionalProperties j)
    (js_items j) (js_oneOf j) (js_anyOf j) (js_allOf j) (Some v).

(** ** The document as a tree of properties

    [internalResolveRef] follows a pointer by plain property access from
    the document root, whatever the kind of the nodes on the way.  The tree
    below is the document seen that way: a node carries the typed value it
    stands for, when it is one of the kinds the callers cast the result to,
    and its truthy children by property name (array elements under their
    decimal index).  Scalars are left out: nothing the callers accept lies
    below them. *)

Inductive payload : Type :=
| PSchema (s : schema)
| PParameter (p : parameterOrRef)
| PRequestBody (b : requestBodyOrRef)
| PResponse (r : responseOrRef).

Inductive tree : Type :=
| Tree (value : option payload) (children : list (string * tree)).

Definition tree_value (t : tree) : option payload :=
  match t with Tree v _ => v end.

Definition tree_children (t : tree) : list (string * tree) :=
  match t with Tree _ c => c end.

Module Reify.

Definition field (name : string) (t : option tree) : list (string * tree) :=
  match t with
  | Some child => [(name, child)]
  | None => []
  end.

Definition dict {A : Type} (f : A -> tree) (o : list (string * A)) : tree :=
  Tree None (map (fun kv => (fst kv, f (snd kv))) o).

Definition array {A : Type} (f : A -> tree) (l : list A) : tree :=
  Tree None (combine (indices (length l)) (map f l)).

Fixpoint of_schema (s : schema) : tree :=
  Tree (Some (PSchema s))
    match s with
    | SRef _ _ => []
    | SInline _ properties additionalProperties items oneOf anyOf allOf =>
        field "properties"
          (option_map (fun ps => Tree None (map (fun kv => (fst kv, of_schema (snd kv))) ps))
             properties)
        ++ field "additionalProperties"
             match additionalProperties with
             | Some (inr sch) => Some (of_schema sch)
             | _ => None
             end
        ++ field "items" (option_map of_schema items)
        ++ field "oneOf"
             (option_map (fun l => Tree None
                (combine (indices (length l)) (map of_schema l))) oneOf)
        ++ field "anyOf"
             (option_map (fun l => Tree None
                (combine (indices (length l)) (map of_schema l))) anyOf)
        ++ field "allOf"
             (option_map (fun l => Tree None
                (combine (indices (length l)) (map of_schema l))) allOf)
    end.

Definition of_mediaType (m : mediaType) : tree :=
  Tree None (field "schema" (option_map of_schema (mt_schema m))).

Definition of_content (c : option (list (string * mediaType))) : list (string * tree) :=
  field "content" (option_map (dict of_mediaType) c).

Definition of_parameter (p : parameterOrRef) : tree :=
  Tree (Some (PParameter p))
    match p with
    | PRef _ => []
    | PObj po => field "schema" (option_map of_schema (p_schema po))
    end.

Definition of_requestBody (b : requestBodyOrRef) : tree :=
  Tree (Some (PRequestBody b))
    match b with
    | RBRef _ => []
    | RBObj bo => of_content (rb_content bo)
    end.

Definition of_response (r : responseOrRef) : tree :=
  Tree (Some (PResponse r))
    match r with
    | RRef _ => []
    | RObj ro => of_content (r_content ro)
    end.

Definition of_operation (o : operation) : tree :=
  Tree None
    (field "parameters" (option_map (array of_parameter) (parameters o))
     ++ field "requestBody" (option_map of_requestBody (requestBody o))
     ++ field "responses" (option_map (dict of_response) (responses o))).

Definition of_pathItem (item : pathItem) : tree :=
  Tree None
    (flat_map (fun kv => match snd kv with
                         | FOperation o => [(fst kv, of_operation o)]
                         | FOther => []
                         end) item).

Definition of_paths (ps : list (string * option pathItem)) : tree :=
  Tree None
    (flat_map (fun kv => match snd kv with
                         | Some item => [(fst kv, of_pathItem item)]
                         | None => []
                         end) ps).

Definition of_components (c : components) : tree :=
  Tree None
    (field "schemas" (option_map (dict of_schema) (c_schemas c))
     ++ field "parameters" (option_map (dict of_parameter) (c_parameters c))
     ++ field "requestBodies" (option_map (dict of_requestBody) (c_requestBodies c))
     ++ field "responses" (option_map (dict of_response) (c_responses c))).

Definition of_document (d : document) : tree :=
  Tree None
    (field "paths" (option_map of_paths (paths d))
     ++ field "components" (option_map of_components (d_components d))).

End Reify.

(** ** The converter: [OpenAPIToMCPConverter] *)

(** The mutable state a translation works on: the [Set] it was handed and
    the instance's [schemaCache].  The cache is a plain object indexed by
    pointer strings: the map holds its own properties, and a lookup
    [this.schemaCache[ref]] is the lookup in the map for every [ref] but
    the names of [inheritedName]. *)
Record tstate : Type := TState {
  resolvedRefs : gset string;
  schemaCache : gmap string jschema
}.

Module Converter.

(** The loop of [internalResolveRef]: [current = current[part]], giving up
    at the first missing or falsy node.  The children of a node are its own
    properties; what [current[part]] finds on the prototype of a node is
    outside the tree (see [typedRef] below). *)
Fixpoint walk (parts : list string) (current : tree) : option tree :=
  match parts with
  | [] => Some current
  | part :: rest =>
      match get part (tree_children current) with
      | Some next => walk rest next
      | None => None
      end
  end.

Definition internalResolveRef (doc : document) (ref : string) (resolved : gset string)
  : option tree * gset string :=
  if negb (startsWith "#/" ref) then (None, resolved)
  else if bool_decide (ref ∈ resolved) then (None, resolved)
  else
    let parts := split "/" (replacePrefix "#/" "" ref) in
    match walk parts (Reify.of_document doc) with
    | None => (None, resolved)
    | Some current => (Some current, resolved ∪ {[ref]})
    end.

(** The casts applied to what [internalResolveRef] returns.  A node of
    another kind is outside the declared type of the result: the source
    goes on with it under the cast, the embedding stops there and treats
    the pointer as not resolved.  The two agree on the pointers of
    [typedRef] below. *)
Definition as_schema (t : tree) : option schema :=
  match tree_value t with
  | Some (PSchema s) => Some s
  | _ => None
  end.

(** *** State threading

    A computation on the translation state that may run out of fuel. *)
Definition M (A : Type) : Type := tstate -> option (A * tstate).

Definition ret {A : Type} (a : A) : M A := fun st => Some (a, st).

Definition bind {A B : Type} (m : M A) (k : A -> M B) : M B :=
  fun st => match m st with
            | Some (a, st') => k a st'
            | None => None
            end.

Notation "'let*' x ':=' m 'in' k" := (bind m (fun x => k))
  (at level 10, x name, m at level 100, k at level 200).

Section Loops.
Context (translate : schema -> M jschema).

(** [for (const [name, propSchema] of Object.entries(schema.properties))
      result.properties[name] = translate(propSchema)] *)
Fixpoint convert_properties (entries : list (string * schema))
    (acc : list (string * jschema)) : M (list (string * jschema)) :=
  match entries with
  | [] => ret acc
  | kv :: rest =>
      let* v := translate (snd kv) in
      convert_properties rest (obj_set (fst kv) v acc)
  end.

(** [l.map((s) => translate(s))] *)
Fixpoint convert_all (l : list schema) : M (list jschema) :=
  match l with
  | [] => ret []
  | s :: rest =>
      let* v := translate s in
      let* vs := convert_all rest in
      ret (v :: vs)
  end.
End Loops.

Definition is_truthy (s : option string) : bool :=
  match s with
  | Some v => truthy v
  | None => false
  end.

Definition is_literal (lit : string) (s : option string) : bool :=
  match s with
  | Some v => String.eqb v lit
  | None => false
  end.

Definition binaryDesc : string := "absolute paths to local files".

(** Lines 97-128: the scalar part of an inline schema. *)
Definition convert_fields (f : schemaFields) : jschema :=
  let result := empty_schema in
  let result :=
    match s_type f with
    | Some t => if truthy t then set_type t result else result
    | None => result
    end in
  let result :=
    if is_literal "binary" (s_format f) then
      let result := set_format "uri-reference" result in
      set_description
        (match s_description f with
         | Some d => if truthy d then d ++ " (" ++ binaryDesc ++ ")" else binaryDesc
         | None => binaryDesc
         end) result
    else
      let result :=
        match s_format f with
        | Some fmt => if truthy fmt then set_format fmt result else result
        | None => result
        end in
      match s_description f with
      | Some d => if truthy d then set_description d result else result
      | None => result
      end in
  let result :=
    match s_enum f with
    | Some e => set_enum e result
    | None => result
    end in
  let result :=
    match s_const f with
    | Some c => set_const c result
    | None => result
    end in
  match s_default f with
  | Some d => set_default d result
  | None => result
  end.

(** The local pointer a component pointer is rewritten to. *)
Definition localRef (ref : string) : string :=
  replacePrefix "#/components/schemas/" "#/$defs/" ref.

(** Lines 61-64: the node emitted for a preserved reference. *)
Definition preservedRef (ref : string) (description : option string) : jschema :=
  let node := set_ref (localRef ref) empty_schema in
  match description with
  | Some d => set_description d node
  | None => node
  end.

(** Lines 84-87: the node emitted when resolution fails. *)
Definition unresolvedRef (ref : string) (description : option string) : jschema :=
  set_description (match description with Some d => d | None => "" end)
    (set_ref (localRef ref) empty_schema).

(** Lines 76-81: what the translator finds out about a reference before
    it decides how to go on. *)
Inductive refLookup : Type :=
| CacheHit (cached : jschema)
| NotResolved (st : tstate)
| Resolved (node : schema) (st : tstate).

Definition lookupRef (doc : document) (ref : string) (st : tstate) : refLookup :=
  match schemaCache st !! ref with
  | Some cached => CacheHit cached
  | None =>
      match internalResolveRef doc ref (resolvedRefs st) with
      | (Some current, resolved) =>
          match as_schema current with
          | Some node => Resolved node (TState resolved (schemaCache st))
          | None => NotResolved (TState resolved (schemaCache st))
          end
      | (None, resolved) => NotResolved (TState resolved (schemaCache st))
      end
  end.

(** [this.schemaCache[ref] = converted] *)
Definition cacheStore (ref : string) (converted : jschema) (st : tstate) : tstate :=
  TState (resolvedRefs st) (<[ref := converted]> (schemaCache st)).

Section Translate.
Context (doc : document) (resolveRefs : bool).

Section Node.
(** The recursive call on a part of the schema at hand. *)
Context (translate : schema -> M jschema).
(** The recursive call on the node a reference resolves to; [None] when
    the fuel is used up. *)
Context (translateResolved : option (schema -> M jschema)).

(** Lines 57-94: a reference. *)
Definition convertRef (ref : string) (description : option string) : M jschema :=
  if negb resolveRefs && startsWith "#/components/schemas/" ref then
    ret (preservedRef ref description)
  else
    fun st =>
      match lookupRef doc ref st with
      | CacheHit cached => Some (cached, st)
      | NotResolved st' => Some (unresolvedRef ref description, st')
      | Resolved node st' =>
          match translateResolved with
          | None => None
          | Some recur =>
              match recur node st' with
              | Some (converted, st'') => Some (converted, cacheStore ref converted st'')
              | None => None
              end
          end
      end.

(** Lines 131-149: the object part of an inline schema. *)
Definition convertObject (f : schemaFields) (properties : option (list (string * schema)))
    (additionalProperties : option (bool + schema)) (result : jschema) : M jschema :=
  if is_literal "object" (s_type f) then
    let result := set_type "object" result in
    let* result :=
      match properties with
      | Some ps =>
          let* props := convert_properties translate ps [] in
          ret (set_properties props result)
      | None => ret result
      end in
    let result :=
      match s_required f with
      | Some r => set_required r result
      | None => result
      end in
    match additionalProperties with
    | None | Some (inl true) =>
        ret (set_additionalProperties (inl true) result)
    | Some (inr sch) =>
        let* v := translate sch in
        ret (set_additionalProperties (inr v) result)
    | Some (inl false) =>
        ret (set_additionalProperties (inl false) result)
    end
  else ret result.

(** Lines 152-155: the array part. *)
Definition convertArray (f : schemaFields) (items : option schema) (result : jschema)
  : M jschema :=
  if is_literal "array" (s_type f) then
    match items with
    | Some it =>
        let* v := translate it in
        ret (set_items v (set_type "array" result))
    | None => ret result
    end
  else ret result.

(** Lines 158-166: one of [oneOf], [anyOf], [allOf]. *)
Definition convertComposition (members : option (list schema))
    (set : list jschema -> jschema -> jschema) (result : jschema) : M jschema :=
  match members with
  | Some l =>
      let* vs := convert_all translate l in
      ret (set vs result)
  | None => ret result
  end.

(** Lines 96-168: an inline schema. *)
Definition convertInline (f : schemaFields) (properties : option (list (string * schema)))
    (additionalProperties : option (bool + schema)) (items : option schema)
    (oneOf anyOf allOf : option (list schema)) : M jschema :=
  let result := convert_fields f in
  let* result := convertObject f properties additionalProperties result in
  let* result := convertArray f items result in
  let* result := convertComposition oneOf set_oneOf result in
  let* result := convertComposition anyOf set_anyOf result in
  convertComposition allOf set_allOf result.

Definition convertNode (s : schema) : M jschema :=
  match s with
  | SRef ref description => convertRef ref description
  | SInline f properties additionalProperties items oneOf anyOf allOf =>
      convertInline f properties additionalProperties items oneOf anyOf allOf
  end.
End Node.

(** [convertOpenApiSchemaToJsonSchema(schema, resolvedRefs, resolveRefs)].
    The recursion is structural inside one schema; it leaves the schema
    only where a reference is resolved, and every such step uses up one
    unit of fuel. *)
Fixpoint convert (fuel : nat) : schema -> M jschema :=
  fix translate (s : schema) : M jschema :=
    convertNode translate
      (match fuel with
       | O => None
       | S fuel' => Some (convert fuel')
       end) s.
End Translate.

(** *** Fuel that always suffices

    Every reference the translator can meet is written somewhere in the
    schema it starts from or in the document, and each one is resolved at
    most once per [Set]: one unit of fuel per written reference, and one
    to spare, is enough ([convert_total] below). *)

Fixpoint schema_refs (s : schema) : list string :=
  match s with
  | SRef ref _ => [ref]
  | SInline _ properties additionalProperties items oneOf anyOf allOf =>
      match properties with
      | Some ps => flat_map (fun kv => schema_refs (snd kv)) ps
      | None => []
      end
      ++ match additionalProperties with
         | Some (inr sch) => schema_refs sch
         | _ => []
         end
      ++ match items with
         | Some it => schema_refs it
         | None => []
         end
      ++ match oneOf with Some l => flat_map schema_refs l | None => [] end
      ++ match anyOf with Some l => flat_map schema_refs l | None => [] end
      ++ match allOf with Some l => flat_map schema_refs l | None => [] end
  end.

Definition content_refs (content : option (list (string * mediaType))) : list string :=
  match content with
  | Some l =>
      flat_map (fun kv => match mt_schema (snd kv) with
                          | Some s => schema_refs s
                          | None => []
                          end) l
  | None => []
  end.

(** The pointers written in the schemas a typed node holds. *)
Definition payload_refs (p : payload) : list string :=
  match p with
  | PSchema s => schema_refs s
  | PParameter (PObj po) =>
      match p_schema po with
      | Some s => schema_refs s
      | None => []
      end
  | PRequestBody (RBObj b) => content_refs (rb_content b)
  | PResponse (RObj r) => content_refs (r_content r)
  | _ => []
  end.

Fixpoint tree_refs (t : tree) : list string :=
  match t with
  | Tree value children =>
      match value with
      | Some p => payload_refs p
      | None => []
      end
      ++ flat_map (fun kv => tree_refs (snd kv)) children
  end.

Definition document_refs (doc : document) : list string :=
  tree_refs (Reify.of_document doc).

Definition fuelFor (doc : document) (s : schema) : nat :=
  S (length (schema_refs s ++ document_refs doc)).

(** *** The pointers the embedding answers for

    The document is embedded with its declared type, while the source
    follows a pointer by plain property access and casts what it finds.
    Property access also reaches what the type does not show: the members
    every object inherits from [Object.prototype], scalars, and nodes of
    another kind than a schema, which the translator would then read as a
    schema.  [typedRef] singles out the pointers on which the translator
    meets none of these.  A pointer that is followed, one that starts with
    [#/], leads to a schema of the document, or it is
    [#/components/schemas/<name>] for a name of one segment that is neither
    declared nor inherited.  A string that is not followed is not the name
    of an inherited member, which the lookup [this.schemaCache[ref]] would
    find. *)
Definition typedRef (doc : document) (ref : string) : bool :=
  if startsWith "#/" ref then
    match walk (split "/" (replacePrefix "#/" "" ref)) (Reify.of_document doc) with
    | Some node =>
        match as_schema node with
        | Some _ => true
        | None => false
        end
    | None =>
        startsWith "#/components/schemas/" ref
        && negb (existsb (Ascii.eqb "/") (list_ascii_of_string (sliceFrom 21 ref)))
        && negb (inheritedName (sliceFrom 21 ref))
    end
  else negb (inheritedName ref).

(** Every pointer the translation of [s] can meet is one of these. *)
Definition typedRefs (doc : document) (s : schema) : bool :=
  forallb (typedRef doc) (schema_refs s ++ document_refs doc).

(** The translator as the source calls it: [resolved] is the [Set] passed
    in, [cache] the instance's [schemaCache]; both come back updated. *)
Definition convertOpenApiSchemaToJsonSchema (doc : document) (s : schema)
    (resolved : gset string) (resolveRefs : bool) (cache : gmap string jschema)
  : jschema * tstate :=
  match convert doc resolveRefs (fuelFor doc s) s (TState resolved cache) with
  | Some out => out
  | None => (empty_schema, TState resolved cache)
  end.

(** A call with [new Set()] and the default [resolveRefs = false]. *)
Definition convertFresh (doc : document) (s : schema) (cache : gmap string jschema)
  : jschema * gmap string jschema :=
  let out := convertOpenApiSchemaToJsonSchema doc s ∅ false cache in
  (fst out, schemaCache (snd out)).

(** *** Tool methods *)

Record toolMethod : Type := ToolMethod {
  name : string;
  description : string;
  inputSchema : jschema;
  returnSchema : option jschema
}.

(** [{ ...operation, method, path }] *)
Record lookupEntry : Type := LookupEntry {
  le_operation : operation;
  le_method : string;
  le_path : string
}.

(** The instance state of a converter. *)
Record converter : Type := ConverterState {
  cache : gmap string jschema;
  nameCounter : N
}.

Definition newConverter : converter := ConverterState ∅ 0%N.

(** [components.schemas || {}] *)
Definition componentSchemas (doc : document) : list (string * schema) :=
  match d_components doc with
  | Some c => match c_schemas c with Some l => l | None => [] end
  | None => []
  end.

(** [schema[key] = this.convertOpenApiSchemaToJsonSchema(value, new Set())] *)
Definition addComponent (doc : document)
    (acc : list (string * jschema) * gmap string jschema) (kv : string * schema)
  : list (string * jschema) * gmap string jschema :=
  let out := convertFresh doc (snd kv) (snd acc) in
  (obj_set (fst kv) (fst out) (fst acc), snd out).

Definition convertComponentsToJsonSchema (doc : document) (cache : gmap string jschema)
  : list (string * jschema) * gmap string jschema :=
  fold_left (addComponent doc) (componentSchemas doc) ([], cache).

Definition isOperation (method : string) : bool :=
  existsb (String.eqb (toLowerCase method)) ["get"; "post"; "put"; "delete"; "patch"].

Definition as_parameter (t : tree) : option parameterOrRef :=
  match tree_value t with
  | Some (PParameter p) => Some p
  | _ => None
  end.

Definition as_requestBody (t : tree) : option requestBodyOrRef :=
  match tree_value t with
  | Some (PRequestBody b) => Some b
  | _ => None
  end.

Definition as_response (t : tree) : option responseOrRef :=
  match tree_value t with
  | Some (PResponse r) => Some r
  | _ => None
  end.

Definition resolveParameter (doc : document) (param : parameterOrRef)
  : option parameterObject :=
  match param with
  | PObj p => Some p
  | PRef ref =>
      match fst (internalResolveRef doc ref ∅) with
      | Some resolved =>
          match as_parameter resolved with
          | Some (PObj p) => if truthy (p_name p) then Some p else None
          | _ => None
          end
      | None => None
      end
  end.

(** A reference object found where a body is expected is read as a body:
    it has no [content]. *)
Definition resolveRequestBody (doc : document) (body : requestBodyOrRef)
  : option requestBodyObject :=
  match body with
  | RBObj b => Some b
  | RBRef ref =>
      match fst (internalResolveRef doc ref ∅) with
      | Some resolved =>
          match as_requestBody resolved with
          | Some (RBObj b) => Some b
          | Some (RBRef _) => Some (RequestBodyObject None)
          | None => None
          end
      | None => None
      end
  end.

Definition resolveResponse (doc : document) (r : responseOrRef)
  : option responseObject :=
  match r with
  | RObj ro => Some ro
  | RRef ref =>
      match fst (internalResolveRef doc ref ∅) with
      | Some resolved =>
          match as_response resolved with
          | Some (RObj ro) => Some ro
          | Some (RRef _) => Some (ResponseObject None None)
          | None => None
          end
      | None => None
      end
  end.

Definition typeString : jschema := set_type "string" empty_schema.

Definition openObject : jschema :=
  set_additionalProperties (inl true) (set_type "object" empty_schema).

(** [k in schema] for an optional field. *)
Definition has {A : Type} (field : option A) : bool :=
  match field with
  | Some _ => true
  | None => false
  end.

Definition isComplex (schema : jschema) : bool :=
  is_literal "object" (js_type schema)
  || has (js_ref schema)
  || has (js_anyOf schema)
  || has (js_oneOf schema)
  || has (js_allOf schema).

Definition withStringFallback (schema : jschema) : jschema :=
  if isComplex schema then set_anyOf [schema; typeString] empty_schema
  else
    match js_items schema with
    | Some items =>
        if is_literal "array" (js_type schema) then
          set_items (set_anyOf [items; typeString; openObject] empty_schema) schema
        else schema
    | None => schema
    end.

(** [content[mediaType]?.schema] *)
Definition contentSchema (content : list (string * mediaType)) (media : string)
  : option schema :=
  match get media content with
  | Some m => mt_schema m
  | None => None
  end.

(** [a || b] on optional strings *)
Definition orElse (a : option string) (b : string) : string :=
  match a with
  | Some v => if truthy v then v else b
  | None => b
  end.

(** Lines 518-545.  The assignments to [returnSchema['$defs']] and
    [returnSchema.description] change a cache entry when the schema of the
    response is a reference outside [#/components/schemas/], which a cache
    of values does not show. *)
Definition extractResponseType (doc : document)
    (responses : option (list (string * responseOrRef))) (cache : gmap string jschema)
  : option jschema * gmap string jschema :=
  let successResponse :=
    match responses with
    | Some rs =>
        match get "200" rs with
        | Some r => Some r
        | None =>
            match get "201" rs with
            | Some r => Some r
            | None =>
                match get "202" rs with
                | Some r => Some r
                | None => get "204" rs
                end
            end
        end
    | None => None
    end in
  match successResponse with
  | None => (None, cache)
  | Some r =>
      match resolveResponse doc r with
      | None => (None, cache)
      | Some responseObj =>
          match r_content responseObj with
          | None => (None, cache)
          | Some content =>
              match contentSchema content "application/json" with
              | Some sch =>
                  let out := convertFresh doc sch cache in
                  let defs := convertComponentsToJsonSchema doc (snd out) in
                  let returnSchema := set_defs (fst defs) (fst out) in
                  let returnSchema :=
                    if is_truthy (r_description responseObj)
                       && negb (is_truthy (js_description returnSchema))
                    then set_description (orElse (r_description responseObj) "") returnSchema
                    else returnSchema in
                  (Some returnSchema, snd defs)
              | None =>
                  if has (get "image/png" content) || has (get "image/jpeg" content)
                  then
                    (Some (set_description (orElse (r_description responseObj) "")
                             (set_format "binary" typeString)), cache)
                  else
                    (Some (set_description (orElse (r_description responseObj) "")
                             typeString), cache)
              end
          end
      end
  end.

Definition newline : string := String (ascii_of_nat 10) EmptyString.

(** The part of a tool input schema that grows while an operation is
    read: [inputSchema.properties] and [inputSchema.required]. *)
Definition inputAcc : Type := list (string * jschema) * list string.

(** Lines 385-398: one declared parameter.  The assignment to
    [schema.description] changes the object the translator returned; when
    that object is a cache entry (a reference outside
    [#/components/schemas/]) the entry changes with it, which a cache of
    values does not show. *)
Definition addParameter (doc : document) (acc : inputAcc * gmap string jschema)
    (param : parameterOrRef) : inputAcc * gmap string jschema :=
  match resolveParameter doc param with
  | Some paramObj =>
      match p_schema paramObj with
      | Some sch =>
          let out := convertFresh doc sch (snd acc) in
          let schema :=
            if is_truthy (p_description paramObj)
            then set_description (orElse (p_description paramObj) "") (fst out)
            else fst out in
          let properties := obj_set (p_name paramObj) (withStringFallback schema) (fst (fst acc)) in
          let required :=
            if p_required paramObj then snd (fst acc) ++ [p_name paramObj]
            else snd (fst acc) in
          ((properties, required), snd out)
      | None => acc
      end
  | None => acc
  end.

(** Lines 411-416 and 424-429: the properties of a translated body are
    merged into the input schema. *)
Definition mergeProperties (bodyProperties : list (string * jschema))
    (bodyRequired : option (list string)) (acc : inputAcc) : inputAcc :=
  (fold_left (fun props kv => obj_set (fst kv) (withStringFallback (snd kv)) props)
     bodyProperties (fst acc),
   match bodyRequired with
   | Some r => snd acc ++ r
   | None => snd acc
   end).

(** Lines 402-437. *)
Definition addRequestBody (doc : document) (body : option requestBodyOrRef)
    (acc : inputAcc * gmap string jschema) : inputAcc * gmap string jschema :=
  match body with
  | None => acc
  | Some b =>
      match resolveRequestBody doc b with
      | None => acc
      | Some bodyObj =>
          match rb_content bodyObj with
          | None => acc
          | Some content =>
              match contentSchema content "multipart/form-data" with
              | Some sch =>
                  let out := convertFresh doc sch (snd acc) in
                  let formSchema := fst out in
                  match js_properties formSchema with
                  | Some props =>
                      if is_literal "object" (js_type formSchema)
                      then (mergeProperties props (js_required formSchema) (fst acc), snd out)
                      else (fst acc, snd out)
                  | None => (fst acc, snd out)
                  end
              | None =>
                  match contentSchema content "application/json" with
                  | Some sch =>
                      let out := convertFresh doc sch (snd acc) in
                      let bodySchema := fst out in
                      let nested :=
                        ((obj_set "body" (withStringFallback bodySchema) (fst (fst acc)),
                          snd (fst acc) ++ ["body"]), snd out) in
                      match js_properties bodySchema with
                      | Some props =>
                          if is_literal "object" (js_type bodySchema)
                          then (mergeProperties props (js_required bodySchema) (fst acc), snd out)
                          else nested
                      | None => nested
                      end
                  | None => acc
                  end
              end
          end
      end
  end.

(** Lines 440-453. *)
Definition buildDescription (doc : document) (op : operation) : string :=
  let description := orElse (summary op) (orElse (o_description op) "") in
  match responses op with
  | Some rs =>
      let errorResponses :=
        map (fun kv : string * responseOrRef =>
               let errorDesc :=
                 match resolveResponse doc (snd kv) with
                 | Some responseObj => orElse (r_description responseObj) ""
                 | None => ""
                 end in
               (fst kv ++ ": " ++ errorDesc)%string)
            (List.filter (fun kv : string * responseOrRef =>
                            startsWith "4" (fst kv) || startsWith "5" (fst kv)) rs) in
      if (0 <? length errorResponses)%nat
      then (description ++ newline ++ "Error Responses:" ++ newline
            ++ join newline errorResponses)%string
      else description
  | None => description
  end.

Definition convertOperationToMCPMethod (doc : document) (op : operation)
    (method path : string) (cache : gmap string jschema)
  : option toolMethod * gmap string jschema :=
  match operationId op with
  | None => (None, cache)
  | Some methodName =>
      if negb (truthy methodName) then (None, cache)
      else
        let defs := convertComponentsToJsonSchema doc cache in
        let acc : inputAcc * gmap string jschema := (([], []), snd defs) in
        let acc :=
          match parameters op with
          | Some ps => fold_left (addParameter doc) ps acc
          | None => acc
          end in
        let acc := addRequestBody doc (requestBody op) acc in
        let inputSchema :=
          set_required (snd (fst acc))
            (set_properties (fst (fst acc))
               (set_type "object" (set_defs (fst defs) empty_schema))) in
        let description := buildDescription doc op in
        let ret := extractResponseType doc (responses op) (snd acc) in
        (Some (ToolMethod methodName description inputSchema (fst ret)), snd ret)
  end.

Definition generateUniqueSuffix (counter : N) : string * N :=
  let counter := (counter + 1)%N in
  (padStart 4 "0" (toString counter), counter).

Definition ensureUniqueName (name : string) (counter : N) : string * N :=
  if (String.length name <=? 64)%nat then (name, counter)
  else
    let truncatedName := slice0 (64 - 5) name in
    let suffix := generateUniqueSuffix counter in
    ((truncatedName ++ "-" ++ fst suffix)%string, snd suffix).

Definition getDescription (doc : document) (description : string) : string :=
  if String.eqb (info_title doc) "Notion API" then ("Notion | " ++ description)%string
  else description.

Definition apiName : string := "API".

(** What [convertToMCPTools] builds: [tools[apiName].methods],
    [openApiLookup] and [zip]. *)
Record catalogue : Type := Catalogue {
  methods : list toolMethod;
  openApiLookup : list (string * lookupEntry);
  zip : list (string * (lookupEntry * toolMethod))
}.

Definition emptyCatalogue : catalogue := Catalogue [] [] [].

(** The body of the inner loop, lines 187-198. *)
Definition addOperation (doc : document) (path : string)
    (acc : catalogue * converter) (field : string * pathItemField)
  : catalogue * converter :=
  let method := fst field in
  if negb (isOperation method) then acc
  else
    let self := snd acc in
    let out :=
      match snd field with
      | FOperation op =>
          let r := convertOperationToMCPMethod doc op method path (cache self) in
          (option_map (fun m => (op, m)) (fst r), snd r)
      | FOther => (None, cache self)
      end in
    match fst out with
    | None => (fst acc, ConverterState (snd out) (nameCounter self))
    | Some (op, mcpMethod) =>
        let unique := ensureUniqueName (name mcpMethod) (nameCounter self) in
        let uniqueName := fst unique in
        let mcpMethod :=
          ToolMethod uniqueName (getDescription doc (description mcpMethod))
            (inputSchema mcpMethod) (returnSchema mcpMethod) in
        let entry := LookupEntry op method path in
        let key := (apiName ++ "-" ++ uniqueName)%string in
        (Catalogue (methods (fst acc) ++ [mcpMethod])
           (obj_set key entry (openApiLookup (fst acc)))
           (obj_set key (entry, mcpMethod) (zip (fst acc))),
         ConverterState (snd out) (snd unique))
    end.

Definition addPath (doc : document) (acc : catalogue * converter)
    (entry : string * option pathItem) : catalogue * converter :=
  match snd entry with
  | None => acc
  | Some item => fold_left (addOperation doc (fst entry)) item acc
  end.

Definition convertToMCPTools (doc : document) (self : converter)
  : catalogue * converter :=
  fold_left (addPath doc)
    (match paths doc with Some ps => ps | None => [] end)
    (emptyCatalogue, self).

End Converter.

(** ** Argument recovery and the request handlers ([mcp/proxy.ts]) *)

Module Proxy.

Import Converter.

(** The bracket test applied to a trimmed string. *)
Definition looksLikeJson (value : string) : bool :=
  let trimmed := trim value in
  (startsWith "{" trimmed && endsWith "}" trimmed)
  || (startsWith "[" trimmed && endsWith "]" trimmed).

Section Recovery.

(** [JSON.parse] of the platform; [None] stands for a [SyntaxError]. *)
Context (JSON_parse : string -> option json).

Section Step.
(** The recursive call [deserializeParams(parsed)]. *)
Context (recur : list (string * json) -> option (list (string * json))).

(** Lines 42-51 and 65-71: the value a bracketed string is replaced
    by, when there is one.  The outer [None] is fuel running out in
    the recursive call; the inner one is the fall through to "keep
    the original string". *)
Definition recoverString (value : string) : option (option json) :=
  if looksLikeJson value then
    match JSON_parse value with
    | Some (JArr parsed) => Some (Some (JArr parsed))
    | Some (JObj parsed) =>
        match recur parsed with
        | Some r => Some (Some (JObj r))
        | None => None
        end
    | _ => Some None
    end
  else Some None.

(** Lines 58-77: the callback of [value.map]. *)
Definition recoverItem (item : json) : option json :=
  match item with
  | JStr s =>
      match recoverString s with
      | Some (Some v) => Some v
      | Some None => Some item
      | None => None
      end
  | _ => Some item
  end.

Fixpoint recoverItems (items : list json) : option (list json) :=
  match items with
  | [] => Some []
  | item :: rest =>
      match recoverItem item with
      | Some v =>
          match recoverItems rest with
          | Some vs => Some (v :: vs)
          | None => None
          end
      | None => None
      end
  end.

(** The body of the loop over [Object.entries(params)]. *)
Definition recoverEntry (result : list (string * json)) (entry : string * json)
  : option (list (string * json)) :=
  let key := fst entry in
  let value := snd entry in
  match value with
  | JStr s =>
      match recoverString s with
      | Some (Some v) => Some (obj_set key v result)
      | Some None => Some (obj_set key value result)
      | None => None
      end
  | JArr items =>
      match recoverItems items with
      | Some vs => Some (obj_set key (JArr vs) result)
      | None => None
      end
  | _ => Some (obj_set key value result)
  end.

Fixpoint recoverEntries (entries : list (string * json))
    (result : list (string * json)) : option (list (string * json)) :=
  match entries with
  | [] => Some result
  | entry :: rest =>
      match recoverEntry result entry with
      | Some result' => recoverEntries rest result'
      | None => None
      end
  end.
End Step.

(** [deserializeParams(params)].  What it recurses on comes out of
    [JSON.parse], so the depth of the recursion is bounded by fuel. *)
Fixpoint deserializeParams (fuel : nat) (params : list (string * json))
  : option (list (string * json)) :=
  match fuel with
  | O => None
  | S fuel' => recoverEntries (deserializeParams fuel') params []
  end.

End Recovery.

(** *** The two request handlers *)

(** The instance fields of [MCPProxy] the handlers read.  The constructor
    fills them from one call of [convertToMCPTools] on a new converter;
    the HTTP client it also creates is the parameter [executeOperation]
    below. *)
Record proxy : Type := ProxyState {
  tools : list (string * list toolMethod);
  lookup : list (string * lookupEntry)
}.

Definition newProxy (doc : document) : proxy :=
  let built := fst (convertToMCPTools doc newConverter) in
  ProxyState [(apiName, methods built)] (openApiLookup built).

Definition truncateToolName (name : string) : string :=
  if (String.length name <=? 64)%nat then name else slice0 64 name.

(** An element of the list-tools answer.  Of [annotations], the hint is
    kept ([readOnlyHint: true] or else [destructiveHint: true]); the
    [title] computed by [operationIdToTitle] is left out. *)
Record listedTool : Type := ListedTool {
  lt_name : string;
  lt_description : string;
  lt_inputSchema : jschema;
  lt_readOnlyHint : bool
}.

Definition listTool (self : proxy) (toolName : string) (method : toolMethod) : listedTool :=
  let toolNameWithMethod := (toolName ++ "-" ++ name method)%string in
  let truncatedToolName := truncateToolName toolNameWithMethod in
  let operation := get toolNameWithMethod (lookup self) in
  let isReadOnly :=
    match operation with
    | Some entry => String.eqb (toLowerCase (le_method entry)) "get"
    | None => false
    end in
  ListedTool truncatedToolName (description method) (inputSchema method) isReadOnly.

Definition listTools (self : proxy) : list listedTool :=
  flat_map (fun def : string * list toolMethod => map (listTool self (fst def)) (snd def))
    (tools self).

(** [this.openApiLookup[operationId] ?? null], on the own properties of
    the lookup. *)
Definition findOperation (self : proxy) (operationId : string) : option lookupEntry :=
  get operationId (lookup self).

(** What a handler can throw: an [Error] with a message, the
    [HttpClientError] of the HTTP client with its [data] field ([None]
    when it is [undefined]), or anything else the client throws. *)
Inductive exn : Type :=
| JsError (message : string)
| HttpClientError (data : option json)
| OtherFailure (what : json).

Inductive outcome (A : Type) : Type :=
| Returns (a : A)
| Throws (e : exn).
Arguments Returns {A} a.
Arguments Throws {A} e.

(** [{ content: [{ type: 'text', text }] }] *)
Record contentItem : Type := ContentItem { ci_type : string; ci_text : string }.
Record callResult : Type := CallResult { content : list contentItem }.

Record httpResponse : Type := HttpResponse { data : json; status : nat }.

(** [v?.k]: nothing on [null], [undefined] and on values without an own
    property [k]. *)
Definition optChain (k : string) (v : option json) : option json :=
  match v with
  | Some (JObj o) => get k o
  | _ => None
  end.

(** [a ?? b] *)
Definition nullish (a b : option json) : option json :=
  match a with
  | None | Some JNull => b
  | Some _ => a
  end.

(** The entries [...v] contributes to an object literal. *)
Definition spreadEntries (v : json) : list (string * json) :=
  match v with
  | JObj o => o
  | JArr l => combine (indices (length l)) l
  | JStr s => combine (indices (String.length s))
                (map (fun c => JStr (String c EmptyString)) (list_ascii_of_string s))
  | _ => []
  end.

(** Line 180: [error.data?.response?.data ?? error.data ?? {}] *)
Definition selectPayload (errorData : option json) : json :=
  match nullish (nullish (optChain "data" (optChain "response" errorData)) errorData)
          (Some (JObj [])) with
  | Some d => d
  | None => JObj []
  end.

(** [typeof v === 'object'] *)
Definition isObjectType (v : json) : bool :=
  match v with
  | JObj _ | JArr _ | JNull => true
  | _ => false
  end.

(** Lines 185-188: the object serialized for an [HttpClientError], its
    properties in the order [JSON.stringify] writes them. *)
Definition errorBody (errorData : option json) : json :=
  let data := selectPayload errorData in
  JObj (enumerate
          (spread [("status", JStr "error")]
             (spreadEntries (if isObjectType data then data else JObj [("data", data)])))).

Section Handlers.
Context (JSON_parse : string -> option json).
(** [JSON.stringify] of the platform. *)
Context (JSON_stringify : json -> string).
(** [this.httpClient.executeOperation(operation, params)], awaited. *)
Context (executeOperation : lookupEntry -> list (string * json) -> outcome httpResponse).

Definition textResult (text : string) : callResult :=
  CallResult [ContentItem "text" text].

(** The call-tool handler.  [params] is [None] when the request has no
    (or falsy) [arguments].  The result is [None] only when argument
    recovery runs out of fuel. *)
Definition callTool (self : proxy) (fuel : nat) (name : string)
    (params : option (list (string * json))) : option (outcome callResult) :=
  match findOperation self name with
  | None => Some (Throws (JsError ("Method " ++ name ++ " not found")))
  | Some operation =>
      match
        match params with
        | Some p => deserializeParams JSON_parse fuel p
        | None => Some []
        end
      with
      | None => None
      | Some deserializedParams =>
          match executeOperation operation deserializedParams with
          | Returns response =>
              Some (Returns (textResult (JSON_stringify (data response))))
          | Throws (HttpClientError errorData) =>
              Some (Returns (textResult (JSON_stringify (errorBody errorData))))
          | Throws error => Some (Throws error)
          end
      end
  end.
End Handlers.

End Proxy.

(** ** The two other tool formats ([parser.ts], lines 205-318) *)

Module Formats.

Import Converter.

(** Lines 282-297 of [convertOperationToJsonSchema]: one declared
    parameter.  The translated schema is entered as it is.  As in
    [addParameter], the assignment to [paramSchema.description] changes a
    cache entry when the schema is a reference outside
    [#/components/schemas/], which a cache of values does not show. *)
Definition addSchemaParameter (doc : document) (acc : inputAcc * gmap string jschema)
    (param : parameterOrRef) : inputAcc * gmap string jschema :=
  match resolveParameter doc param with
  | Some paramObj =>
      match p_schema paramObj with
      | Some sch =>
          let out := convertFresh doc sch (snd acc) in
          let paramSchema :=
            if is_truthy (p_description paramObj)
            then set_description (orElse (p_description paramObj) "") (fst out)
            else fst out in
          let properties := obj_set (p_name paramObj) paramSchema (fst (fst acc)) in
          let required :=
            if p_required paramObj then snd (fst acc) ++ [p_name paramObj]
            else snd (fst acc) in
          ((properties, required), snd out)
      | None => acc
      end
  | None => acc
  end.

(** Lines 300-315: the request body.  Only [application/json] is read, and
    only a body translated to an object with properties contributes. *)
Definition addSchemaBody (doc : document) (body : option requestBodyOrRef)
    (acc : inputAcc * gmap string jschema) : inputAcc * gmap string jschema :=
  match body with
  | None => acc
  | Some b =>
      match resolveRequestBody doc b with
      | None => acc
      | Some bodyObj =>
          match rb_content bodyObj with
          | None => acc
          | Some content =>
              match contentSchema content "application/json" with
              | Some sch =>
                  let out := convertFresh doc sch (snd acc) in
                  let bodySchema := fst out in
                  match js_properties bodySchema with
                  | Some props =>
                      if is_literal "object" (js_type bodySchema)
                      then
                        ((fold_left (fun ps kv => obj_set (fst kv) (snd kv) ps) props
                            (fst (fst acc)),
                          match js_required bodySchema with
                          | Some r => snd (fst acc) ++ r
                          | None => snd (fst acc)
                          end), snd out)
                      else (fst acc, snd out)
                  | None => (fst acc, snd out)
                  end
              | None => acc
              end
          end
      end
  end.

(** [convertOperationToJsonSchema(operation, method, path)]; the last two
    arguments are not read. *)
Definition convertOperationToJsonSchema (doc : document) (op : operation)
    (method path : string) (cache : gmap string jschema)
  : jschema * gmap string jschema :=
  let defs := convertComponentsToJsonSchema doc cache in
  let acc : inputAcc * gmap string jschema := (([], []), snd defs) in
  let acc :=
    match parameters op with
    | Some ps => fold_left (addSchemaParameter doc) ps acc
    | None => acc
    end in
  let acc := addSchemaBody doc (requestBody op) acc in
  (set_defs (fst defs)
     (set_required (snd (fst acc))
        (set_properties (fst (fst acc)) (set_type "object" empty_schema))),
   snd acc).

(** The value found under a verb key, read as an operation.  A value that
    is no operation object has none of the properties read here. *)
Definition readOperation (f : pathItemField) : operation :=
  match f with
  | FOperation op => op
  | FOther => Operation None None None None None None
  end.

(** [{ type: 'function', function: { name, description, parameters } }];
    [name] is [operation.operationId], which may be missing. *)
Record openAITool : Type := OpenAITool {
  oa_type : string;
  oa_name : option string;
  oa_description : string;
  oa_parameters : jschema
}.

(** [{ name, description, input_schema }] *)
Record anthropicTool : Type := AnthropicTool {
  an_name : option string;
  an_description : string;
  an_input_schema : jschema
}.

(** [operation.summary || operation.description || ''] *)
Definition shortDescription (op : operation) : string :=
  orElse (summary op) (orElse (o_description op) "").

(** The body of the inner loop of [convertToOpenAITools], lines 214-227. *)
Definition addOpenAITool (doc : document) (path : string)
    (acc : list openAITool * gmap string jschema) (field : string * pathItemField)
  : list openAITool * gmap string jschema :=
  let method := fst field in
  if negb (isOperation method) then acc
  else
    let operation := readOperation (snd field) in
    let parameters := convertOperationToJsonSchema doc operation method path (snd acc) in
    let tool :=
      OpenAITool "function" (operationId operation)
        (getDescription doc (shortDescription operation)) (fst parameters) in
    (fst acc ++ [tool], snd parameters).

Definition convertToOpenAITools (doc : document) (cache : gmap string jschema)
  : list openAITool * gmap string jschema :=
  fold_left
    (fun acc (entry : string * option pathItem) =>
       match snd entry with
       | None => acc
       | Some item => fold_left (addOpenAITool doc (fst entry)) item acc
       end)
    (match paths doc with Some ps => ps | None => [] end)
    ([], cache).

(** The body of the inner loop of [convertToAnthropicTools], lines
    242-252. *)
Definition addAnthropicTool (doc : document) (path : string)
    (acc : list anthropicTool * gmap string jschema) (field : string * pathItemField)
  : list anthropicTool * gmap string jschema :=
  let method := fst field in
  if negb (isOperation method) then acc
  else
    let operation := readOperation (snd field) in
    let parameters := convertOperationToJsonSchema doc operation method path (snd acc) in
    let tool :=
      AnthropicTool (operationId operation)
        (getDescription doc (shortDescription operation)) (fst parameters) in
    (fst acc ++ [tool], snd parameters).

Definition convertToAnthropicTools (doc : document) (cache : gmap string jschema)
  : list anthropicTool * gmap string jschema :=
  fold_left
    (fun acc (entry : string * option pathItem) =>
       match snd entry with
       | None => acc
       | Some item => fold_left (addAnthropicTool doc (fst entry)) item acc
       end)
    (match paths doc with Some ps => ps | None => [] end)
    ([], cache).

End Formats.

(** ** The rest of the proxy ([mcp/proxy.ts], lines 202-263) *)

Module ProxySetup.

Import Converter Proxy.

(** The two variables of [process.env] the proxy reads; [None] when a
    variable is not set. *)
Record env : Type := Env {
  OPENAPI_MCP_HEADERS : option string;
  NOTION_TOKEN : option string
}.

(** [Object.keys(v)] of a value whose type is [object]. *)
Definition ownKeys (v : json) : list string :=
  match v with
  | JObj o => keys o
  | JArr l => indices (length l)
  | _ => []
  end.

(** Lines 221-230: the headers made of [NOTION_TOKEN], or [{}]. *)
Definition tokenHeaders (notionToken : option string) : json :=
  match notionToken with
  | Some token =>
      if truthy token
      then JObj [("Authorization", JStr ("Bearer " ++ token));
                 ("Notion-Version", JStr "2025-09-03")]
      else JObj []
  | None => JObj []
  end.

(** [parseHeadersFromEnv()].  What [JSON.parse] returns is handed back as
    it is; a [SyntaxError] ([None]) is caught. *)
Definition parseHeadersFromEnv (JSON_parse : string -> option json) (e : env) : json :=
  let fallThrough := tokenHeaders (NOTION_TOKEN e) in
  match OPENAPI_MCP_HEADERS e with
  | Some headersJson =>
      if truthy headersJson then
        match JSON_parse headersJson with
        | Some headers =>
            if negb (isObjectType headers)
               || match headers with JNull => true | _ => false end
            then fallThrough
            else if (0 <? length (ownKeys headers))%nat then headers
            else fallThrough
        | None => fallThrough
        end
      else fallThrough
  | None => fallThrough
  end.

(** *** [operationIdToTitle]

    The three regular expressions are read as follows.
    - [/([a-z])([A-Z])/g]: a small letter followed by a capital; the two
      letters of a match cannot start another match.
    - [/([A-Z]+)([A-Z][a-z])/g]: [[A-Z]+] is greedy and has to leave one
      capital to the second group, so a match that starts anywhere in a
      run of capitals ends with the last capital of the run and the small
      letter after it, and there is none when no small letter follows the
      run.  The replacement puts a space before the last capital of every
      run of two or more capitals that a small letter follows.
    - [/[\s_-]+/]: a longest run of separators; since it is never empty,
      [split] yields the pieces between the runs, with an empty first
      piece when the text starts with a separator and an empty last piece
      when it ends with one. *)

Definition isSmall (c : ascii) : bool :=
  let n := nat_of_ascii c in ((97 <=? n) && (n <=? 122))%nat.

Definition isCapital (c : ascii) : bool :=
  let n := nat_of_ascii c in ((65 <=? n) && (n <=? 90))%nat.

(** [.replace(/([a-z])([A-Z])/g, '$1 $2')] *)
Fixpoint spaceCamel (s : string) : string :=
  match s with
  | String a (String b rest as tail) =>
      if isSmall a && isCapital b
      then String a (String " " (String b (spaceCamel rest)))
      else String a (spaceCamel tail)
  | _ => s
  end.

(** [.replace(/([A-Z]+)([A-Z][a-z])/g, '$1 $2')] *)
Fixpoint spaceAcronym (s : string) : string :=
  match s with
  | String a (String b (String c rest) as tail) =>
      if isCapital a && isCapital b && isSmall c
      then String a (String " " (String b (String c (spaceAcronym rest))))
      else String a (spaceAcronym tail)
  | _ => s
  end.

(** The class [[\s_-]] on the representable code units. *)
Definition isSeparator (c : ascii) : bool :=
  isWhiteSpace c || Ascii.eqb c "_" || Ascii.eqb c "-".

(** [.split(/[\s_-]+/)]; [afterSeparator] says that the character before
    was a separator of the run at hand. *)
Fixpoint splitWords (afterSeparator : bool) (s : string) : list string :=
  match s with
  | EmptyString => [EmptyString]
  | String c rest =>
      if isSeparator c then
        if afterSeparator then splitWords true rest
        else EmptyString :: splitWords true rest
      else
        match splitWords false rest with
        | [] => [String c EmptyString]
        | word :: words => String c word :: words
        end
  end.

(** [c.toUpperCase()] for one code unit.  The capital of U+00DF is [SS];
    the capitals of U+00B5 and U+00FF are not representable. *)
Definition upperChar (c : ascii) : option string :=
  let n := nat_of_ascii c in
  if ((97 <=? n) && (n <=? 122))%nat then Some (String (ascii_of_nat (n - 32)) EmptyString)
  else if ((224 <=? n) && (n <=? 254) && negb (n =? 247))%nat
       then Some (String (ascii_of_nat (n - 32)) EmptyString)
  else if (n =? 223)%nat then Some "SS"
  else if ((n =? 181) || (n =? 255))%nat then None
  else Some (String c EmptyString).

(** [word.charAt(0).toUpperCase() + word.slice(1)] *)
Definition capitalize (word : string) : option string :=
  match word with
  | EmptyString => Some EmptyString
  | String c rest =>
      match upperChar c with
      | Some capital => Some (capital ++ rest)%string
      | None => None
      end
  end.

Fixpoint capitalizeAll (words : list string) : option (list string) :=
  match words with
  | [] => Some []
  | word :: rest =>
      match capitalize word, capitalizeAll rest with
      | Some w, Some ws => Some (w :: ws)
      | _, _ => None
      end
  end.

(** [operationIdToTitle(operationId)]; [None] when a capital is not
    representable. *)
Definition operationIdToTitle (operationId : string) : option string :=
  option_map (join " ")
    (capitalizeAll (splitWords false (spaceAcronym (spaceCamel operationId)))).

(** [annotations] of a listed tool, lines 136-141: the title and the one
    hint that is set. *)
Record annotations : Type := Annotations {
  title : option string;
  readOnlyHint : bool;
  destructiveHint : bool
}.

Definition listAnnotations (self : proxy) (toolName : string) (method : toolMethod)
  : annotations :=
  let listed := listTool self toolName method in
  Annotations (operationIdToTitle (name method))
    (lt_readOnlyHint listed) (negb (lt_readOnlyHint listed)).

End ProxySetup.

(** ** A JSON reader and printer for the examples

    [JSON.parse] and [JSON.stringify] belong to the platform and are
    parameters of the model above.  The closed examples below need an
    instance: the two functions here read and print the JSON texts made of
    objects, arrays, strings with the two-character escapes, integers and
    the three literals.  A text outside this fragment is rejected. *)

Module ExampleJson.

(** The double quote. *)
Definition dquote : ascii := ascii_of_nat 34.

Definition isJsonSpace (c : ascii) : bool :=
  let n := nat_of_ascii c in
  (n =? 32)%nat || (n =? 9)%nat || (n =? 10)%nat || (n =? 13)%nat.

Fixpoint skip (s : string) : string :=
  match s with
  | EmptyString => EmptyString
  | String c rest => if isJsonSpace c then skip rest else s
  end.

Definition unescape (c : ascii) : option ascii :=
  if Ascii.eqb c dquote then Some c
  else if Ascii.eqb c "\" then Some c
  else if Ascii.eqb c "/" then Some c
  else if Ascii.eqb c "b" then Some (ascii_of_nat 8)
  else if Ascii.eqb c "f" then Some (ascii_of_nat 12)
  else if Ascii.eqb c "n" then Some (ascii_of_nat 10)
  else if Ascii.eqb c "r" then Some (ascii_of_nat 13)
  else if Ascii.eqb c "t" then Some (ascii_of_nat 9)
  else None.

(** The characters of a string literal, after its opening quote. *)
Fixpoint readString (s : string) : option (string * string) :=
  match s with
  | EmptyString => None
  | String c rest =>
      if Ascii.eqb c dquote then Some (EmptyString, rest)
      else if Ascii.eqb c "\" then
        match rest with
        | String e rest' =>
            match unescape e, readString rest' with
            | Some ch, Some (str, after) => Some (String ch str, after)
            | _, _ => None
            end
        | EmptyString => None
        end
      else if (nat_of_ascii c <? 32)%nat then None
      else
        match readString rest with
        | Some (str, after) => Some (String c str, after)
        | None => None
        end
  end.

Definition digit (c : ascii) : option Z :=
  let n := nat_of_ascii c in
  if ((48 <=? n) && (n <=? 57))%nat then Some (Z.of_nat (n - 48)) else None.

Fixpoint readDigits (s : string) (acc : Z) : Z * string :=
  match s with
  | EmptyString => (acc, s)
  | String c rest =>
      match digit c with
      | Some d => readDigits rest (10 * acc + d)%Z
      | None => (acc, s)
      end
  end.

(** An integer without leading zeros; a fraction or an exponent after it
    is left in the rest, which makes the callers reject the text. *)
Definition readNumber (s : string) : option (Z * string) :=
  let body (t : string) : option (Z * string) :=
    match t with
    | String c rest =>
        match digit c with
        | Some 0%Z => Some (0%Z, rest)
        | Some d => Some (readDigits rest d)
        | None => None
        end
    | EmptyString => None
    end in
  match s with
  | String c rest =>
      if Ascii.eqb c "-" then
        match body rest with
        | Some (n, after) => Some ((- n)%Z, after)
        | None => None
        end
      else body s
  | EmptyString => None
  end.

Definition isNumberTail (s : string) : bool :=
  match s with
  | String c _ =>
      bool_decide (is_Some (digit c)) || Ascii.eqb c "." || Ascii.eqb c "e" || Ascii.eqb c "E"
  | EmptyString => false
  end.

Section Sequences.
Context (readValue : string -> option (json * string)).

(** The elements of an array, after the opening bracket. *)
Fixpoint readElements (n : nat) (s : string) (acc : list json)
  : option (list json * string) :=
  match n with
  | O => None
  | S n' =>
      match readValue s with
      | Some (v, rest) =>
          match skip rest with
          | String c rest' =>
              if Ascii.eqb c "," then readElements n' rest' (acc ++ [v])
              else if Ascii.eqb c "]" then Some (acc ++ [v], rest')
              else None
          | EmptyString => None
          end
      | None => None
      end
  end.

(** The members of an object, after the opening brace.  A repeated key
    keeps its place and takes the later value. *)
Fixpoint readMembers (n : nat) (s : string) (acc : list (string * json))
  : option (list (string * json) * string) :=
  match n with
  | O => None
  | S n' =>
      match skip s with
      | String q rest =>
          if Ascii.eqb q dquote then
            match readString rest with
            | Some (key, rest1) =>
                match skip rest1 with
                | String colon rest2 =>
                    if Ascii.eqb colon ":" then
                      match readValue rest2 with
                      | Some (v, rest3) =>
                          match skip rest3 with
                          | String c rest4 =>
                              if Ascii.eqb c "," then readMembers n' rest4 (define key v acc)
                              else if Ascii.eqb c "}" then Some (define key v acc, rest4)
                              else None
                          | EmptyString => None
                          end
                      | None => None
                      end
                    else None
                | EmptyString => None
                end
            | None => None
            end
          else None
      | EmptyString => None
      end
  end.
End Sequences.

Fixpoint readValue (fuel : nat) (s : string) : option (json * string) :=
  match fuel with
  | O => None
  | S fuel' =>
      match skip s with
      | EmptyString => None
      | String c rest as t =>
          if Ascii.eqb c "{" then
            match skip rest with
            | String c' rest' =>
                if Ascii.eqb c' "}" then Some (JObj [], rest')
                else
                  match readMembers (readValue fuel') (String.length rest) rest [] with
                  | Some (members, after) => Some (JObj members, after)
                  | None => None
                  end
            | EmptyString => None
            end
          else if Ascii.eqb c "[" then
            match skip rest with
            | String c' rest' =>
                if Ascii.eqb c' "]" then Some (JArr [], rest')
                else
                  match readElements (readValue fuel') (String.length rest) rest [] with
                  | Some (elements, after) => Some (JArr elements, after)
                  | None => None
                  end
            | EmptyString => None
            end
          else if Ascii.eqb c dquote then
            match readString rest with
            | Some (str, after) => Some (JStr str, after)
            | None => None
            end
          else if startsWith "true" t then Some (JBool true, sliceFrom 4 t)
          else if startsWith "false" t then Some (JBool false, sliceFrom 5 t)
          else if startsWith "null" t then Some (JNull, sliceFrom 4 t)
          else
            match readNumber t with
            | Some (n, after) => if isNumberTail after then None else Some (JNum n, after)
            | None => None
            end
      end
  end.

(** The reader: the whole text is one value. *)
Definition parse (text : string) : option json :=
  match readValue (S (String.length text)) text with
  | Some (v, rest) =>
      match skip rest with
      | EmptyString => Some v
      | _ => None
      end
  | None => None
  end.

Definition hexDigit (n : nat) : ascii :=
  if (n <? 10)%nat then ascii_of_nat (48 + n) else ascii_of_nat (87 + n).

Definition escapeChar (c : ascii) : string :=
  let n := nat_of_ascii c in
  if Ascii.eqb c dquote then String "\" (String dquote EmptyString)
  else if Ascii.eqb c "\" then "\\"
  else if (n =? 8)%nat then "\b"
  else if (n =? 12)%nat then "\f"
  else if (n =? 10)%nat then "\n"
  else if (n =? 13)%nat then "\r"
  else if (n =? 9)%nat then "\t"
  else if (n <? 32)%nat then
    String "\" (String "u" (String "0" (String "0"
      (String (hexDigit (n / 16)) (String (hexDigit (n mod 16)) EmptyString)))))
  else String c EmptyString.

Fixpoint escape (s : string) : string :=
  match s with
  | EmptyString => EmptyString
  | String c rest => (escapeChar c ++ escape rest)%string
  end.

Definition quote (s : string) : string :=
  (String dquote (escape s) ++ String dquote EmptyString)%string.

(** The printer: the compact form, without a space. *)
Fixpoint stringify (v : json) : string :=
  match v with
  | JNull => "null"
  | JBool true => "true"
  | JBool false => "false"
  | JNum n => NilEmpty.string_of_int (Z.to_int n)
  | JStr s => quote s
  | JArr items => ("[" ++ join "," (map stringify items) ++ "]")%string
  | JObj entries =>
      ("{" ++ join ","
                (map (fun kv => (quote (fst kv) ++ ":" ++ stringify (snd kv))%string) entries)
           ++ "}")%string
  end.

End ExampleJson.

(** A key or a string of a JSON text, between double quotes. *)
Definition q (s : string) : string := ExampleJson.quote s.

Example example_parse_object :
  ExampleJson.parse ("{" ++ q "a" ++ ": [1, -20, true, null], " ++ q "b" ++ ": {"
                     ++ q "c" ++ ":" ++ q "x y" ++ "}}")
  = Some (JObj [("a", JArr [JNum 1; JNum (-20); JBool true; JNull]);
                ("b", JObj [("c", JStr "x y")])]).
Proof. vm_compute. reflexivity. Qed.

Example example_parse_rejects : ExampleJson.parse "{ not valid json }" = None.
Proof. vm_compute. reflexivity. Qed.

Example example_stringify :
  ExampleJson.stringify (JObj [("a", JStr "{}"); ("n", JArr [JNum 0; JNum (-7)])])
  = ("{" ++ q "a" ++ ":" ++ q "{}" ++ "," ++ q "n" ++ ":[0,-7]}")%string.
Proof. vm_compute. reflexivity. Qed.

(** * Properties *)

(** ** Strings *)

Section StringFacts.

Lemma length_append (s t : string) :
  String.length (s ++ t) = String.length s + String.length t.
Proof. induction s as [|c s IH]; simpl; [reflexivity | now rewrite IH]. Qed.

Lemma length_slice0 (n : nat) (s : string) :
  n <= String.length s -> String.length (slice0 n s) = n.
Proof.
  unfold slice0. revert s.
  induction n as [|n IH]; intros [|c s] Hn; simpl in *; try lia; try reflexivity.
  rewrite IH; lia.
Qed.

Lemma length_slice0_le (n : nat) (s : string) : String.length (slice0 n s) <= n.
Proof.
  unfold slice0. revert s.
  induction n as [|n IH]; intros [|c s]; simpl; try lia.
  specialize (IH s). lia.
Qed.

Lemma slice0_all (n : nat) (s : string) : String.length s <= n -> slice0 n s = s.
Proof.
  unfold slice0. revert s.
  induction n as [|n IH]; intros [|c s] Hn; simpl in *; try lia; try reflexivity.
  rewrite IH; [reflexivity | lia].
Qed.

Lemma append_inj_length (s1 s2 t1 t2 : string) :
  String.length s1 = String.length s2 ->
  (s1 ++ t1)%string = (s2 ++ t2)%string -> s1 = s2 /\ t1 = t2.
Proof.
  revert s2. induction s1 as [|c s1 IH]; intros [|c' s2] Hlen Heq; simpl in *;
    try discriminate.
  - split; [reflexivity | assumption].
  - injection Heq as -> Heq. injection Hlen as Hlen.
    destruct (IH _ Hlen Heq) as [-> ->]. split; reflexivity.
Qed.

Lemma length_repeat (c : ascii) (n : nat) : String.length (JsString.repeat c n) = n.
Proof. induction n as [|n IH]; simpl; [reflexivity | now rewrite IH]. Qed.

(** The number a string of decimal digits stands for, leading zeros
    allowed. *)
Definition decimalValue (s : string) : option N :=
  option_map N.of_uint (NilEmpty.uint_of_string s).

Lemma decimalValue_toString (n : N) : decimalValue (toString n) = Some n.
Proof.
  unfold decimalValue, toString.
  rewrite NilEmpty.usu. simpl. now rewrite DecimalN.Unsigned.of_to.
Qed.

Lemma decimalValue_zero (s : string) (n : N) :
  decimalValue s = Some n -> decimalValue (String "0" s) = Some n.
Proof.
  unfold decimalValue. simpl.
  destruct (NilEmpty.uint_of_string s) as [d|]; [|discriminate].
  simpl. intros [= <-]. reflexivity.
Qed.

Lemma decimalValue_padStart (k : nat) (n : N) :
  decimalValue (padStart k "0" (toString n)) = Some n.
Proof.
  unfold padStart.
  induction (k - String.length (toString n)) as [|m IH]; simpl.
  - apply decimalValue_toString.
  - now apply decimalValue_zero.
Qed.

Lemma padStart_inj (k : nat) (a b : N) :
  padStart k "0" (toString a) = padStart k "0" (toString b) -> a = b.
Proof.
  intros H.
  assert (Hv : decimalValue (padStart k "0" (toString a)) = Some b)
    by (rewrite H; apply decimalValue_padStart).
  rewrite decimalValue_padStart in Hv. now injection Hv.
Qed.

Lemma length_padStart_ge (k : nat) (c : ascii) (s : string) :
  k <= String.length (padStart k c s).
Proof. unfold padStart. rewrite length_append, length_repeat. lia. Qed.

(** Up to 9999 the suffix has exactly four digits: checked on every
    value. *)
Lemma length_suffix_small (n : N) :
  (n <= 9999)%N -> String.length (padStart 4 "0" (toString n)) = 4.
Proof.
  intros Hn.
  assert (Hall : forallb (fun m => Nat.eqb (String.length (padStart 4 "0" (toString m))) 4)
                   (map N.of_nat (seq 0 (N.to_nat 10000))) = true)
    by (vm_compute; reflexivity).
  rewrite forallb_forall in Hall.
  apply Nat.eqb_eq, Hall, in_map_iff.
  exists (N.to_nat n). split; [apply N2Nat.id | apply in_seq; lia].
Qed.

(** A number is below the power of ten of the number of its digits. *)
Lemma of_lu_bound (d : Decimal.uint) :
  (DecimalPos.Unsigned.of_lu d < 10 ^ N.of_nat (Decimal.nb_digits d))%N.
Proof.
  induction d; cbn [DecimalPos.Unsigned.of_lu Decimal.nb_digits];
    rewrite ?Nat2N.inj_succ, ?N.pow_succ_r'; simpl; lia.
Qed.

Lemma length_string_of_uint (d : Decimal.uint) :
  String.length (NilEmpty.string_of_uint d) = Decimal.nb_digits d.
Proof. induction d; simpl; congruence. Qed.

Lemma toString_bound (n : N) : (n < 10 ^ N.of_nat (String.length (toString n)))%N.
Proof.
  unfold toString. rewrite length_string_of_uint.
  rewrite <- (DecimalN.Unsigned.of_to n) at 1.
  unfold N.of_uint. rewrite DecimalPos.Unsigned.of_uint_alt.
  rewrite <- (DecimalFacts.nb_digits_rev (N.to_uint n)). apply of_lu_bound.
Qed.

(** From 10000 on the suffix has more than four digits. *)
Lemma length_suffix_large (n : N) :
  (9999 < n)%N -> 4 < String.length (padStart 4 "0" (toString n)).
Proof.
  intros Hn. pose proof (toString_bound n) as Hbound.
  assert (4 < String.length (toString n)) as Hlen.
  { destruct (Nat.lt_ge_cases 4 (String.length (toString n))) as [H|H]; [exact H|].
    assert (10 ^ N.of_nat (String.length (toString n)) <= 10 ^ 4)%N
      by (apply N.pow_le_mono_r; lia).
    change (10 ^ 4)%N with 10000%N in *. lia. }
  unfold padStart. rewrite length_append, length_repeat. lia.
Qed.

End StringFacts.

(** ** Dictionaries *)

Module DictFacts.

Section Dict.
Context {V : Type}.

Lemma get_app (k : string) (o o' : list (string * V)) :
  get k (o ++ o') = match get k o with Some v => Some v | None => get k o' end.
Proof.
  induction o as [|[k' v'] o IH]; simpl; [reflexivity|].
  destruct (String.eqb k k'); [reflexivity | exact IH].
Qed.

Lemma get_replace_eq (k : string) (v : V) (o : list (string * V)) :
  get k o <> None -> get k (replace k v o) = Some v.
Proof.
  induction o as [|[k' v'] o IH]; simpl; [congruence|].
  destruct (String.eqb k k') eqn:E; simpl; rewrite E; [reflexivity | exact IH].
Qed.

Lemma get_replace_ne (k k' : string) (v : V) (o : list (string * V)) :
  k' <> k -> get k' (replace k v o) = get k' o.
Proof.
  intros Hne. induction o as [|[k0 v0] o IH]; simpl; [reflexivity|].
  destruct (String.eqb_spec k k0) as [->|Hk]; simpl.
  - destruct (String.eqb_spec k' k0); [contradiction | reflexivity].
  - destruct (String.eqb k' k0); [reflexivity | exact IH].
Qed.

(** Reading back the key that was just assigned. *)
Lemma get_obj_set_eq (k : string) (v : V) (o : list (string * V)) :
  k <> "__proto__" -> get k (obj_set k v o) = Some v.
Proof.
  intros Hproto. unfold obj_set.
  destruct (String.eqb_spec k "__proto__"); [contradiction|].
  destruct (get k o) as [old|] eqn:Hget.
  - apply get_replace_eq. congruence.
  - rewrite get_app, Hget. simpl. now rewrite String.eqb_refl.
Qed.

(** An assignment leaves the other keys as they were. *)
Lemma get_obj_set_ne (k k' : string) (v : V) (o : list (string * V)) :
  k' <> k -> get k' (obj_set k v o) = get k' o.
Proof.
  intros Hne. unfold obj_set.
  destruct (String.eqb k "__proto__"); [reflexivity|].
  destruct (get k o) as [old|].
  - now apply get_replace_ne.
  - rewrite get_app. destruct (get k' o); [reflexivity|].
    simpl. destruct (String.eqb_spec k' k); [contradiction | reflexivity].
Qed.

Lemma Forall_replace (P : string * V -> Prop) (k : string) (v : V) (o : list (string * V)) :
  P (k, v) -> Forall P o -> Forall P (replace k v o).
Proof.
  intros Hv Ho. induction Ho as [|[k' v'] o Hkv Ho IH]; simpl; [constructor|].
  destruct (String.eqb_spec k k') as [<-|Hne]; constructor; assumption.
Qed.

Lemma Forall_obj_set (P : string * V -> Prop) (k : string) (v : V) (o : list (string * V)) :
  P (k, v) -> Forall P o -> Forall P (obj_set k v o).
Proof.
  intros Hv Ho. unfold obj_set.
  destruct (String.eqb k "__proto__"); [exact Ho|].
  destruct (get k o).
  - now apply Forall_replace.
  - apply Forall_app. split; [exact Ho | now constructor].
Qed.
End Dict.

Section Map.
Context {V W : Type} (f : V -> W).

(** [f] applied to every value of a dictionary. *)
Definition mapValues (o : list (string * V)) : list (string * W) :=
  map (fun kv => (fst kv, f (snd kv))) o.

Lemma get_mapValues (k : string) (o : list (string * V)) :
  get k (mapValues o) = option_map f (get k o).
Proof.
  induction o as [|[k' v'] o IH]; simpl; [reflexivity|].
  destruct (String.eqb k k'); [reflexivity | exact IH].
Qed.

Lemma mapValues_replace (k : string) (v : V) (o : list (string * V)) :
  mapValues (replace k v o) = replace k (f v) (mapValues o).
Proof.
  induction o as [|[k' v'] o IH]; simpl; [reflexivity|].
  destruct (String.eqb k k'); simpl; [reflexivity | now rewrite IH].
Qed.

Lemma mapValues_obj_set (k : string) (v : V) (o : list (string * V)) :
  mapValues (obj_set k v o) = obj_set k (f v) (mapValues o).
Proof.
  unfold obj_set. destruct (String.eqb k "__proto__"); [reflexivity|].
  rewrite get_mapValues. destruct (get k o); simpl.
  - apply mapValues_replace.
  - unfold mapValues. now rewrite map_app.
Qed.
End Map.

End DictFacts.

(** ** Names in the catalogue *)

Module NamingFacts.

Import Converter.

(** The identifier an operation is named by, when it has a truthy one. *)
Definition operationName (op : operation) : option string :=
  match operationId op with
  | Some id => if truthy id then Some id else None
  | None => None
  end.

(** The identifier of the tool a field of a path item gives rise to. *)
Definition fieldId (field : string * pathItemField) : option string :=
  if isOperation (fst field) then
    match snd field with
    | FOperation op => operationName op
    | FOther => None
    end
  else None.

(** The identifiers of the operations that yield a tool, in the order
    the catalogue is built. *)
Definition toolIds (doc : document) : list string :=
  flat_map (fun entry : string * option pathItem =>
              match snd entry with
              | Some item => omap fieldId item
              | None => []
              end)
    (match paths doc with Some ps => ps | None => [] end).

Definition isLong (id : string) : bool := (64 <? String.length id)%nat.

(** How many of the identifiers are longer than 64 characters. *)
Definition countLong (ids : list string) : N :=
  N.of_nat (length (List.filter isLong ids)).

(** [ensureUniqueName] applied to the identifiers in turn. *)
Fixpoint assignNames (ids : list string) (counter : N) : list string * N :=
  match ids with
  | [] => ([], counter)
  | id :: rest =>
      let first := ensureUniqueName id counter in
      let others := assignNames rest (snd first) in
      (fst first :: fst others, snd others)
  end.

Definition toolNames (c : catalogue) : list string := map name (methods c).

Lemma ensureUniqueName_counter (id : string) (counter : N) :
  snd (ensureUniqueName id counter) = (counter + countLong [id])%N.
Proof.
  unfold ensureUniqueName, countLong, isLong. simpl.
  destruct (Nat.leb_spec (String.length id) 64) as [H|H].
  - destruct (Nat.ltb_spec 64 (String.length id)); [lia|]. simpl. lia.
  - destruct (Nat.ltb_spec 64 (String.length id)); [|lia]. simpl. lia.
Qed.

Lemma countLong_app (l1 l2 : list string) :
  countLong (l1 ++ l2) = (countLong l1 + countLong l2)%N.
Proof. unfold countLong. rewrite List.filter_app, length_app. lia. Qed.

Lemma assignNames_app (l1 l2 : list string) (counter : N) :
  assignNames (l1 ++ l2) counter
  = (fst (assignNames l1 counter) ++ fst (assignNames l2 (snd (assignNames l1 counter))),
     snd (assignNames l2 (snd (assignNames l1 counter)))).
Proof.
  revert counter. induction l1 as [|id l1 IH]; intros counter; simpl.
  - now destruct (assignNames l2 counter).
  - now rewrite IH.
Qed.

Lemma assignNames_counter (ids : list string) (counter : N) :
  snd (assignNames ids counter) = (counter + countLong ids)%N.
Proof.
  revert counter. induction ids as [|id ids IH]; intros counter; simpl.
  - unfold countLong. simpl. lia.
  - rewrite IH, ensureUniqueName_counter.
    change (id :: ids) with ([id] ++ ids). rewrite countLong_app. lia.
Qed.

(** The name at a position depends on the identifier there and on the
    number of long identifiers before it. *)
Lemma assignNames_lookup (ids : list string) (counter : N) (i : nat) (id : string) :
  ids !! i = Some id ->
  fst (assignNames ids counter) !! i
  = Some (fst (ensureUniqueName id (counter + countLong (take i ids)))).
Proof.
  revert counter i. induction ids as [|id' ids IH]; intros counter i Hi.
  - discriminate.
  - destruct i as [|i]; simpl in *.
    + injection Hi as ->. unfold countLong. simpl. now rewrite N.add_0_r.
    + rewrite (IH _ _ Hi), ensureUniqueName_counter.
      change (id' :: take i ids) with ([id'] ++ take i ids).
      rewrite countLong_app. now rewrite N.add_assoc.
Qed.

Lemma convertOperationToMCPMethod_name (doc : document) (op : operation)
    (method path : string) (cache : gmap string jschema) :
  option_map name (fst (convertOperationToMCPMethod doc op method path cache))
  = operationName op.
Proof.
  unfold convertOperationToMCPMethod, operationName.
  destruct (operationId op) as [id|]; [|reflexivity].
  destruct (truthy id); reflexivity.
Qed.

Lemma addOperation_names (doc : document) (path : string)
    (acc : catalogue * converter) (field : string * pathItemField) :
  let out := addOperation doc path acc field in
  let named := assignNames (option_list (fieldId field)) (nameCounter (snd acc)) in
  toolNames (fst out) = toolNames (fst acc) ++ fst named
  /\ nameCounter (snd out) = snd named.
Proof.
  unfold addOperation, fieldId, toolNames.
  destruct (isOperation (fst field)); simpl.
  2: { split; [now rewrite app_nil_r | reflexivity]. }
  destruct (snd field) as [op|]; simpl.
  2: { split; [now rewrite app_nil_r | reflexivity]. }
  pose proof (convertOperationToMCPMethod_name doc op (fst field) path (cache (snd acc)))
    as Hname.
  destruct (fst (convertOperationToMCPMethod doc op (fst field) path (cache (snd acc))))
    as [m|]; simpl in *; rewrite <- Hname; simpl.
  - split; [now rewrite map_app | reflexivity].
  - split; [now rewrite app_nil_r | reflexivity].
Qed.

Lemma fold_addOperation_names (doc : document) (path : string) (item : pathItem)
    (acc : catalogue * converter) :
  let out := fold_left (addOperation doc path) item acc in
  let named := assignNames (omap fieldId item) (nameCounter (snd acc)) in
  toolNames (fst out) = toolNames (fst acc) ++ fst named
  /\ nameCounter (snd out) = snd named.
Proof.
  revert acc. induction item as [|field item IH]; intros acc; simpl.
  - split; [now rewrite app_nil_r | reflexivity].
  - destruct (IH (addOperation doc path acc field)) as [IHn IHc].
    destruct (addOperation_names doc path acc field) as [Hn Hc].
    simpl in *. rewrite IHn, IHc, Hn, Hc.
    destruct (fieldId field) as [id|]; simpl.
    + split; [now rewrite <- app_assoc | reflexivity].
    + split; [now rewrite app_nil_r | reflexivity].
Qed.

Lemma fold_addPath_names (doc : document) (ps : list (string * option pathItem))
    (acc : catalogue * converter) :
  let out := fold_left (addPath doc) ps acc in
  let ids := flat_map (fun entry : string * option pathItem =>
                         match snd entry with
                         | Some item => omap fieldId item
                         | None => []
                         end) ps in
  let named := assignNames ids (nameCounter (snd acc)) in
  toolNames (fst out) = toolNames (fst acc) ++ fst named
  /\ nameCounter (snd out) = snd named.
Proof.
  revert acc. induction ps as [|entry ps IH]; intros acc; simpl.
  - split; [now rewrite app_nil_r | reflexivity].
  - destruct (IH (addPath doc acc entry)) as [IHn IHc]. simpl in IHn, IHc.
    rewrite IHn, IHc, assignNames_app. simpl.
    unfold addPath.
    destruct (snd entry) as [item|]; simpl.
    + destruct (fold_addOperation_names doc (fst entry) item acc) as [Hn Hc].
      simpl in Hn, Hc. rewrite Hn, Hc.
      split; [now rewrite <- app_assoc | reflexivity].
    + split; reflexivity.
Qed.

(** The names of the catalogue are the identifiers of the document run
    through [ensureUniqueName] in order, one counter for the whole build. *)
Lemma convertToMCPTools_names (doc : document) (self : converter) :
  let out := convertToMCPTools doc self in
  toolNames (fst out) = fst (assignNames (toolIds doc) (nameCounter self))
  /\ nameCounter (snd out) = snd (assignNames (toolIds doc) (nameCounter self)).
Proof.
  unfold convertToMCPTools, toolIds.
  destruct (fold_addPath_names doc (match paths doc with Some ps => ps | None => [] end)
              (emptyCatalogue, self)) as [Hn Hc].
  simpl in *. now rewrite Hn, Hc.
Qed.

Lemma ensureUniqueName_short (id : string) (counter : N) :
  String.length id <= 64 -> ensureUniqueName id counter = (id, counter).
Proof.
  intros H. unfold ensureUniqueName.
  destruct (Nat.leb_spec (String.length id) 64); [reflexivity | lia].
Qed.

Lemma ensureUniqueName_long (id : string) (counter : N) :
  64 < String.length id ->
  ensureUniqueName id counter
  = ((slice0 59 id ++ "-" ++ padStart 4 "0" (toString (counter + 1)))%string,
     (counter + 1)%N).
Proof.
  intros H. unfold ensureUniqueName.
  destruct (Nat.leb_spec (String.length id) 64); [lia | reflexivity].
Qed.

Lemma isLong_true (id : string) : isLong id = true <-> 64 < String.length id.
Proof. unfold isLong. apply Nat.ltb_lt. Qed.

Lemma countLong_long (id : string) : 64 < String.length id -> countLong [id] = 1%N.
Proof.
  intros H. unfold countLong. simpl.
  now rewrite (proj2 (isLong_true id) H).
Qed.

Lemma countLong_take_S (ids : list string) (i : nat) (id : string) :
  ids !! i = Some id ->
  countLong (take (S i) ids) = (countLong (take i ids) + countLong [id])%N.
Proof. intros H. now rewrite (take_S_r _ _ _ H), countLong_app. Qed.

Lemma countLong_take_mono (ids : list string) (i j : nat) :
  i <= j -> (countLong (take i ids) <= countLong (take j ids))%N.
Proof.
  intros Hij.
  replace (take i ids) with (take i (take j ids)) by (rewrite take_take; f_equal; lia).
  rewrite <- (take_drop i (take j ids)) at 2.
  rewrite countLong_app. lia.
Qed.

(** The value of [nameCounter] once the operation at position [i] has been
    named. *)
Definition counterAt (doc : document) (self : converter) (i : nat) : N :=
  (nameCounter self + countLong (take (S i) (toolIds doc)))%N.

(** The name given to the operation at a position of the document. *)
Lemma name_at (doc : document) (self : converter) (i : nat) (id : string) :
  toolIds doc !! i = Some id ->
  toolNames (fst (convertToMCPTools doc self)) !! i
  = Some (fst (ensureUniqueName id (nameCounter self + countLong (take i (toolIds doc))))).
Proof.
  intros Hi.
  destruct (convertToMCPTools_names doc self) as [Hn _]. simpl in Hn.
  rewrite Hn. now apply assignNames_lookup.
Qed.

Lemma name_at_short (doc : document) (self : converter) (i : nat) (id : string) :
  toolIds doc !! i = Some id -> String.length id <= 64 ->
  toolNames (fst (convertToMCPTools doc self)) !! i = Some id.
Proof.
  intros Hi Hlen. rewrite (name_at _ _ _ _ Hi).
  now rewrite ensureUniqueName_short.
Qed.

Lemma name_at_long (doc : document) (self : converter) (i : nat) (id : string) :
  toolIds doc !! i = Some id -> 64 < String.length id ->
  toolNames (fst (convertToMCPTools doc self)) !! i
  = Some (slice0 59 id ++ "-" ++ padStart 4 "0" (toString (counterAt doc self i)))%string.
Proof.
  intros Hi Hlen. rewrite (name_at _ _ _ _ Hi).
  rewrite ensureUniqueName_long by assumption. simpl.
  unfold counterAt. rewrite (countLong_take_S _ _ _ Hi), countLong_long by assumption.
  now rewrite N.add_assoc.
Qed.

Lemma counterAt_increases (doc : document) (self : converter) (i j : nat) (id : string) :
  i < j -> toolIds doc !! j = Some id -> 64 < String.length id ->
  (counterAt doc self i < counterAt doc self j)%N.
Proof.
  intros Hij Hj Hlen. unfold counterAt.
  rewrite (countLong_take_S _ _ _ Hj), countLong_long by assumption.
  pose proof (countLong_take_mono (toolIds doc) (S i) j ltac:(lia)). lia.
Qed.

Lemma length_long_name (id : string) (k : N) :
  64 < String.length id ->
  64 <= String.length (slice0 59 id ++ "-" ++ padStart 4 "0" (toString k))%string.
Proof.
  intros H. rewrite !length_append, length_slice0 by lia.
  pose proof (length_padStart_ge 4 "0" (toString k)). simpl. lia.
Qed.

Lemma long_names_differ (id1 id2 : string) (k1 k2 : N) :
  64 < String.length id1 -> 64 < String.length id2 -> k1 <> k2 ->
  (slice0 59 id1 ++ "-" ++ padStart 4 "0" (toString k1))%string
  <> (slice0 59 id2 ++ "-" ++ padStart 4 "0" (toString k2))%string.
Proof.
  intros H1 H2 Hk Heq.
  apply append_inj_length in Heq as [_ Heq].
  - simpl in Heq. injection Heq as Heq. now apply padStart_inj in Heq.
  - rewrite !length_slice0 by lia. reflexivity.
Qed.

(** The key of [openApiLookup] a tool name is stored under. *)
Definition lookupKey (toolName : string) : string := (apiName ++ "-" ++ toolName)%string.

Lemma lookupKey_inj (a b : string) : lookupKey a = lookupKey b -> a = b.
Proof. unfold lookupKey, apiName. simpl. intros H. now injection H. Qed.

End NamingFacts.

(** ** Tool names: C6, C2, C1 *)

Import Converter NamingFacts Proxy.

(** An operation that has nothing but an identifier. *)
Definition bareOperation (id : string) : operation :=
  Operation (Some id) None None None None None.

(** The document of the long-name scenario: one operation, identified by
    65 letters. *)
Definition longNameDocument : document :=
  Document "Test API"
    (Some [("/test", Some [("get", FOperation (bareOperation (JsString.repeat "a" 65)))])])
    None.

(** Two operations of one path that carry the same identifier. *)
Definition sameIdDocument : document :=
  Document "Test API"
    (Some [("/pets", Some [("get", FOperation (bareOperation "getPet"));
                           ("post", FOperation (bareOperation "getPet"))])])
    None.

(** Ten thousand operations, each under its own path, with pairwise
    different identifiers of more than 64 characters. *)
Definition crowdedDocument : document :=
  Document "Test API"
    (Some (map (fun i : nat =>
                  (("/p" ++ toString (N.of_nat i))%string,
                   Some [("get", FOperation
                            (bareOperation (JsString.repeat "a" 65 ++ toString (N.of_nat i))%string))]))
             (seq 0 (N.to_nat 10000))))
    None.

(** C6 as the specification states it: every name assigned to an
    identifier of more than 64 characters is at most 64 characters long. *)
Definition longNamesFit (doc : document) : Prop :=
  forall (i : nat) (id toolName : string),
    toolIds doc !! i = Some id -> 64 < String.length id ->
    toolNames (fst (convertToMCPTools doc newConverter)) !! i = Some toolName ->
    String.length toolName <= 64.

(** C6, at the failing input.  The last operation of [crowdedDocument] is
    the 10000th whose identifier is cut: the counter is 10000, the suffix
    has five digits and the name 65 characters, one more than the bound the
    specification states for every name.  The same holds of every name cut
    when the counter of the converter has passed 9999. *)
Theorem C6_name_exceeds_bound :
  toolIds crowdedDocument !! (N.to_nat 9999) = Some (JsString.repeat "a" 65 ++ "9999")%string
  /\ counterAt crowdedDocument newConverter (N.to_nat 9999) = 10000%N
  /\ toolNames (fst (convertToMCPTools crowdedDocument newConverter)) !! (N.to_nat 9999)
     = Some (JsString.repeat "a" 59 ++ "-10000")%string
  /\ String.length (JsString.repeat "a" 59 ++ "-10000")%string = 65
  /\ ~ longNamesFit crowdedDocument
  /\ forall (doc : document) (self : converter) (i : nat) (id : string),
       toolIds doc !! i = Some id -> 64 < String.length id ->
       (9999 < counterAt doc self i)%N ->
       exists toolName,
         toolNames (fst (convertToMCPTools doc self)) !! i = Some toolName
         /\ 64 < String.length toolName.
Proof.
  assert (Hid : toolIds crowdedDocument !! (N.to_nat 9999)
                = Some (JsString.repeat "a" 65 ++ "9999")%string)
    by (vm_compute; reflexivity).
  assert (Hlen : 64 < String.length (JsString.repeat "a" 65 ++ "9999")%string)
    by (vm_compute; lia).
  assert (Hk : counterAt crowdedDocument newConverter (N.to_nat 9999) = 10000%N)
    by (vm_compute; reflexivity).
  pose proof (name_at_long crowdedDocument newConverter _ _ Hid Hlen) as Hname.
  rewrite Hk in Hname.
  assert (Hname' : toolNames (fst (convertToMCPTools crowdedDocument newConverter))
                     !! (N.to_nat 9999)
                   = Some (JsString.repeat "a" 59 ++ "-10000")%string).
  { rewrite Hname. vm_compute. reflexivity. }
  split; [exact Hid|]. split; [exact Hk|]. split; [exact Hname'|].
  split; [vm_compute; reflexivity|]. split.
  - intros Hfit. specialize (Hfit _ _ _ Hid Hlen Hname'). vm_compute in Hfit. lia.
  - intros doc self i id Hi Hlong Hcounter.
    exists (slice0 59 id ++ "-" ++ padStart 4 "0" (toString (counterAt doc self i)))%string.
    split; [now apply name_at_long|].
    pose proof (length_suffix_large _ Hcounter) as Hsuffix.
    rewrite !length_append, length_slice0 by lia. simpl. lia.
Qed.

(** An identifier of at most 64 characters is the tool name, unchanged.
    An identifier of more than 64 characters is cut to its first 59
    characters, then a hyphen and the converter's counter are appended, the
    counter padded with zeros to four digits; the counter grows with every
    name so built, and the name has exactly 64 characters as long as the
    counter is at most 9999.  The document whose only operation is
    identified by 65 letters [a] yields exactly one tool, named by 59
    letters [a] and [-0001]. *)
Theorem name_assignment (doc : document) (self : converter) (i : nat) (id : string) :
  toolIds doc !! i = Some id ->
  let names := toolNames (fst (convertToMCPTools doc self)) in
  let k := counterAt doc self i in
  (String.length id <= 64 -> names !! i = Some id)
  /\ (64 < String.length id ->
      names !! i = Some (slice0 59 id ++ "-" ++ padStart 4 "0" (toString k))%string
      /\ String.length (slice0 59 id) = 59
      /\ (nameCounter self < k)%N
      /\ (forall (j : nat) (id' : string),
            i < j -> toolIds doc !! j = Some id' -> 64 < String.length id' ->
            (k < counterAt doc self j)%N)
      /\ ((k <= 9999)%N ->
          String.length (padStart 4 "0" (toString k)) = 4
          /\ String.length (slice0 59 id ++ "-" ++ padStart 4 "0" (toString k))%string = 64))
  /\ toolNames (fst (convertToMCPTools longNameDocument newConverter))
     = [(JsString.repeat "a" 59 ++ "-0001")%string].
Proof.
  intros Hi names k. split; [|split].
  - intros Hlen. now apply name_at_short.
  - intros Hlen. split; [|split; [|split; [|split]]].
    + now apply name_at_long.
    + apply length_slice0. lia.
    + unfold k, counterAt.
      rewrite (countLong_take_S _ _ _ Hi), countLong_long by assumption. lia.
    + intros j id' Hij Hj Hlen'. now apply (counterAt_increases doc self i j id').
    + intros Hk. pose proof (length_suffix_small k Hk) as H4. split; [exact H4|].
      rewrite !length_append, length_slice0, H4 by lia. reflexivity.
  - vm_compute. reflexivity.
Qed.

Lemma name_assignment_witness :
  toolIds longNameDocument !! 0 = Some (JsString.repeat "a" 65)
  /\ toolNames (fst (convertToMCPTools longNameDocument newConverter)) !! 0
     = Some (slice0 59 (JsString.repeat "a" 65) ++ "-"
             ++ padStart 4 "0" (toString (counterAt longNameDocument newConverter 0)))%string.
Proof.
  split; [reflexivity|].
  destruct (name_assignment longNameDocument newConverter 0 (JsString.repeat "a" 65)
              eq_refl) as [_ [Hlong _]].
  destruct Hlong as [Hname _]; [vm_compute; lia | exact Hname].
Defined.

(** C2 as the specification states it: the tools of two different
    operations of a document have different names. *)
Definition namesPairwiseDistinct (doc : document) : Prop :=
  forall (i j : nat) (n1 n2 : string),
    i <> j ->
    toolNames (fst (convertToMCPTools doc newConverter)) !! i = Some n1 ->
    toolNames (fst (convertToMCPTools doc newConverter)) !! j = Some n2 ->
    n1 <> n2.

(** C2, counterexample: the two operations of [sameIdDocument] carry the
    identifier [getPet]; both tools are named [getPet] and the lookup keeps
    one entry, the later one. *)
Lemma C2_counterexample :
  ~ namesPairwiseDistinct sameIdDocument
  /\ map (fun kv => (fst kv, le_method (snd kv)))
       (openApiLookup (fst (convertToMCPTools sameIdDocument newConverter)))
     = [("API-getPet", "post")].
Proof.
  split; [|vm_compute; reflexivity].
  intros H. apply (H 0 1 "getPet" "getPet"); [lia | reflexivity | reflexivity | reflexivity].
Qed.

(** C2 (amended): for two different operations of one document, the tool
    names, and so the lookup keys, differ when both identifiers are longer
    than 64 characters, whether or not they agree on their first 59
    characters or altogether; when both are at most 64 characters long the
    names are equal exactly when the identifiers are; and an identifier
    shorter than 64 characters never gets the name of a truncated one. *)
Theorem C2_names_differ (doc : document) (self : converter)
    (i j : nat) (id1 id2 n1 n2 : string) :
  i <> j ->
  toolIds doc !! i = Some id1 ->
  toolIds doc !! j = Some id2 ->
  toolNames (fst (convertToMCPTools doc self)) !! i = Some n1 ->
  toolNames (fst (convertToMCPTools doc self)) !! j = Some n2 ->
  (64 < String.length id1 -> 64 < String.length id2 -> lookupKey n1 <> lookupKey n2)
  /\ (String.length id1 <= 64 -> String.length id2 <= 64 ->
      (lookupKey n1 = lookupKey n2 <-> id1 = id2))
  /\ (String.length id1 < 64 -> 64 < String.length id2 -> lookupKey n1 <> lookupKey n2).
Proof.
  intros Hij H1 H2 Hn1 Hn2. split; [|split].
  - intros L1 L2 Hkey. apply lookupKey_inj in Hkey. subst n2.
    rewrite (name_at_long _ _ _ _ H1 L1) in Hn1.
    rewrite (name_at_long _ _ _ _ H2 L2) in Hn2.
    rewrite <- Hn2 in Hn1. injection Hn1 as Hn1.
    revert Hn1. apply long_names_differ; try assumption.
    destruct (Nat.lt_total i j) as [Hlt|[Heq|Hlt]]; [| contradiction |].
    + pose proof (counterAt_increases doc self i j id2 Hlt H2 L2). lia.
    + pose proof (counterAt_increases doc self j i id1 Hlt H1 L1). lia.
  - intros S1 S2.
    rewrite (name_at_short _ _ _ _ H1 S1) in Hn1.
    rewrite (name_at_short _ _ _ _ H2 S2) in Hn2.
    injection Hn1 as <-. injection Hn2 as <-.
    split; [apply lookupKey_inj | now intros ->].
  - intros S1 L2 Hkey. apply lookupKey_inj in Hkey.
    rewrite (name_at_short _ _ _ _ H1 ltac:(lia)) in Hn1.
    rewrite (name_at_long _ _ _ _ H2 L2) in Hn2.
    injection Hn1 as E1. injection Hn2 as E2.
    pose proof (length_long_name id2 (counterAt doc self j) L2) as Hlen.
    rewrite E2, <- Hkey, <- E1 in Hlen. lia.
Qed.

(** Two operations whose identifiers differ in their 65th character only. *)
Definition collidingDocument : document :=
  Document "Test API"
    (Some [("/pets", Some [("get", FOperation
                              (bareOperation (JsString.repeat "a" 64 ++ "b")%string));
                           ("post", FOperation
                              (bareOperation (JsString.repeat "a" 64 ++ "c")%string))])])
    None.

(** C2, witness: identifiers that collide after truncation get the suffixes
    [0001] and [0002]. *)
Lemma C2_names_differ_witness :
  lookupKey (JsString.repeat "a" 59 ++ "-0001")%string
  <> lookupKey (JsString.repeat "a" 59 ++ "-0002")%string.
Proof.
  refine (proj1 (C2_names_differ collidingDocument newConverter 0 1
                   (JsString.repeat "a" 64 ++ "b")%string
                   (JsString.repeat "a" 64 ++ "c")%string
                   (JsString.repeat "a" 59 ++ "-0001")%string
                   (JsString.repeat "a" 59 ++ "-0002")%string
                   _ eq_refl eq_refl eq_refl eq_refl) _ _).
  - lia.
  - vm_compute. lia.
  - vm_compute. lia.
Defined.

(** C1, at the failing input.  For the document of the long-name scenario
    the list-tools handler exposes a name cut to 64 characters, while the
    lookup holds the operation under the uncut 68 characters: the exposed
    name is no key of the lookup, and calling it fails with the
    method-not-found error. *)
Theorem C1_listed_name_is_not_a_key :
  let self := newProxy longNameDocument in
  let listed := ("API-" ++ JsString.repeat "a" 59 ++ "-")%string in
  map lt_name (listTools self) = [listed]
  /\ keys (lookup self) = [("API-" ++ JsString.repeat "a" 59 ++ "-0001")%string]
  /\ findOperation self listed = None
  /\ forall (JSON_parse : string -> option json) (JSON_stringify : json -> string)
            (executeOperation : lookupEntry -> list (string * json) -> outcome httpResponse)
            (fuel : nat) (params : option (list (string * json))),
       callTool JSON_parse JSON_stringify executeOperation self fuel listed params
       = Some (Throws (JsError ("Method " ++ listed ++ " not found"))).
Proof.
  split; [vm_compute; reflexivity|].
  split; [vm_compute; reflexivity|].
  split; [vm_compute; reflexivity|].
  intros. unfold callTool.
  replace (findOperation (newProxy longNameDocument)
             ("API-" ++ JsString.repeat "a" 59 ++ "-")%string)
    with (@None lookupEntry) by (vm_compute; reflexivity).
  reflexivity.
Qed.

(** ** The translator *)

Module TranslatorFacts.

Import Converter.

Lemma convert_unfold (doc : document) (resolveRefs : bool) (fuel : nat) (s : schema) :
  convert doc resolveRefs fuel s
  = convertNode doc resolveRefs (convert doc resolveRefs fuel)
      (match fuel with
       | O => None
       | S fuel' => Some (convert doc resolveRefs fuel')
       end) s.
Proof. destruct fuel; destruct s; reflexivity. Qed.

Lemma bind_Some {A B : Type} (m : M A) (k : A -> M B) (st st' : tstate) (b : B) :
  bind m k st = Some (b, st') <->
  exists a st1, m st = Some (a, st1) /\ k a st1 = Some (b, st').
Proof.
  unfold bind. split.
  - destruct (m st) as [[a st1]|]; [|discriminate]. intros H. now exists a, st1.
  - intros (a & st1 & -> & H). exact H.
Qed.

(** *** What [lookupRef] does to the state *)

Lemma internalResolveRef_found (doc : document) (ref : string) (resolved resolved' : gset string)
    (current : tree) :
  internalResolveRef doc ref resolved = (Some current, resolved') ->
  startsWith "#/" ref = true
  /\ (ref ∉ resolved)
  /\ resolved' = resolved ∪ {[ref]}
  /\ walk (split "/" (replacePrefix "#/" "" ref)) (Reify.of_document doc) = Some current.
Proof.
  unfold internalResolveRef.
  destruct (startsWith "#/" ref); simpl; [|discriminate].
  case_bool_decide; [discriminate|].
  destruct (walk _ _) as [t|]; [|discriminate].
  intros [= <- <-]. auto.
Qed.

Lemma internalResolveRef_missing (doc : document) (ref : string) (resolved resolved' : gset string) :
  internalResolveRef doc ref resolved = (None, resolved') -> resolved' = resolved.
Proof.
  unfold internalResolveRef.
  destruct (startsWith "#/" ref); simpl; [|now intros [= <-]].
  case_bool_decide; [now intros [= <-]|].
  destruct (walk _ _) as [t|]; [discriminate | now intros [= <-]].
Qed.

Lemma lookupRef_resolved (doc : document) (ref : string) (st st' : tstate) (node : schema) :
  lookupRef doc ref st = Resolved node st' ->
  schemaCache st !! ref = None
  /\ (ref ∉ resolvedRefs st)
  /\ st' = TState (resolvedRefs st ∪ {[ref]}) (schemaCache st)
  /\ exists current,
       walk (split "/" (replacePrefix "#/" "" ref)) (Reify.of_document doc) = Some current
       /\ as_schema current = Some node.
Proof.
  unfold lookupRef.
  destruct (schemaCache st !! ref) as [cached|]; [discriminate|].
  destruct (internalResolveRef doc ref (resolvedRefs st)) as [[current|] resolved'] eqn:Hres;
    [|discriminate].
  destruct (as_schema current) as [s|] eqn:Hs; [|discriminate].
  intros [= <- <-].
  apply internalResolveRef_found in Hres as (_ & Hnot & -> & Hwalk).
  repeat split; try assumption. now exists current.
Qed.

Lemma lookupRef_notResolved (doc : document) (ref : string) (st st' : tstate) :
  lookupRef doc ref st = NotResolved st' ->
  schemaCache st !! ref = None
  /\ schemaCache st' = schemaCache st
  /\ resolvedRefs st ⊆ resolvedRefs st'.
Proof.
  unfold lookupRef.
  destruct (schemaCache st !! ref) as [cached|]; [discriminate|].
  destruct (internalResolveRef doc ref (resolvedRefs st)) as [[current|] resolved'] eqn:Hres.
  - apply internalResolveRef_found in Hres as (_ & _ & -> & _).
    destruct (as_schema current); [discriminate|].
    intros [= <-]. simpl. split; [reflexivity|]. split; [reflexivity|]. set_solver.
  - apply internalResolveRef_missing in Hres as ->.
    intros [= <-]. simpl. split; [reflexivity|]. split; [reflexivity|]. set_solver.
Qed.

Lemma lookupRef_hit (doc : document) (ref : string) (st : tstate) (cached : jschema) :
  lookupRef doc ref st = CacheHit cached <-> schemaCache st !! ref = Some cached.
Proof.
  unfold lookupRef.
  destruct (schemaCache st !! ref) as [c|].
  - split; now intros [= ->].
  - split; [|discriminate].
    destruct (internalResolveRef _ _ _) as [[current|] ?]; [|discriminate].
    destruct (as_schema current); discriminate.
Qed.

(** *** Termination

    [U] is a finite set of pointers.  A computation terminates below a
    bound when it returns from every state in which fewer than [bound]
    pointers of [U] are still outside the [Set]; it may only add to the
    [Set]. *)

Section Termination.
Context (U : gset string).

Definition within (l : list string) : Prop := Forall (fun r => r ∈ U) l.

Definition pending (st : tstate) : nat := size (U ∖ resolvedRefs st).

Definition terminates {A : Type} (bound : nat) (m : M A) : Prop :=
  forall st, pending st < bound ->
    exists a st', m st = Some (a, st') /\ resolvedRefs st ⊆ resolvedRefs st'.

Lemma pending_mono (st st' : tstate) :
  resolvedRefs st ⊆ resolvedRefs st' -> pending st' <= pending st.
Proof. intros H. unfold pending. apply subseteq_size. set_solver. Qed.

Lemma pending_step (st : tstate) (ref : string) :
  ref ∈ U -> ref ∉ resolvedRefs st ->
  pending (TState (resolvedRefs st ∪ {[ref]}) (schemaCache st)) < pending st.
Proof.
  intros HU Hnot. unfold pending. apply subset_size. simpl.
  apply strict_spec_alt. split; [set_solver|].
  intros Heq. assert (ref ∈ U ∖ resolvedRefs st) as Hin by set_solver.
  rewrite <- Heq in Hin. set_solver.
Qed.

Lemma terminates_ret {A : Type} (bound : nat) (a : A) : terminates bound (ret a).
Proof. intros st _. exists a, st. split; [reflexivity | set_solver]. Qed.

Lemma terminates_bind {A B : Type} (bound : nat) (m : M A) (k : A -> M B) :
  terminates bound m -> (forall a, terminates bound (k a)) -> terminates bound (bind m k).
Proof.
  intros Hm Hk st Hst.
  destruct (Hm st Hst) as (a & st1 & Hrun & Hsub).
  destruct (Hk a st1) as (b & st2 & Hrun2 & Hsub2).
  { pose proof (pending_mono _ _ Hsub). lia. }
  exists b, st2. split.
  - apply bind_Some. now exists a, st1.
  - set_solver.
Qed.

Section Loops.
Context (translate : schema -> M jschema) (bound : nat).

(** What the induction on a schema knows about a part of it. *)
Definition partTerminates (s : schema) : Prop :=
  within (schema_refs s) -> terminates bound (translate s).

Lemma terminates_convert_properties (ps : list (string * schema)) :
  list_all (string * schema) (prod_all string (fun _ => unit) schema partTerminates) ps ->
  within (flat_map (fun kv => schema_refs (snd kv)) ps) ->
  forall acc, terminates bound (convert_properties translate ps acc).
Proof.
  intros Hall. induction Hall as [|kv Hkv ps Hall IH]; intros Hin acc; simpl.
  - apply terminates_ret.
  - simpl in Hin. apply Forall_app in Hin as [Hin1 Hin2].
    destruct Hkv as [k _ v Hv]. simpl in *.
    apply terminates_bind; [now apply Hv|].
    intros a. now apply IH.
Qed.

Lemma terminates_convert_all (l : list schema) :
  list_all schema partTerminates l ->
  within (flat_map schema_refs l) ->
  terminates bound (convert_all translate l).
Proof.
  intros Hall. induction Hall as [|s Hs l Hall IH]; intros Hin; simpl.
  - apply terminates_ret.
  - simpl in Hin. apply Forall_app in Hin as [Hin1 Hin2].
    apply terminates_bind; [now apply Hs|].
    intros v. apply terminates_bind; [now apply IH|].
    intros vs. apply terminates_ret.
Qed.

Lemma terminates_convertComposition (members : option (list schema))
    (set : list jschema -> jschema -> jschema) (result : jschema) :
  option_all (list schema) (list_all schema partTerminates) members ->
  within (match members with Some l => flat_map schema_refs l | None => [] end) ->
  terminates bound (convertComposition translate members set result).
Proof.
  intros Hall Hin. destruct Hall as [l Hl|]; simpl.
  - apply terminates_bind; [now apply terminates_convert_all|].
    intros vs. apply terminates_ret.
  - apply terminates_ret.
Qed.

Lemma terminates_convertObject (f : schemaFields)
    (properties : option (list (string * schema)))
    (additionalProperties : option (bool + schema)) (result : jschema) :
  option_all (list (string * schema))
    (list_all (string * schema) (prod_all string (fun _ => unit) schema partTerminates))
    properties ->
  option_all (bool + schema) (sum_all bool (fun _ => unit) schema partTerminates)
    additionalProperties ->
  within (match properties with
          | Some ps => flat_map (fun kv => schema_refs (snd kv)) ps
          | None => []
          end) ->
  within (match additionalProperties with
          | Some (inr sch) => schema_refs sch
          | _ => []
          end) ->
  terminates bound (convertObject translate f properties additionalProperties result).
Proof.
  intros Hprops Hap Hin1 Hin2. unfold convertObject.
  destruct (is_literal "object" (s_type f)); [|apply terminates_ret].
  apply terminates_bind.
  - destruct Hprops as [ps Hps|]; [|apply terminates_ret].
    apply terminates_bind; [now apply terminates_convert_properties|].
    intros props. apply terminates_ret.
  - intros r. destruct Hap as [ap Hap|]; [|apply terminates_ret].
    destruct Hap as [b _|sch Hsch].
    + destruct b; apply terminates_ret.
    + apply terminates_bind; [now apply Hsch|].
      intros v. apply terminates_ret.
Qed.

Lemma terminates_convertArray (f : schemaFields) (items : option schema) (result : jschema) :
  option_all schema partTerminates items ->
  within (match items with Some it => schema_refs it | None => [] end) ->
  terminates bound (convertArray translate f items result).
Proof.
  intros Hitems Hin. unfold convertArray.
  destruct (is_literal "array" (s_type f)); [|apply terminates_ret].
  destruct Hitems as [it Hit|]; [|apply terminates_ret].
  apply terminates_bind; [now apply Hit|].
  intros v. apply terminates_ret.
Qed.
End Loops.

(** The pointers written in the document are in [U]: whatever a pointer
    resolves to mentions pointers of [U] only. *)
Definition closedUnder (doc : document) : Prop :=
  forall (ref : string) (current : tree) (node : schema),
    walk (split "/" (replacePrefix "#/" "" ref)) (Reify.of_document doc) = Some current ->
    as_schema current = Some node ->
    within (schema_refs node).

Lemma terminates_convertRef (doc : document) (resolveRefs : bool)
    (fuel : nat) (ref : string) (description : option string) :
  closedUnder doc ->
  (forall s, within (schema_refs s) -> terminates fuel (convert doc resolveRefs fuel s)) ->
  ref ∈ U ->
  terminates (S fuel)
    (convertRef doc resolveRefs (Some (convert doc resolveRefs fuel)) ref description).
Proof.
  intros Hclosed IH HU st Hst. unfold convertRef.
  destruct (negb resolveRefs && startsWith "#/components/schemas/" ref).
  { exists (preservedRef ref description), st. split; [reflexivity | set_solver]. }
  destruct (lookupRef doc ref st) as [cached|st'|node st'] eqn:Hlook.
  - exists cached, st. split; [reflexivity | set_solver].
  - apply lookupRef_notResolved in Hlook as (_ & _ & Hsub).
    exists (unresolvedRef ref description), st'. split; [reflexivity | exact Hsub].
  - apply lookupRef_resolved in Hlook as (_ & Hnot & -> & current & Hwalk & Hnode).
    pose proof (pending_step st ref HU Hnot) as Hstep.
    destruct (IH node (Hclosed _ _ _ Hwalk Hnode)
                (TState (resolvedRefs st ∪ {[ref]}) (schemaCache st)))
      as (converted & st'' & Hrun & Hsub); [lia|].
    rewrite Hrun. exists converted, (cacheStore ref converted st'').
    split; [reflexivity|]. simpl in *. set_solver.
Qed.

Lemma convert_terminates (doc : document) (resolveRefs : bool) (fuel : nat) :
  closedUnder doc ->
  forall s, within (schema_refs s) -> terminates fuel (convert doc resolveRefs fuel s).
Proof.
  intros Hclosed. induction fuel as [|fuel IH].
  { intros s _ st Hst. lia. }
  intros s.
  induction s as [ref description
                 |f properties Hprops additionalProperties Hap items Hitems
                    oneOf HoneOf anyOf HanyOf allOf HallOf];
    intros Hin; rewrite convert_unfold; simpl.
  - apply terminates_convertRef; try assumption.
    simpl in Hin. now apply Forall_inv in Hin.
  - simpl in Hin.
    apply Forall_app in Hin as [Hin1 Hin].
    apply Forall_app in Hin as [Hin2 Hin].
    apply Forall_app in Hin as [Hin3 Hin].
    apply Forall_app in Hin as [Hin4 Hin].
    apply Forall_app in Hin as [Hin5 Hin6].
    unfold convertInline.
    apply terminates_bind; [now apply terminates_convertObject|]. intros r1.
    apply terminates_bind; [now apply terminates_convertArray|]. intros r2.
    apply terminates_bind; [now apply terminates_convertComposition|]. intros r3.
    apply terminates_bind; [now apply terminates_convertComposition|]. intros r4.
    now apply terminates_convertComposition.
Qed.

End Termination.

(** *** The fuel of [fuelFor] suffices *)

Lemma get_In {V : Type} (k : string) (o : list (string * V)) (v : V) :
  get k o = Some v -> In (k, v) o.
Proof.
  induction o as [|[k' v'] o IH]; simpl; [discriminate|].
  destruct (String.eqb_spec k k') as [->|Hne].
  - intros [= ->]. now left.
  - intros H. right. now apply IH.
Qed.

Lemma child_refs (t next : tree) (part r : string) :
  get part (tree_children t) = Some next -> In r (tree_refs next) -> In r (tree_refs t).
Proof.
  destruct t as [value children]. simpl. intros Hget Hr.
  apply in_or_app. right. apply in_flat_map.
  exists (part, next). split; [now apply get_In | exact Hr].
Qed.

Lemma walk_refs (parts : list string) (t t' : tree) (r : string) :
  walk parts t = Some t' -> In r (tree_refs t') -> In r (tree_refs t).
Proof.
  revert t. induction parts as [|part parts IH]; intros t; simpl.
  - now intros [= ->].
  - destruct (get part (tree_children t)) as [next|] eqn:Hget; [|discriminate].
    intros Hwalk Hr. eapply child_refs; [exact Hget|]. now apply IH.
Qed.

Lemma as_schema_refs (t : tree) (s : schema) (r : string) :
  as_schema t = Some s -> In r (schema_refs s) -> In r (tree_refs t).
Proof.
  destruct t as [[[s'| | |]|] children]; simpl; try discriminate.
  intros [= ->] Hr. apply in_or_app. now left.
Qed.

(** The pointers written in a schema and in the document. *)
Definition universe (doc : document) (s : schema) : gset string :=
  list_to_set (schema_refs s ++ document_refs doc).

Lemma universe_closed (doc : document) (s : schema) : closedUnder (universe doc s) doc.
Proof.
  intros ref current node Hwalk Hnode.
  apply Forall_forall. intros r Hr. apply list_elem_of_In in Hr.
  apply elem_of_list_to_set, list_elem_of_In, in_or_app. right.
  eapply walk_refs; [exact Hwalk|]. exact (as_schema_refs _ _ _ Hnode Hr).
Qed.

Lemma universe_within (doc : document) (s : schema) :
  within (universe doc s) (schema_refs s).
Proof.
  apply Forall_forall. intros r Hr. apply list_elem_of_In in Hr.
  apply elem_of_list_to_set, list_elem_of_In, in_or_app. now left.
Qed.

Lemma size_list_to_set_le (l : list string) :
  size (list_to_set l : gset string) <= length l.
Proof.
  induction l as [|x l IH].
  - rewrite list_to_set_nil, size_empty. simpl. lia.
  - rewrite list_to_set_cons, size_union_alt, size_singleton.
    pose proof (subseteq_size (list_to_set l ∖ {[x]}) (list_to_set l : gset string)
                  ltac:(set_solver)).
    simpl. lia.
Qed.

(** The translator returns whenever it is given the fuel of [fuelFor], or
    more; it only adds to the [Set]. *)
Lemma convert_total (doc : document) (resolveRefs : bool) (s : schema) (st : tstate)
    (fuel : nat) :
  fuelFor doc s <= fuel ->
  exists result st',
    convert doc resolveRefs fuel s st = Some (result, st')
    /\ resolvedRefs st ⊆ resolvedRefs st'.
Proof.
  intros Hfuel.
  apply (convert_terminates (universe doc s) doc resolveRefs fuel
           (universe_closed doc s) s (universe_within doc s) st).
  unfold pending, fuelFor in *.
  pose proof (subseteq_size (universe doc s ∖ resolvedRefs st) (universe doc s)
                ltac:(set_solver)).
  pose proof (size_list_to_set_le (schema_refs s ++ document_refs doc)).
  unfold universe in *. lia.
Qed.

(** What the source-level call returns is what the fuelled translator
    returns. *)
Lemma convertOpenApiSchemaToJsonSchema_run (doc : document) (s : schema)
    (resolved : gset string) (resolveRefs : bool) (cache : gmap string jschema) :
  convert doc resolveRefs (fuelFor doc s) s (TState resolved cache)
  = Some (convertOpenApiSchemaToJsonSchema doc s resolved resolveRefs cache).
Proof.
  unfold convertOpenApiSchemaToJsonSchema.
  destruct (convert_total doc resolveRefs s (TState resolved cache) (fuelFor doc s)
              ltac:(lia)) as (result & st' & Hrun & _).
  now rewrite Hrun.
Qed.

(** *** More fuel changes nothing *)

Definition extends {A : Type} (m m' : M A) : Prop :=
  forall st out, m st = Some out -> m' st = Some out.

Lemma extends_refl {A : Type} (m : M A) : extends m m.
Proof. intros st out H. exact H. Qed.

Lemma extends_bind {A B : Type} (m m' : M A) (k k' : A -> M B) :
  extends m m' -> (forall a, extends (k a) (k' a)) -> extends (bind m k) (bind m' k').
Proof.
  intros Hm Hk st [b st'] Hrun.
  apply bind_Some in Hrun as (a & st1 & Hrun1 & Hrun2).
  apply bind_Some. exists a, st1. split; [now apply Hm | now apply Hk].
Qed.

Section Extension.
Context (doc : document) (resolveRefs : bool).
Context (translate translate' : schema -> M jschema).

Definition partExtends (s : schema) : Prop := extends (translate s) (translate' s).

Lemma extends_convert_properties (ps : list (string * schema)) :
  list_all (string * schema) (prod_all string (fun _ => unit) schema partExtends) ps ->
  forall acc, extends (convert_properties translate ps acc)
                      (convert_properties translate' ps acc).
Proof.
  intros Hall. induction Hall as [|kv Hkv ps Hall IH]; intros acc; simpl.
  - apply extends_refl.
  - destruct Hkv as [k _ v Hv]. simpl.
    apply extends_bind; [exact Hv|]. intros a. apply IH.
Qed.

Lemma extends_convert_all (l : list schema) :
  list_all schema partExtends l ->
  extends (convert_all translate l) (convert_all translate' l).
Proof.
  intros Hall. induction Hall as [|s Hs l Hall IH]; simpl.
  - apply extends_refl.
  - apply extends_bind; [exact Hs|]. intros v.
    apply extends_bind; [exact IH|]. intros vs. apply extends_refl.
Qed.

Lemma extends_convertComposition (members : option (list schema))
    (set : list jschema -> jschema -> jschema) (result : jschema) :
  option_all (list schema) (list_all schema partExtends) members ->
  extends (convertComposition translate members set result)
          (convertComposition translate' members set result).
Proof.
  intros Hall. destruct Hall as [l Hl|]; simpl; [|apply extends_refl].
  apply extends_bind; [now apply extends_convert_all|].
  intros vs. apply extends_refl.
Qed.

Lemma extends_convertInline (f : schemaFields)
    (properties : option (list (string * schema)))
    (additionalProperties : option (bool + schema)) (items : option schema)
    (oneOf anyOf allOf : option (list schema)) :
  option_all (list (string * schema))
    (list_all (string * schema) (prod_all string (fun _ => unit) schema partExtends))
    properties ->
  option_all (bool + schema) (sum_all bool (fun _ => unit) schema partExtends)
    additionalProperties ->
  option_all schema partExtends items ->
  option_all (list schema) (list_all schema partExtends) oneOf ->
  option_all (list schema) (list_all schema partExtends) anyOf ->
  option_all (list schema) (list_all schema partExtends) allOf ->
  extends (convertInline translate f properties additionalProperties items oneOf anyOf allOf)
          (convertInline translate' f properties additionalProperties items oneOf anyOf allOf).
Proof.
  intros Hprops Hap Hitems HoneOf HanyOf HallOf. unfold convertInline.
  apply extends_bind.
  { unfold convertObject.
    destruct (is_literal "object" (s_type f)); [|apply extends_refl].
    apply extends_bind.
    - destruct Hprops as [ps Hps|]; [|apply extends_refl].
      apply extends_bind; [now apply extends_convert_properties|].
      intros props. apply extends_refl.
    - intros r. destruct Hap as [ap Hap|]; [|apply extends_refl].
      destruct Hap as [b _|sch Hsch].
      + destruct b; apply extends_refl.
      + apply extends_bind; [exact Hsch|]. intros v. apply extends_refl. }
  intros r1. apply extends_bind.
  { unfold convertArray.
    destruct (is_literal "array" (s_type f)); [|apply extends_refl].
    destruct Hitems as [it Hit|]; [|apply extends_refl].
    apply extends_bind; [exact Hit|]. intros v. apply extends_refl. }
  intros r2. apply extends_bind; [now apply extends_convertComposition|].
  intros r3. apply extends_bind; [now apply extends_convertComposition|].
  intros r4. now apply extends_convertComposition.
Qed.
End Extension.

Lemma extends_convertRef (doc : document) (resolveRefs : bool)
    (next next' : option (schema -> M jschema)) (ref : string) (description : option string) :
  (forall recur, next = Some recur ->
     exists recur', next' = Some recur' /\ forall node, extends (recur node) (recur' node)) ->
  extends (convertRef doc resolveRefs next ref description)
          (convertRef doc resolveRefs next' ref description).
Proof.
  intros Hnext st out. unfold convertRef.
  destruct (negb resolveRefs && startsWith "#/components/schemas/" ref); [easy|].
  destruct (lookupRef doc ref st) as [cached|st'|node st']; [easy | easy |].
  destruct next as [recur|]; [|discriminate].
  destruct (Hnext recur eq_refl) as (recur' & -> & Hrec).
  destruct (recur node st') as [[converted st'']|] eqn:Hrun; [|discriminate].
  now rewrite (Hrec node st' _ Hrun).
Qed.

Lemma convert_mono (doc : document) (resolveRefs : bool) (fuel fuel' : nat) :
  fuel <= fuel' ->
  forall s, extends (convert doc resolveRefs fuel s) (convert doc resolveRefs fuel' s).
Proof.
  revert fuel'. induction fuel as [|fuel IH]; intros fuel' Hle s.
  - induction s as [ref description
                   |f properties Hprops additionalProperties Hap items Hitems
                      oneOf HoneOf anyOf HanyOf allOf HallOf];
      rewrite (convert_unfold doc resolveRefs 0), (convert_unfold doc resolveRefs fuel'); simpl.
    + apply extends_convertRef. intros recur [=].
    + now apply extends_convertInline.
  - destruct fuel' as [|fuel']; [lia|].
    induction s as [ref description
                   |f properties Hprops additionalProperties Hap items Hitems
                      oneOf HoneOf anyOf HanyOf allOf HallOf];
      rewrite (convert_unfold doc resolveRefs (S fuel)),
              (convert_unfold doc resolveRefs (S fuel')); simpl.
    + apply extends_convertRef. intros recur [= <-].
      exists (convert doc resolveRefs fuel'). split; [reflexivity|].
      intros node. apply IH. lia.
    + now apply extends_convertInline.
Qed.

(** The translation of a schema is the same for every fuel from
    [fuelFor] on. *)
Lemma convert_enough_fuel (doc : document) (s : schema) (resolved : gset string)
    (resolveRefs : bool) (cache : gmap string jschema) (fuel : nat) :
  fuelFor doc s <= fuel ->
  convert doc resolveRefs fuel s (TState resolved cache)
  = Some (convertOpenApiSchemaToJsonSchema doc s resolved resolveRefs cache).
Proof.
  intros Hfuel.
  apply (convert_mono doc resolveRefs (fuelFor doc s) fuel Hfuel s).
  apply convertOpenApiSchemaToJsonSchema_run.
Qed.

End TranslatorFacts.

(** ** References and the cache *)

Module ReferenceFacts.

Import Converter TranslatorFacts.

(** The test that sends a reference to the cache and the resolver: inline
    resolution was asked for, or the pointer is no component pointer. *)
Definition goesInline (resolveRefs : bool) (ref : string) : bool :=
  negb (negb resolveRefs && startsWith "#/components/schemas/" ref).

Lemma convert_ref_preserved (doc : document) (fuel : nat) (ref : string)
    (description : option string) (st : tstate) :
  startsWith "#/components/schemas/" ref = true ->
  convert doc false fuel (SRef ref description) st = Some (preservedRef ref description, st).
Proof.
  intros Hpre. rewrite convert_unfold. simpl. unfold convertRef. simpl.
  now rewrite Hpre.
Qed.

Lemma convert_ref_hit (doc : document) (resolveRefs : bool) (fuel : nat) (ref : string)
    (description : option string) (st : tstate) (cached : jschema) :
  goesInline resolveRefs ref = true ->
  schemaCache st !! ref = Some cached ->
  convert doc resolveRefs fuel (SRef ref description) st = Some (cached, st).
Proof.
  unfold goesInline. intros Hin Hhit. rewrite convert_unfold. simpl. unfold convertRef.
  apply negb_true_iff in Hin. rewrite Hin.
  now rewrite (proj2 (lookupRef_hit doc ref st cached) Hhit).
Qed.

Lemma convert_ref_notResolved (doc : document) (resolveRefs : bool) (fuel : nat)
    (ref : string) (description : option string) (st st' : tstate) :
  goesInline resolveRefs ref = true ->
  lookupRef doc ref st = NotResolved st' ->
  convert doc resolveRefs fuel (SRef ref description) st
  = Some (unresolvedRef ref description, st').
Proof.
  unfold goesInline. intros Hin Hlook. rewrite convert_unfold. simpl. unfold convertRef.
  apply negb_true_iff in Hin. now rewrite Hin, Hlook.
Qed.

Lemma convert_ref_resolved (doc : document) (resolveRefs : bool) (fuel : nat)
    (ref : string) (description : option string) (st st' : tstate) (node : schema) :
  goesInline resolveRefs ref = true ->
  lookupRef doc ref st = Resolved node st' ->
  convert doc resolveRefs (S fuel) (SRef ref description) st
  = match convert doc resolveRefs fuel node st' with
    | Some (converted, st'') => Some (converted, cacheStore ref converted st'')
    | None => None
    end.
Proof.
  unfold goesInline. intros Hin Hlook. rewrite convert_unfold. simpl. unfold convertRef.
  apply negb_true_iff in Hin. now rewrite Hin, Hlook.
Qed.

(** A pointer that is in the [Set] and not in the cache is not resolved
    again. *)
Lemma lookupRef_in_progress (doc : document) (ref : string) (st : tstate) :
  schemaCache st !! ref = None -> ref ∈ resolvedRefs st ->
  lookupRef doc ref st = NotResolved st.
Proof.
  intros Hmiss Hin. unfold lookupRef, internalResolveRef. rewrite Hmiss.
  destruct (startsWith "#/" ref); simpl.
  - rewrite bool_decide_eq_true_2 by assumption. now destruct st.
  - now destruct st.
Qed.





End ReferenceFacts.

Import TranslatorFacts ReferenceFacts.


(** A component schema named [Pet], and a cache that holds a translation
    of its pointer. *)
Definition petDocument : document :=
  Document "Test API" None
    (Some (Components
             (Some [("Pet", SInline (SchemaFields (Some "object") None None None None None None)
                              (Some [("name", SInline (SchemaFields (Some "string") None None
                                                         None None None None)
                                                None None None None None None)])
                              None None None None None)])
             None None None)).

Definition petPointer : string := "#/components/schemas/Pet".

Definition petCache : gmap string jschema :=
  {[ petPointer := set_description "cached at the first site" typeString ]}.


(** ** Inline schemas *)

Module InlineFacts.

Import Converter TranslatorFacts.

Lemma ret_Some {A : Type} (a b : A) (st st' : tstate) :
  ret a st = Some (b, st') <-> a = b /\ st = st'.
Proof. unfold ret. split; [now intros [= -> ->] | now intros [-> ->]]. Qed.

Section Preserved.
Context {X : Type} (proj : jschema -> X).
Context (translate : schema -> M jschema).

Lemma convertObject_preserves (f : schemaFields)
    (properties : option (list (string * schema)))
    (additionalProperties : option (bool + schema)) (result r : jschema) (st st' : tstate) :
  convertObject translate f properties additionalProperties result st = Some (r, st') ->
  (forall v j, proj (set_type v j) = proj j) ->
  (forall v j, proj (set_properties v j) = proj j) ->
  (forall v j, proj (set_required v j) = proj j) ->
  (forall v j, proj (set_additionalProperties v j) = proj j) ->
  proj r = proj result.
Proof.
  intros H Htype Hprops Hreq Hap. unfold convertObject in H.
  destruct (is_literal "object" (s_type f)).
  2: { apply ret_Some in H as [<- _]. reflexivity. }
  apply bind_Some in H as (r1 & st1 & Hstep1 & Hstep2).
  assert (proj r1 = proj result) as H1.
  { destruct properties as [ps|].
    - apply bind_Some in Hstep1 as (props & st0 & _ & Hret).
      apply ret_Some in Hret as [<- _]. now rewrite Hprops, Htype.
    - apply ret_Some in Hstep1 as [<- _]. now rewrite Htype. }
  assert (proj (match s_required f with
                | Some req => set_required req r1
                | None => r1
                end) = proj result) as H2.
  { destruct (s_required f); [now rewrite Hreq | exact H1]. }
  destruct additionalProperties as [[[|]|sch]|].
  - apply ret_Some in Hstep2 as [<- _]. now rewrite Hap.
  - apply ret_Some in Hstep2 as [<- _]. now rewrite Hap.
  - apply bind_Some in Hstep2 as (v & st0 & _ & Hret).
    apply ret_Some in Hret as [<- _]. now rewrite Hap.
  - apply ret_Some in Hstep2 as [<- _]. now rewrite Hap.
Qed.

Lemma convertArray_preserves (f : schemaFields) (items : option schema)
    (result r : jschema) (st st' : tstate) :
  convertArray translate f items result st = Some (r, st') ->
  (forall v j, proj (set_type v j) = proj j) ->
  (forall v j, proj (set_items v j) = proj j) ->
  proj r = proj result.
Proof.
  intros H Htype Hitems. unfold convertArray in H.
  destruct (is_literal "array" (s_type f)).
  2: { apply ret_Some in H as [<- _]. reflexivity. }
  destruct items as [it|].
  - apply bind_Some in H as (v & st0 & _ & Hret).
    apply ret_Some in Hret as [<- _]. now rewrite Hitems, Htype.
  - apply ret_Some in H as [<- _]. reflexivity.
Qed.

Lemma convertComposition_preserves (members : option (list schema))
    (set : list jschema -> jschema -> jschema) (result r : jschema) (st st' : tstate) :
  convertComposition translate members set result st = Some (r, st') ->
  (forall vs j, proj (set vs j) = proj j) ->
  proj r = proj result.
Proof.
  intros H Hset. unfold convertComposition in H. destruct members as [l|].
  - apply bind_Some in H as (vs & st0 & _ & Hret).
    apply ret_Some in Hret as [<- _]. now rewrite Hset.
  - apply ret_Some in H as [<- _]. reflexivity.
Qed.

(** A field that none of the structural assignments touches is the one
    the scalar part gave. *)
Lemma convertInline_preserves (f : schemaFields)
    (properties : option (list (string * schema)))
    (additionalProperties : option (bool + schema)) (items : option schema)
    (oneOf anyOf allOf : option (list schema)) (r : jschema) (st st' : tstate) :
  convertInline translate f properties additionalProperties items oneOf anyOf allOf st
  = Some (r, st') ->
  (forall v j, proj (set_type v j) = proj j) ->
  (forall v j, proj (set_properties v j) = proj j) ->
  (forall v j, proj (set_required v j) = proj j) ->
  (forall v j, proj (set_additionalProperties v j) = proj j) ->
  (forall v j, proj (set_items v j) = proj j) ->
  (forall v j, proj (set_oneOf v j) = proj j) ->
  (forall v j, proj (set_anyOf v j) = proj j) ->
  (forall v j, proj (set_allOf v j) = proj j) ->
  proj r = proj (convert_fields f).
Proof.
  intros H Htype Hprops Hreq Hap Hitems HoneOf HanyOf HallOf. unfold convertInline in H.
  apply bind_Some in H as (r1 & st1 & H1 & H).
  apply bind_Some in H as (r2 & st2 & H2 & H).
  apply bind_Some in H as (r3 & st3 & H3 & H).
  apply bind_Some in H as (r4 & st4 & H4 & H5).
  rewrite (convertComposition_preserves _ _ _ _ _ _ H5 HallOf).
  rewrite (convertComposition_preserves _ _ _ _ _ _ H4 HanyOf).
  rewrite (convertComposition_preserves _ _ _ _ _ _ H3 HoneOf).
  rewrite (convertArray_preserves _ _ _ _ _ _ H2 Htype Hitems).
  exact (convertObject_preserves _ _ _ _ _ _ _ H1 Htype Hprops Hreq Hap).
Qed.
End Preserved.

(** [format] and [description] of an inline schema are decided by its
    scalar part. *)
Lemma convert_inline_annotations (doc : document) (resolveRefs : bool) (fuel : nat)
    (f : schemaFields) (properties : option (list (string * schema)))
    (additionalProperties : option (bool + schema)) (items : option schema)
    (oneOf anyOf allOf : option (list schema)) (st st' : tstate) (r : jschema) :
  convert doc resolveRefs fuel
    (SInline f properties additionalProperties items oneOf anyOf allOf) st = Some (r, st') ->
  js_format r = js_format (convert_fields f)
  /\ js_description r = js_description (convert_fields f).
Proof.
  rewrite convert_unfold. simpl. intros H. split.
  - apply (convertInline_preserves js_format) in H; [exact H | reflexivity ..].
  - apply (convertInline_preserves js_description) in H; [exact H | reflexivity ..].
Qed.

(** The items of a translated array schema are the translation of its
    items. *)
Lemma convert_array_items (doc : document) (resolveRefs : bool) (fuel : nat)
    (f : schemaFields) (properties : option (list (string * schema)))
    (additionalProperties : option (bool + schema)) (it : schema)
    (oneOf anyOf allOf : option (list schema)) (st st' : tstate) (r : jschema) :
  s_type f = Some "array" ->
  convert doc resolveRefs fuel
    (SInline f properties additionalProperties (Some it) oneOf anyOf allOf) st
  = Some (r, st') ->
  exists v st1 st2,
    convert doc resolveRefs fuel it st1 = Some (v, st2) /\ js_items r = Some v.
Proof.
  intros Htype. rewrite convert_unfold. simpl. unfold convertInline. intros H.
  apply bind_Some in H as (r1 & st1 & H1 & H).
  apply bind_Some in H as (r2 & st2 & H2 & H).
  apply bind_Some in H as (r3 & st3 & H3 & H).
  apply bind_Some in H as (r4 & st4 & H4 & H5).
  apply (convertComposition_preserves js_items) in H5; [|reflexivity].
  apply (convertComposition_preserves js_items) in H4; [|reflexivity].
  apply (convertComposition_preserves js_items) in H3; [|reflexivity].
  rewrite H5, H4, H3.
  unfold convertArray, is_literal in H2. rewrite Htype in H2. simpl in H2.
  apply bind_Some in H2 as (v & st0 & Hv & Hret).
  apply ret_Some in Hret as [<- _].
  exists v, st1, st0. split; [exact Hv | reflexivity].
Qed.

Definition binarySuffix : string := " (absolute paths to local files)".

Lemma convert_fields_binary (f : schemaFields) :
  s_format f = Some "binary" ->
  js_format (convert_fields f) = Some "uri-reference"
  /\ forall d, s_description f = Some d -> truthy d = true ->
       js_description (convert_fields f) = Some (d ++ binarySuffix)%string.
Proof.
  intros Hfmt. unfold convert_fields, is_literal. rewrite Hfmt. simpl.
  split.
  - destruct (s_enum f), (s_const f), (s_default f); reflexivity.
  - intros d Hd Ht. rewrite Hd, Ht.
    destruct (s_enum f), (s_const f), (s_default f); reflexivity.
Qed.

End InlineFacts.

Import InlineFacts.

(** ** Cycles *)

(** A component schema with a property that refers to the schema itself. *)
Definition nodePointer : string := "#/components/schemas/Node".

Definition nodeSchema : schema :=
  SInline (SchemaFields (Some "object") None None None None None None)
    (Some [("next", SRef nodePointer None)])
    None None None None None.

Definition selfDocument : document :=
  Document "Test API" None
    (Some (Components (Some [("Node", nodeSchema)]) None None None)).

(** C4 as the specification states it: when the translator descends into
    the node a pointer resolves to, the cache already has an entry for the
    pointer. *)
Definition cachedBeforeDescent (doc : document) : Prop :=
  forall (ref : string) (st st' : tstate) (node : schema),
    lookupRef doc ref st = Resolved node st' -> is_Some (schemaCache st' !! ref).

(** C4, counterexample: the translator descends into [Node] with an empty
    cache.  The pointer met again inside is not found in the cache; it is
    refused by the resolver, because it is in the [Set], and is translated
    to the local pointer with an empty description.  The cache entry is
    written afterwards. *)
Lemma C4_counterexample :
  ~ cachedBeforeDescent selfDocument
  /\ lookupRef selfDocument nodePointer (TState ∅ ∅)
     = Resolved nodeSchema (TState {[nodePointer]} ∅)
  /\ fst (convertOpenApiSchemaToJsonSchema selfDocument (SRef nodePointer None) ∅ true ∅)
     = set_additionalProperties (inl true)
         (set_properties [("next", unresolvedRef nodePointer None)]
            (set_type "object" empty_schema))
  /\ unresolvedRef nodePointer None
     = set_description "" (set_ref "#/$defs/Node" empty_schema).
Proof.
  assert (Hlook : lookupRef selfDocument nodePointer (TState ∅ ∅)
                  = Resolved nodeSchema (TState {[nodePointer]} ∅)).
  { unfold lookupRef. cbn [schemaCache resolvedRefs]. rewrite lookup_empty.
    replace (internalResolveRef selfDocument nodePointer ∅)
      with (Some (Reify.of_schema nodeSchema), (∅ : gset string) ∪ {[nodePointer]}).
    - reflexivity.
    - unfold internalResolveRef.
      rewrite bool_decide_eq_false_2 by set_solver. reflexivity. }
  split; [|split; [exact Hlook | split; [|reflexivity]]].
  - intros H. destruct (H _ _ _ _ Hlook) as [cached Hcached].
    simpl in Hcached. now rewrite lookup_empty in Hcached.
  - vm_compute. reflexivity.
Qed.

(** C4 (amended): when the pointers written in the schema and in the
    document lead to schemas of the document or nowhere ([typedRefs]),
    translation terminates, with the same result for every amount of fuel
    from [fuelFor] on.  The translator descends into the
    node a pointer resolves to with the cache as it was, the pointer
    missing from it, and with the pointer added to the [Set]; the cache
    entry is written when the translation of that node has returned.  A
    pointer met again meanwhile, in the [Set] and not in the cache (nor the
    name of a member the cache inherits), is not resolved: it becomes the
    local pointer of [unresolvedRef].  A pointer
    that has a cache entry is translated to the entry without any
    descent. *)
Theorem C4_translation_terminates (doc : document) (resolveRefs : bool) (s : schema)
    (resolved : gset string) (cache : gmap string jschema) (fuel : nat) :
  fuelFor doc s <= fuel ->
  (typedRefs doc s = true ->
   convert doc resolveRefs fuel s (TState resolved cache)
   = Some (convertOpenApiSchemaToJsonSchema doc s resolved resolveRefs cache))
  /\ (forall (ref : string) (st st' : tstate) (node : schema),
        lookupRef doc ref st = Resolved node st' ->
        schemaCache st !! ref = None
        /\ (ref ∉ resolvedRefs st)
        /\ st' = TState (resolvedRefs st ∪ {[ref]}) (schemaCache st))
  /\ (forall (ref : string) (description : option string) (st st' : tstate) (node : schema)
             (n : nat) (r : jschema) (st2 : tstate),
        goesInline resolveRefs ref = true ->
        lookupRef doc ref st = Resolved node st' ->
        convert doc resolveRefs n (SRef ref description) st = Some (r, st2) ->
        exists n' st1,
          n = S n'
          /\ convert doc resolveRefs n' node st' = Some (r, st1)
          /\ st2 = cacheStore ref r st1
          /\ schemaCache st2 !! ref = Some r)
  /\ (forall (ref : string) (description : option string) (st : tstate) (n : nat),
        goesInline resolveRefs ref = true -> inheritedName ref = false ->
        schemaCache st !! ref = None -> ref ∈ resolvedRefs st ->
        convert doc resolveRefs n (SRef ref description) st
        = Some (unresolvedRef ref description, st))
  /\ (forall (ref : string) (description : option string) (st : tstate) (n : nat)
             (cached : jschema),
        goesInline resolveRefs ref = true ->
        schemaCache st !! ref = Some cached ->
        convert doc resolveRefs n (SRef ref description) st = Some (cached, st)).
Proof.
  intros Hfuel. split; [|split; [|split; [|split]]].
  - intros _. now apply convert_enough_fuel.
  - intros ref st st' node Hlook.
    apply lookupRef_resolved in Hlook as (Hmiss & Hnot & Hst & _). auto.
  - intros ref description st st' node n r st2 Hin Hlook Hrun.
    destruct n as [|n'].
    { rewrite convert_unfold in Hrun. simpl in Hrun. unfold convertRef in Hrun.
      unfold goesInline in Hin. apply negb_true_iff in Hin.
      rewrite Hin, Hlook in Hrun. discriminate. }
    rewrite (convert_ref_resolved _ _ _ _ _ _ _ _ Hin Hlook) in Hrun.
    destruct (convert doc resolveRefs n' node st') as [[converted st1]|] eqn:Hnode;
      [|discriminate].
    injection Hrun as <- <-.
    exists n', st1. split; [reflexivity|]. split; [exact Hnode|]. split; [reflexivity|].
    simpl. apply lookup_insert_eq.
  - intros ref description st n Hin _ Hmiss Hprogress.
    apply convert_ref_notResolved; [exact Hin|].
    now apply lookupRef_in_progress.
  - intros ref description st n cached Hin Hhit.
    now apply convert_ref_hit.
Qed.

(** C4, witness: the self-referential schema. *)
Lemma C4_translation_terminates_witness :
  convert selfDocument true (fuelFor selfDocument (SRef nodePointer None))
    (SRef nodePointer None) (TState ∅ ∅)
  = Some (convertOpenApiSchemaToJsonSchema selfDocument (SRef nodePointer None) ∅ true ∅).
Proof.
  exact (proj1 (C4_translation_terminates selfDocument true (SRef nodePointer None) ∅ ∅
                  (fuelFor selfDocument (SRef nodePointer None)) (le_n _)) eq_refl).
Defined.

(** ** Argument recovery returns *)

Module TerminationFacts.

Import Proxy.

(** The length of the longest string among the values of a JSON value,
    at any depth. *)
Fixpoint longest (v : json) : nat :=
  match v with
  | JStr s => String.length s
  | JArr items => fold_right (fun item n => Nat.max (longest item) n) 0 items
  | JObj entries => fold_right (fun kv n => Nat.max (longest (snd kv)) n) 0 entries
  | _ => 0
  end.

(** What [JSON.parse] returns holds only strings shorter than the text it
    read: a string value takes its characters and two quotes of the
    text. *)
Definition shrinks (JSON_parse : string -> option json) : Prop :=
  forall s v, JSON_parse s = Some v -> longest v < String.length s.

Lemma longest_item (items : list json) (item : json) :
  In item items -> longest item <= longest (JArr items).
Proof.
  simpl. induction items as [|x items IH]; simpl; [intros []|].
  intros [->|Hin]; [lia|]. specialize (IH Hin). lia.
Qed.

Lemma longest_entry (entries : list (string * json)) (k : string) (v : json) :
  In (k, v) entries -> longest v <= longest (JObj entries).
Proof.
  simpl. induction entries as [|x entries IH]; simpl; [intros []|].
  intros [->|Hin]; [simpl; lia|]. specialize (IH Hin). lia.
Qed.

Section Step.
Context (JSON_parse : string -> option json) (bound : nat).
Context (recur : list (string * json) -> option (list (string * json))).
Hypothesis Hparse : shrinks JSON_parse.
Hypothesis Hrecur : forall p, longest (JObj p) < bound -> exists r, recur p = Some r.

Lemma recoverString_returns (s : string) :
  String.length s <= bound -> exists r, recoverString JSON_parse recur s = Some r.
Proof.
  intros Hlen. unfold recoverString.
  destruct (looksLikeJson s); [|eauto].
  destruct (JSON_parse s) as [[| | | |items|entries]|] eqn:Hp; eauto.
  destruct (Hrecur entries) as (r & ->); [|eauto].
  pose proof (Hparse s _ Hp). lia.
Qed.

Lemma recoverItems_returns (items : list json) :
  longest (JArr items) <= bound -> exists r, recoverItems JSON_parse recur items = Some r.
Proof.
  induction items as [|item items IH]; intros Hlen; simpl in *; [eauto|].
  destruct IH as (vs & ->); [lia|].
  destruct item as [| | |s| |]; simpl; eauto.
  destruct (recoverString_returns s) as ([v|] & ->); [simpl in Hlen; lia | eauto | eauto].
Qed.

Lemma recoverEntries_returns (entries acc : list (string * json)) :
  longest (JObj entries) <= bound ->
  exists r, recoverEntries JSON_parse recur entries acc = Some r.
Proof.
  revert acc. induction entries as [|[k v] entries IH]; intros acc Hlen; simpl in *; [eauto|].
  assert (exists acc', recoverEntry JSON_parse recur acc (k, v) = Some acc') as (acc' & ->).
  { unfold recoverEntry. simpl. destruct v as [| | |s|items|]; eauto.
    - destruct (recoverString_returns s) as ([v|] & ->); [simpl in Hlen; lia | eauto | eauto].
    - destruct (recoverItems_returns items) as (vs & ->); [simpl in *; lia | eauto]. }
  apply IH. lia.
Qed.
End Step.

Lemma deserializeParams_returns (JSON_parse : string -> option json) :
  shrinks JSON_parse ->
  forall fuel params, longest (JObj params) < fuel ->
    exists result, deserializeParams JSON_parse fuel params = Some result.
Proof.
  intros Hparse. induction fuel as [|fuel IH]; intros params Hlen; [lia|].
  simpl. apply (recoverEntries_returns JSON_parse fuel _ Hparse IH). lia.
Qed.

(** *** More rounds change nothing *)

Section Mono.
Context (JSON_parse : string -> option json).
Context (recur recur' : list (string * json) -> option (list (string * json))).
Hypothesis Hrecur : forall p r, recur p = Some r -> recur' p = Some r.

Lemma recoverString_mono (s : string) (r : option json) :
  recoverString JSON_parse recur s = Some r -> recoverString JSON_parse recur' s = Some r.
Proof.
  unfold recoverString. destruct (looksLikeJson s); [|auto].
  destruct (JSON_parse s) as [[| | | |items|entries]|]; auto.
  destruct (recur entries) as [p|] eqn:Hp; [|discriminate].
  now rewrite (Hrecur _ _ Hp).
Qed.

Lemma recoverItems_mono (items r : list json) :
  recoverItems JSON_parse recur items = Some r ->
  recoverItems JSON_parse recur' items = Some r.
Proof.
  revert r. induction items as [|item items IH]; intros r; simpl; [auto|].
  assert (forall v, recoverItem JSON_parse recur item = Some v ->
                    recoverItem JSON_parse recur' item = Some v) as Hitem.
  { intros v. unfold recoverItem. destruct item as [| | |s| |]; auto.
    destruct (recoverString JSON_parse recur s) as [x|] eqn:Hs; [|discriminate].
    now rewrite (recoverString_mono s x Hs). }
  destruct (recoverItem JSON_parse recur item) as [v|]; [|discriminate].
  rewrite (Hitem v eq_refl).
  destruct (recoverItems JSON_parse recur items) as [vs|]; [|discriminate].
  now rewrite (IH vs eq_refl).
Qed.

Lemma recoverEntries_mono (entries acc r : list (string * json)) :
  recoverEntries JSON_parse recur entries acc = Some r ->
  recoverEntries JSON_parse recur' entries acc = Some r.
Proof.
  revert acc. induction entries as [|[k v] entries IH]; intros acc; simpl; [auto|].
  assert (forall acc', recoverEntry JSON_parse recur acc (k, v) = Some acc' ->
                       recoverEntry JSON_parse recur' acc (k, v) = Some acc') as Hentry.
  { intros acc'. unfold recoverEntry. simpl. destruct v as [| | |s|items|]; auto.
    - destruct (recoverString JSON_parse recur s) as [x|] eqn:Hs; [|discriminate].
      now rewrite (recoverString_mono s x Hs).
    - destruct (recoverItems JSON_parse recur items) as [vs|] eqn:Hi; [|discriminate].
      now rewrite (recoverItems_mono items vs Hi). }
  destruct (recoverEntry JSON_parse recur acc (k, v)) as [acc'|]; [|discriminate].
  rewrite (Hentry acc' eq_refl). apply IH.
Qed.
End Mono.

Lemma deserializeParams_mono (JSON_parse : string -> option json) (fuel fuel' : nat)
    (params result : list (string * json)) :
  fuel <= fuel' ->
  deserializeParams JSON_parse fuel params = Some result ->
  deserializeParams JSON_parse fuel' params = Some result.
Proof.
  revert fuel' params result. induction fuel as [|fuel IH]; intros fuel' params result Hle;
    [discriminate|].
  destruct fuel' as [|fuel']; [lia|]. simpl.
  apply recoverEntries_mono. intros p r. apply IH. lia.
Qed.

(** *** The reader of the examples shrinks *)

Import ExampleJson.

Lemma skip_le (s : string) : String.length (skip s) <= String.length s.
Proof.
  induction s as [|c s IH]; simpl; [lia|].
  destruct (isJsonSpace c); simpl; lia.
Qed.

Lemma readString_shrinks (s str after : string) :
  readString s = Some (str, after) ->
  String.length str + String.length after < String.length s.
Proof.
  assert (forall n s str after, String.length s <= n -> readString s = Some (str, after) ->
            String.length str + String.length after < String.length s) as Hgen;
    [|apply (Hgen (String.length s)); lia].
  clear. induction n as [|n IH]; intros [|c s] str after Hlen; simpl in *;
    try discriminate; try lia.
  destruct (Ascii.eqb c dquote).
  { intros [= <- <-]. simpl. lia. }
  destruct (Ascii.eqb c "\").
  { destruct s as [|e s]; [discriminate|].
    destruct (unescape e); [|discriminate].
    destruct (readString s) as [[str' after']|] eqn:Hrest; [|discriminate].
    intros [= <- <-]. simpl in *. pose proof (IH s str' after' ltac:(lia) Hrest). lia. }
  destruct (nat_of_ascii c <? 32)%nat; [discriminate|].
  destruct (readString s) as [[str' after']|] eqn:Hrest; [|discriminate].
  intros [= <- <-]. simpl. pose proof (IH s str' after' ltac:(lia) Hrest). lia.
Qed.

Lemma readDigits_le (s : string) (acc : Z) :
  String.length (snd (readDigits s acc)) <= String.length s.
Proof.
  revert acc. induction s as [|c s IH]; intros acc; simpl; [lia|].
  destruct (digit c); simpl; [|lia]. specialize (IH (10 * acc + z)%Z). lia.
Qed.

Lemma readNumber_shrinks (s after : string) (n : Z) :
  readNumber s = Some (n, after) -> String.length after < String.length s.
Proof.
  assert (forall t n after,
            match t with
            | String c rest =>
                match digit c with
                | Some 0%Z => Some (0%Z, rest)
                | Some d => Some (readDigits rest d)
                | None => None
                end
            | EmptyString => None
            end = Some (n, after) -> String.length after < String.length t) as Hbody.
  { intros [|c rest] m a; [discriminate|].
    destruct (digit c) as [[|d|d]|]; try discriminate.
    - intros [= _ <-]. simpl. lia.
    - intros [= H]. pose proof (readDigits_le rest (Z.pos d)) as Hle.
      rewrite H in Hle. simpl in *. lia.
    - intros [= H]. pose proof (readDigits_le rest (Z.neg d)) as Hle.
      rewrite H in Hle. simpl in *. lia. }
  unfold readNumber. destruct s as [|c rest]; [discriminate|].
  destruct (Ascii.eqb c "-").
  - match goal with
    | |- match ?b with _ => _ end = _ -> _ => destruct b as [[m a]|] eqn:Hb
    end; [|discriminate].
    intros [= _ <-]. apply Hbody in Hb. simpl. lia.
  - intros H. exact (Hbody (String c rest) n after H).
Qed.

Lemma length_substring_le (n m : nat) (s : string) : String.length (substring n m s) <= m.
Proof.
  revert n m. induction s as [|c s IH]; intros [|n] [|m]; simpl; try lia.
  - specialize (IH 0 m). lia.
  - apply (IH n 0).
  - apply (IH n (S m)).
Qed.

Lemma sliceFrom_shrinks (n : nat) (s : string) :
  0 < n -> 0 < String.length s -> String.length (sliceFrom n s) < String.length s.
Proof.
  intros Hn Hs. unfold sliceFrom.
  pose proof (length_substring_le n (String.length s - n) s). lia.
Qed.

Lemma in_replace {V : Type} (key k : string) (v x : V) (o : list (string * V)) :
  In (k, x) (JsObject.replace key v o) -> (k = key /\ x = v) \/ In (k, x) o.
Proof.
  induction o as [|[k' v'] o IH]; simpl; [tauto|].
  destruct (String.eqb_spec key k') as [->|_]; simpl.
  - intros [[= <- <-]|H]; auto.
  - intros [H|H]; auto. destruct (IH H); auto.
Qed.

Lemma in_define {V : Type} (key k : string) (v x : V) (o : list (string * V)) :
  In (k, x) (define key v o) -> (k = key /\ x = v) \/ In (k, x) o.
Proof.
  unfold define. destruct (get key o).
  - apply in_replace.
  - intros H. apply in_app_or in H as [H|[[= <- <-]|[]]]; auto.
Qed.

Lemma longest_array_bound (items : list json) (a b : nat) :
  a < b -> (forall x, In x items -> longest x + a < b) -> longest (JArr items) + a < b.
Proof.
  intros Hab. simpl. induction items as [|x items IH]; simpl; intros H; [exact Hab|].
  pose proof (H x (or_introl eq_refl)).
  assert (fold_right (fun item n => Nat.max (longest item) n) 0 items + a < b)
    by (apply IH; intros y Hy; apply H; now right).
  lia.
Qed.

Lemma longest_object_bound (entries : list (string * json)) (a b : nat) :
  a < b -> (forall k x, In (k, x) entries -> longest x + a < b) ->
  longest (JObj entries) + a < b.
Proof.
  intros Hab. simpl. induction entries as [|[k x] entries IH]; simpl; intros H; [exact Hab|].
  pose proof (H k x (or_introl eq_refl)).
  assert (fold_right (fun kv n => Nat.max (longest (snd kv)) n) 0 entries + a < b)
    by (apply IH; intros k' y Hy; apply (H k'); now right).
  lia.
Qed.

Section Sequences.
Context (rv : string -> option (json * string)).
Hypothesis Hrv : forall s v rest,
  rv s = Some (v, rest) -> longest v + String.length rest < String.length s.

Lemma readElements_shrinks (n : nat) (s : string) (acc l : list json) (rest : string) :
  readElements rv n s acc = Some (l, rest) ->
  String.length rest < String.length s
  /\ forall x, In x l -> In x acc \/ longest x + String.length rest < String.length s.
Proof.
  revert s acc. induction n as [|n IH]; intros s acc; simpl; [discriminate|].
  destruct (rv s) as [[v r1]|] eqn:Hv; [|discriminate].
  pose proof (Hrv _ _ _ Hv) as Hv1. pose proof (skip_le r1) as Hskip.
  destruct (skip r1) as [|c r2]; [discriminate|]. simpl in Hskip.
  destruct (Ascii.eqb c ",").
  - intros Hrun. destruct (IH _ _ Hrun) as [Hlen Hin]. split; [lia|].
    intros x Hx. destruct (Hin x Hx) as [Hacc|Hx'].
    + apply in_app_or in Hacc as [Hacc|[<-|[]]]; [now left|]. right. lia.
    + right. lia.
  - destruct (Ascii.eqb c "]"); [|discriminate].
    intros [= <- <-]. split; [lia|].
    intros x Hx. apply in_app_or in Hx as [Hx|[<-|[]]]; [now left|]. right. lia.
Qed.

Lemma readMembers_shrinks (n : nat) (s : string) (acc o : list (string * json))
    (rest : string) :
  readMembers rv n s acc = Some (o, rest) ->
  String.length rest < String.length s
  /\ forall k x, In (k, x) o ->
       In (k, x) acc \/ longest x + String.length rest < String.length s.
Proof.
  revert s acc. induction n as [|n IH]; intros s acc; simpl; [discriminate|].
  pose proof (skip_le s) as Hs.
  destruct (skip s) as [|q r]; [discriminate|]. simpl in Hs.
  destruct (Ascii.eqb q dquote); [|discriminate].
  destruct (readString r) as [[key r1]|] eqn:Hkey; [|discriminate].
  apply readString_shrinks in Hkey.
  pose proof (skip_le r1) as Hr1.
  destruct (skip r1) as [|colon r2]; [discriminate|]. simpl in Hr1.
  destruct (Ascii.eqb colon ":"); [|discriminate].
  destruct (rv r2) as [[v r3]|] eqn:Hv; [|discriminate].
  pose proof (Hrv _ _ _ Hv) as Hv1. pose proof (skip_le r3) as Hr3.
  destruct (skip r3) as [|c r4]; [discriminate|]. simpl in Hr3.
  destruct (Ascii.eqb c ",").
  - intros Hrun. destruct (IH _ _ Hrun) as [Hlen Hin]. split; [lia|].
    intros k x Hx. destruct (Hin k x Hx) as [Hacc|Hx'].
    + apply in_define in Hacc as [[-> ->]|Hacc]; [right; lia | now left].
    + right. lia.
  - destruct (Ascii.eqb c "}"); [|discriminate].
    intros [= <- <-]. split; [lia|].
    intros k x Hx. apply in_define in Hx as [[-> ->]|Hx]; [right; lia | now left].
Qed.
End Sequences.

Lemma readValue_shrinks (fuel : nat) (s : string) (v : json) (rest : string) :
  readValue fuel s = Some (v, rest) ->
  longest v + String.length rest < String.length s.
Proof.
  revert s v rest. induction fuel as [|fuel IH]; intros s v rest; [discriminate|].
  cbn [readValue]. pose proof (skip_le s) as Hs.
  destruct (skip s) as [|c r] eqn:Hskip; [discriminate|]. simpl in Hs.
  destruct (Ascii.eqb c "{").
  { pose proof (skip_le r) as Hr.
    destruct (skip r) as [|c' r']; [discriminate|]. simpl in Hr.
    destruct (Ascii.eqb c' "}"); [intros [= <- <-]; simpl; lia|].
    destruct (readMembers (readValue fuel) (String.length r) r []) as [[members after]|]
      eqn:Hm; [|discriminate].
    intros [= <- <-].
    destruct (readMembers_shrinks (readValue fuel) IH _ _ _ _ _ Hm) as [Hlen Hin].
    assert (longest (JObj members) + String.length after < String.length r);
      [|lia].
    apply longest_object_bound; [exact Hlen|].
    intros k x Hx. destruct (Hin k x Hx) as [[]|H]; exact H. }
  destruct (Ascii.eqb c "[").
  { pose proof (skip_le r) as Hr.
    destruct (skip r) as [|c' r']; [discriminate|]. simpl in Hr.
    destruct (Ascii.eqb c' "]"); [intros [= <- <-]; simpl; lia|].
    destruct (readElements (readValue fuel) (String.length r) r []) as [[elements after]|]
      eqn:He; [|discriminate].
    intros [= <- <-].
    destruct (readElements_shrinks (readValue fuel) IH _ _ _ _ _ He) as [Hlen Hin].
    assert (longest (JArr elements) + String.length after < String.length r);
      [|lia].
    apply longest_array_bound; [exact Hlen|].
    intros x Hx. destruct (Hin x Hx) as [[]|H]; exact H. }
  destruct (Ascii.eqb c dquote).
  { destruct (readString r) as [[str after]|] eqn:Hstr; [|discriminate].
    intros [= <- <-]. apply readString_shrinks in Hstr. simpl. lia. }
  assert (forall k, 0 < k ->
            String.length (sliceFrom k (String c r)) < String.length s) as Hslice.
  { intros k Hk. pose proof (sliceFrom_shrinks k (String c r) Hk ltac:(simpl; lia)).
    simpl in *. lia. }
  destruct (startsWith "true" (String c r)).
  { intros [= <- <-]. simpl longest. apply (Hslice 4). lia. }
  destruct (startsWith "false" (String c r)).
  { intros [= <- <-]. simpl longest. apply (Hslice 5). lia. }
  destruct (startsWith "null" (String c r)).
  { intros [= <- <-]. simpl longest. apply (Hslice 4). lia. }
  destruct (readNumber (String c r)) as [[n after]|] eqn:Hn; [|discriminate].
  destruct (isNumberTail after); [discriminate|].
  intros [= <- <-]. apply readNumber_shrinks in Hn. simpl in *. lia.
Qed.

Lemma parse_shrinks : shrinks parse.
Proof.
  intros s v. unfold parse.
  destruct (readValue (S (String.length s)) s) as [[v' rest]|] eqn:Hread; [|discriminate].
  destruct (skip rest); [|discriminate].
  intros [= <-]. apply readValue_shrinks in Hread. lia.
Qed.

End TerminationFacts.

(** ** Argument recovery *)

Module RecoveryFacts.

Import Proxy.

Lemma get_None_not_In {V : Type} (k : string) (o : list (string * V)) :
  get k o = None <-> ~ In k (keys o).
Proof.
  induction o as [|[k' v'] o IH]; simpl.
  - tauto.
  - destruct (String.eqb_spec k k') as [->|Hne].
    + split; [discriminate | intros H; exfalso; apply H; now left].
    + rewrite IH. split.
      * intros H [Heq|Hin]; [now subst | contradiction].
      * intros H Hin. apply H. now right.
Qed.

Lemma obj_set_fresh {V : Type} (k : string) (v : V) (o : list (string * V)) :
  k <> "__proto__" -> ~ In k (keys o) -> obj_set k v o = o ++ [(k, v)].
Proof.
  intros Hproto Hfresh. unfold obj_set.
  destruct (String.eqb_spec k "__proto__"); [contradiction|].
  now rewrite (proj2 (get_None_not_In k o) Hfresh).
Qed.

Section Plain.
Context (JSON_parse : string -> option json).





Context (recur : list (string * json) -> option (list (string * json))).




End Plain.



(** *** Recovery, entry by entry *)

Section Values.
Context (JSON_parse : string -> option json).
Context (recur : list (string * json) -> option (list (string * json))).

(** The value the loop body stores for a value of the arguments. *)
Definition recoverValue (v : json) : option json :=
  match v with
  | JStr s =>
      match recoverString JSON_parse recur s with
      | Some (Some v') => Some v'
      | Some None => Some v
      | None => None
      end
  | JArr items => option_map JArr (recoverItems JSON_parse recur items)
  | _ => Some v
  end.

Lemma recoverEntry_value (result : list (string * json)) (k : string) (v : json) :
  recoverEntry JSON_parse recur result (k, v)
  = option_map (fun v' => obj_set k v' result) (recoverValue v).
Proof.
  unfold recoverEntry, recoverValue. simpl.
  destruct v as [|b|n|s|items|entries]; try reflexivity.
  - destruct (recoverString JSON_parse recur s) as [[v'|]|]; reflexivity.
  - destruct (recoverItems JSON_parse recur items); reflexivity.
Qed.

Lemma NoDup_get {V : Type} (o : list (string * V)) (k : string) (v : V) :
  List.NoDup (keys o) -> In (k, v) o -> get k o = Some v.
Proof.
  induction o as [|[k' v'] o IH]; simpl; [intros _ []|].
  intros Hnd [[= -> ->]|Hin].
  - now rewrite String.eqb_refl.
  - apply NoDup_cons_iff in Hnd as [Hfresh Hnd].
    destruct (String.eqb_spec k k') as [->|_]; [|now apply IH].
    exfalso. apply Hfresh. apply in_map_iff. now exists (k', v).
Qed.

(** With pairwise different keys, none of them [__proto__], the loop
    appends one entry per entry of the arguments, under the same key. *)
Lemma recoverEntries_values (entries acc out : list (string * json)) :
  recoverEntries JSON_parse recur entries acc = Some out ->
  List.NoDup (keys acc ++ keys entries) -> ~ In "__proto__" (keys entries) ->
  exists entries',
    out = acc ++ entries'
    /\ keys entries' = keys entries
    /\ forall k v, In (k, v) entries ->
         exists v', recoverValue v = Some v' /\ In (k, v') entries'.
Proof.
  revert acc. induction entries as [|[k v] entries IH]; intros acc Hrun Hnd Hproto.
  - simpl in Hrun. injection Hrun as <-. exists []. rewrite app_nil_r.
    split; [reflexivity|]. split; [reflexivity|]. intros k v [].
  - simpl in Hrun. rewrite recoverEntry_value in Hrun.
    destruct (recoverValue v) as [v'|] eqn:Hv; [|discriminate].
    simpl in Hrun, Hnd, Hproto.
    rewrite obj_set_fresh in Hrun.
    + destruct (IH _ Hrun) as (entries' & -> & Hkeys & Hin).
      * unfold keys in *. rewrite map_app. simpl. now rewrite <- app_assoc.
      * tauto.
      * exists ((k, v') :: entries'). rewrite <- app_assoc. split; [reflexivity|].
        split; [simpl; now rewrite Hkeys|].
        intros k0 v0 [[= <- <-]|H0].
        -- exists v'. split; [exact Hv | now left].
        -- destruct (Hin _ _ H0) as (v0' & Hv0 & Hin0). exists v0'. split; [exact Hv0 | now right].
    + intros ->. apply Hproto. now left.
    + apply NoDup_remove_2 in Hnd. intros Hin. apply Hnd. apply in_or_app. now left.
Qed.
End Values.

(** What recovery returns, read entry by entry. *)
Lemma deserializeParams_values (JSON_parse : string -> option json) (fuel : nat)
    (params result : list (string * json)) :
  deserializeParams JSON_parse (S fuel) params = Some result ->
  List.NoDup (keys params) -> ~ In "__proto__" (keys params) ->
  keys result = keys params
  /\ forall k v, In (k, v) params ->
       exists v',
         recoverValue JSON_parse (deserializeParams JSON_parse fuel) v = Some v'
         /\ get k result = Some v'.
Proof.
  simpl. intros Hrun Hnd Hproto.
  destruct (recoverEntries_values JSON_parse _ params [] result Hrun Hnd Hproto)
    as (entries' & -> & Hkeys & Hin).
  simpl. split; [exact Hkeys|].
  intros k v Hkv. destruct (Hin k v Hkv) as (v' & Hv & Hin').
  exists v'. split; [exact Hv|]. apply NoDup_get; [now rewrite Hkeys | exact Hin'].
Qed.

End RecoveryFacts.

Import TerminationFacts RecoveryFacts.



(** The value of the repository's test of nested recovery: an object whose
    property [parent] is the text of another object. *)
Definition pageIdText : string :=
  ("{" ++ q "page_id" ++ ":" ++ q "parent-page-id" ++ "}")%string.

Definition nestedValue : json := JObj [("parent", JStr pageIdText)].




(** ** The call-tool handler *)

(** C7 as the specification states it: the object
    [{status: "error", ...errorPayload}]. *)
Definition spreadErrorBody (errorData : option json) : json :=
  JObj (enumerate (spread [("status", JStr "error")] (spreadEntries (selectPayload errorData)))).

(** A document with the one operation [getTest], as in the tests of the
    proxy. *)
Definition testDocument : document :=
  Document "Test API" (Some [("/test", Some [("get", FOperation (bareOperation "getTest"))])])
    None.

(** An HTTP client whose every call fails with an [HttpClientError] that
    carries the given data. *)
Definition failingClient (errorData : option json)
  : lookupEntry -> list (string * json) -> outcome httpResponse :=
  fun _ _ => Throws (HttpClientError errorData).

(** C7, counterexample: the error data is the text [Not Found].  The
    handler answers [{status: "error", data: "Not Found"}]; spreading the
    text into the object would give its characters under the keys [0] to
    [8]. *)
Lemma C7_counterexample :
  callTool ExampleJson.parse ExampleJson.stringify
    (failingClient (Some (JStr "Not Found"))) (newProxy testDocument) 1 "API-getTest"
    (Some [])
  = Some (Returns (textResult
            ("{" ++ q "status" ++ ":" ++ q "error" ++ "," ++ q "data" ++ ":"
             ++ q "Not Found" ++ "}")%string))
  /\ errorBody (Some (JStr "Not Found")) <> spreadErrorBody (Some (JStr "Not Found"))
  /\ ExampleJson.stringify (errorBody (Some (JStr "Not Found")))
     <> ExampleJson.stringify (spreadErrorBody (Some (JStr "Not Found"))).
Proof.
  split; [vm_compute; reflexivity|].
  split; vm_compute; discriminate.
Qed.

Definition isNullish (v : option json) : Prop := v = None \/ v = Some JNull.

(** *** The order of the serialized properties *)

Module OrderFacts.

Import DictFacts.

Lemma arrayIndex_toString (n : N) :
  (n < 4294967295)%N -> arrayIndex (toString n) = Some n.
Proof.
  intros Hn. unfold arrayIndex, toString.
  rewrite NilEmpty.usu, DecimalN.Unsigned.of_to, String.eqb_refl.
  now rewrite (proj2 (N.ltb_lt _ _) Hn).
Qed.

Lemma toString_inj (a b : N) : toString a = toString b -> a = b.
Proof.
  intros H. apply (f_equal decimalValue) in H.
  rewrite !decimalValue_toString in H. now injection H.
Qed.

Section Dict.
Context {V : Type}.

Lemma insertByIndex_front (n : N) (kv : string * V) (l : list (N * (string * V))) :
  Forall (fun p => (n < fst p)%N) l -> insertByIndex n kv l = (n, kv) :: l.
Proof.
  intros Hl. destruct l as [|[n' kv'] l]; [reflexivity|]. simpl.
  apply Forall_cons in Hl as [Hn _]. simpl in Hn.
  now rewrite (proj2 (N.ltb_lt _ _) Hn).
Qed.

(** A dictionary without array indices is enumerated in the order of
    creation. *)
Lemma enumerate_named (o : list (string * V)) :
  Forall (fun kv => arrayIndex (fst kv) = None) o -> enumerate o = o.
Proof.
  intros Ho. unfold enumerate.
  assert (indexed o = [] /\ named o = o) as [-> ->]; [|reflexivity].
  induction Ho as [|kv o Hkv Ho [IHi IHn]]; [now split|].
  unfold indexed, named in *. simpl. rewrite Hkv. split; [exact IHi | now rewrite IHn].
Qed.

Lemma Forall_define (P : string * V -> Prop) (k : string) (v : V) (o : list (string * V)) :
  P (k, v) -> Forall P o -> Forall P (define k v o).
Proof.
  intros Hv Ho. unfold define. destruct (get k o).
  - now apply Forall_replace.
  - apply Forall_app. split; [exact Ho | now constructor].
Qed.

Lemma Forall_spread (P : string * V -> Prop) (a b : list (string * V)) :
  Forall P a -> Forall P b -> Forall P (spread a b).
Proof.
  unfold spread. intros Ha Hb. revert a Ha.
  induction Hb as [|[k v] b Hkv Hb IH]; intros a Ha; simpl; [exact Ha|].
  apply IH. now apply Forall_define.
Qed.

(** Entries under new, pairwise different keys are appended. *)
Lemma spread_fresh (a b : list (string * V)) :
  List.NoDup (keys a ++ keys b) -> spread a b = a ++ b.
Proof.
  unfold spread. revert a. induction b as [|[k v] b IH]; intros a Hnd; simpl.
  - now rewrite app_nil_r.
  - simpl in Hnd. unfold define.
    assert (get k a = None) as ->.
    { apply RecoveryFacts.get_None_not_In. apply NoDup_remove_2 in Hnd.
      intros Hin. apply Hnd. apply in_or_app. now left. }
    rewrite IH.
    + now rewrite <- app_assoc.
    + unfold keys in *. rewrite map_app. simpl. now rewrite <- app_assoc.
Qed.

(** The entries of an array: its indices from [a] on. *)
Definition elements (a : nat) (items : list V) : list (string * V) :=
  combine (map (fun i => toString (N.of_nat i)) (seq a (length items))) items.

Lemma elements_cons (a : nat) (x : V) (items : list V) :
  elements a (x :: items) = (toString (N.of_nat a), x) :: elements (S a) items.
Proof. reflexivity. Qed.

Lemma keys_elements (a : nat) (items : list V) :
  keys (elements a items) = map (fun i => toString (N.of_nat i)) (seq a (length items)).
Proof.
  unfold keys, elements. revert a. induction items as [|x items IH]; intros a; simpl;
    [reflexivity|]. now rewrite IH.
Qed.

Lemma indexed_elements (a : nat) (items : list V) :
  (N.of_nat (a + length items) <= 4294967295)%N ->
  indexed (elements a items)
  = combine (map N.of_nat (seq a (length items))) (elements a items).
Proof.
  revert a. induction items as [|x items IH]; intros a Hlen; [reflexivity|].
  rewrite elements_cons. unfold indexed in *. cbn [fold_right fst length seq map combine].
  rewrite arrayIndex_toString by (simpl in Hlen; lia).
  rewrite IH by (simpl in Hlen; lia).
  apply insertByIndex_front. apply List.Forall_forall. intros [n kv] Hin. simpl.
  apply in_combine_l in Hin. apply in_map_iff in Hin as (i & <- & Hi).
  apply in_seq in Hi. lia.
Qed.

Lemma named_elements (a : nat) (items : list V) :
  (N.of_nat (a + length items) <= 4294967295)%N -> named (elements a items) = [].
Proof.
  revert a. induction items as [|x items IH]; intros a Hlen; [reflexivity|].
  rewrite elements_cons. unfold named in *. cbn [List.filter fst].
  rewrite arrayIndex_toString by (simpl in Hlen; lia).
  apply IH. simpl in Hlen. lia.
Qed.

Lemma length_elements (a : nat) (items : list V) :
  length (elements a items) = length items.
Proof.
  unfold elements. rewrite length_combine, length_map, length_seq. lia.
Qed.

Lemma map_snd_combine {A B : Type} (l1 : list A) (l2 : list B) :
  length l2 <= length l1 -> map snd (combine l1 l2) = l2.
Proof.
  revert l1. induction l2 as [|y l2 IH]; intros [|x l1] Hlen; simpl in *;
    try reflexivity; try lia.
  rewrite IH by lia. reflexivity.
Qed.

Lemma NoDup_elements (a : nat) (items : list V) : List.NoDup (keys (elements a items)).
Proof.
  rewrite keys_elements. apply Finite.Injective_map_NoDup; [|apply seq_NoDup].
  intros i j H. apply toString_inj in H. lia.
Qed.

(** [{k: v, ...array}] is enumerated with the elements of the array first. *)
Lemma enumerate_spread_elements (k : string) (v : V) (items : list V) :
  arrayIndex k = None ->
  (N.of_nat (length items) <= 4294967295)%N ->
  enumerate (spread [(k, v)] (elements 0 items)) = elements 0 items ++ [(k, v)].
Proof.
  intros Hk Hlen.
  assert (~ In k (keys (elements 0 items))) as Hfresh.
  { rewrite keys_elements. intros Hin. apply in_map_iff in Hin as (i & <- & Hi).
    apply in_seq in Hi. rewrite arrayIndex_toString in Hk by lia. discriminate. }
  rewrite spread_fresh.
  2: { simpl. constructor; [exact Hfresh | apply NoDup_elements]. }
  unfold enumerate, indexed, named. cbn [app fold_right List.filter fst]. rewrite Hk.
  fold (indexed (elements 0 items)). fold (named (elements 0 items)).
  rewrite indexed_elements, named_elements by (simpl; lia).
  f_equal. apply map_snd_combine.
  rewrite length_map, length_seq, length_elements. lia.
Qed.
End Dict.

End OrderFacts.

Import OrderFacts.

(** C7 (amended): let [JSON.parse] return only strings shorter than the
    text it reads.  When a known tool is called, the arguments are
    recovered, and when the HTTP execution then fails with an
    [HttpClientError], the handler returns one text item whose text is the
    serialization of [{status: "error"}] merged with the payload when the
    payload is an object or an array, and with [{data: payload}] when it is
    anything else.  The properties are serialized in the order of
    enumeration: the elements of an array payload before [status], the
    properties of an object payload without array indices after it.  The
    payload is [error.data.response.data] when that is neither [undefined]
    nor [null], else [error.data] under the same condition, else the empty
    object.  Any other failure is thrown on unchanged. *)
Theorem C7_error_envelope (JSON_parse : string -> option json)
    (JSON_stringify : json -> string)
    (executeOperation : lookupEntry -> list (string * json) -> outcome httpResponse)
    (self : proxy) (fuel : nat) (name : string) (params : option (list (string * json)))
    (operation : lookupEntry) :
  findOperation self name = Some operation ->
  shrinks JSON_parse ->
  (forall p, params = Some p -> longest (JObj p) < fuel) ->
  exists args,
    match params with
    | Some p => deserializeParams JSON_parse fuel p
    | None => Some []
    end = Some args
    /\ (forall errorData,
          executeOperation operation args = Throws (HttpClientError errorData) ->
          callTool JSON_parse JSON_stringify executeOperation self fuel name params
          = Some (Returns (CallResult
                    [ContentItem "text" (JSON_stringify (errorBody errorData))])))
    /\ (forall errorData,
          let payload := selectPayload errorData in
          let nested := optChain "data" (optChain "response" errorData) in
          match payload with
          | JObj entries =>
              errorBody errorData
              = JObj (enumerate (spread [("status", JStr "error")] entries))
              /\ (Forall (fun kv => arrayIndex (fst kv) = None) entries ->
                  errorBody errorData = JObj (spread [("status", JStr "error")] entries))
          | JArr items =>
              (N.of_nat (length items) <= 4294967295)%N ->
              errorBody errorData
              = JObj (combine (indices (length items)) items ++ [("status", JStr "error")])
          | JNull => False
          | other => errorBody errorData = JObj [("status", JStr "error"); ("data", other)]
          end
          /\ (forall v, nested = Some v -> v <> JNull -> payload = v)
          /\ (isNullish nested -> forall d, errorData = Some d -> d <> JNull -> payload = d)
          /\ (isNullish nested -> isNullish errorData -> payload = JObj []))
    /\ (forall e,
          executeOperation operation args = Throws e ->
          (forall errorData, e <> HttpClientError errorData) ->
          callTool JSON_parse JSON_stringify executeOperation self fuel name params
          = Some (Throws e)).
Proof.
  intros Hfind Hshrinks Hfuel.
  assert (exists args,
            match params with
            | Some p => deserializeParams JSON_parse fuel p
            | None => Some []
            end = Some args) as (args & Hargs).
  { destruct params as [p|]; [|now exists []].
    apply (deserializeParams_returns JSON_parse Hshrinks). now apply Hfuel. }
  exists args. split; [exact Hargs|]. split; [|split].
  - intros errorData Hexec. unfold callTool. now rewrite Hfind, Hargs, Hexec.
  - intros errorData payload nested. split; [|split; [|split]].
    + assert (payload <> JNull) as Hnull.
      { unfold payload, selectPayload.
        destruct (optChain "data" (optChain "response" errorData)) as [[]|];
          destruct errorData as [[]|]; discriminate. }
      unfold errorBody. fold payload.
      destruct payload as [|b|n|s|items|entries]; try reflexivity.
      * now destruct Hnull.
      * intros Hlen. cbn [isObjectType spreadEntries]. f_equal.
        apply (enumerate_spread_elements "status" (JStr "error") items eq_refl Hlen).
      * cbn [isObjectType spreadEntries]. split; [reflexivity|].
        intros Hnamed. f_equal. apply enumerate_named.
        apply Forall_spread; [|exact Hnamed]. now constructor.
    + intros v Hv Hnull. unfold payload, selectPayload. fold nested. rewrite Hv.
      destruct v; try reflexivity. contradiction.
    + intros Hnested d Hd Hnull. unfold payload, selectPayload. fold nested.
      destruct Hnested as [-> | ->]; rewrite Hd; simpl;
        destruct d; try reflexivity; contradiction.
    + intros Hnested Hdata. unfold payload, selectPayload. fold nested.
      destruct Hnested as [-> | ->]; destruct Hdata as [-> | ->]; reflexivity.
  - intros e Hexec Hother. unfold callTool. rewrite Hfind, Hargs, Hexec.
    destruct e as [message|errorData|what]; try reflexivity.
    now destruct (Hother errorData).
Qed.

(** C7, witness: an error whose data is the array [[1, 2]] of the HTTP
    response, after a call with an argument to recover. *)
Lemma C7_error_envelope_witness :
  exists args,
    deserializeParams ExampleJson.parse 60 [("filter", JStr "{}")] = Some args
    /\ callTool ExampleJson.parse ExampleJson.stringify
         (failingClient (Some (JArr [JNum 1; JNum 2])))
         (newProxy testDocument) 60 "API-getTest" (Some [("filter", JStr "{}")])
       = Some (Returns (CallResult
            [ContentItem "text"
               (ExampleJson.stringify (errorBody (Some (JArr [JNum 1; JNum 2]))))]))
    /\ errorBody (Some (JArr [JNum 1; JNum 2]))
       = JObj [("0", JNum 1); ("1", JNum 2); ("status", JStr "error")].
Proof.
  destruct (C7_error_envelope ExampleJson.parse ExampleJson.stringify
              (failingClient (Some (JArr [JNum 1; JNum 2])))
              (newProxy testDocument) 60 "API-getTest" (Some [("filter", JStr "{}")])
              (LookupEntry (bareOperation "getTest") "get" "/test")
              eq_refl parse_shrinks)
    as (args & Hargs & Hreturns & Hbody & _).
  - intros p [= <-]. vm_compute. lia.
  - exists args. split; [exact Hargs|]. split.
    + now apply Hreturns.
    + destruct (Hbody (Some (JArr [JNum 1; JNum 2]))) as [Harray _].
      apply Harray. vm_compute. discriminate.
Defined.

(** ** Self-contained tool schemas *)

Module DefsFacts.

Import Converter TranslatorFacts InlineFacts.

(** The pointers written anywhere inside a tool schema. *)
Fixpoint jschema_refs (j : jschema) : list string :=
  match j with
  | JSchema ref _ _ _ _ _ _ properties _ additionalProperties items oneOf anyOf allOf defs =>
      option_list ref
      ++ match properties with
         | Some ps => flat_map (fun kv => jschema_refs (snd kv)) ps
         | None => []
         end
      ++ match additionalProperties with
         | Some (inr sch) => jschema_refs sch
         | _ => []
         end
      ++ match items with
         | Some it => jschema_refs it
         | None => []
         end
      ++ match oneOf with Some l => flat_map jschema_refs l | None => [] end
      ++ match anyOf with Some l => flat_map jschema_refs l | None => [] end
      ++ match allOf with Some l => flat_map jschema_refs l | None => [] end
      ++ match defs with
         | Some ds => flat_map (fun kv => jschema_refs (snd kv)) ds
         | None => []
         end
  end.

Definition defsPrefix : string := "#/$defs/".

(** The keys of the [$defs] map at the root of a schema. *)
Definition defKeys (j : jschema) : list string :=
  match js_defs j with
  | Some ds => keys ds
  | None => []
  end.

(** The self-containment invariant of a tool schema. *)
Definition selfContained (j : jschema) : Prop :=
  forall r, In r (jschema_refs j) -> startsWith defsPrefix r = true ->
    exists k, r = (defsPrefix ++ k)%string /\ In k (defKeys j).

Section Allowed.
(** The pointers a schema may mention. *)
Context (targets : list string).

Definition allowed (j : jschema) : Prop := Forall (fun r => In r targets) (jschema_refs j).

Definition allowedEntries (o : list (string * jschema)) : Prop :=
  Forall (fun kv => allowed (snd kv)) o.

Definition allowedList (l : list jschema) : Prop := Forall allowed l.

Lemma allowed_flat_entries (o : list (string * jschema)) :
  allowedEntries o <->
  Forall (fun r => In r targets) (flat_map (fun kv => jschema_refs (snd kv)) o).
Proof.
  unfold allowedEntries, allowed. induction o as [|kv o IH]; simpl.
  - split; constructor.
  - rewrite Forall_cons, Forall_app, IH. tauto.
Qed.

Lemma allowed_flat_list (l : list jschema) :
  allowedList l <-> Forall (fun r => In r targets) (flat_map jschema_refs l).
Proof.
  unfold allowedList, allowed. induction l as [|j l IH]; simpl.
  - split; constructor.
  - rewrite Forall_cons, Forall_app, IH. tauto.
Qed.

Lemma allowed_empty : allowed empty_schema.
Proof. constructor. Qed.

Ltac split_refs :=
  unfold allowed in *; simpl in *; rewrite ?Forall_app in *.

Lemma allowed_set_ref (v : string) (j : jschema) :
  In v targets -> allowed j -> allowed (set_ref v j).
Proof.
  destruct j. unfold allowed. simpl. intros Hv H.
  constructor; [exact Hv|]. rewrite !Forall_app in *. tauto.
Qed.

Lemma allowed_set_type (v : string) (j : jschema) : allowed j -> allowed (set_type v j).
Proof. now destruct j. Qed.

Lemma allowed_set_format (v : string) (j : jschema) : allowed j -> allowed (set_format v j).
Proof. now destruct j. Qed.

Lemma allowed_set_description (v : string) (j : jschema) :
  allowed j -> allowed (set_description v j).
Proof. now destruct j. Qed.

Lemma allowed_set_enum (v : list json) (j : jschema) : allowed j -> allowed (set_enum v j).
Proof. now destruct j. Qed.

Lemma allowed_set_const (v : json) (j : jschema) : allowed j -> allowed (set_const v j).
Proof. now destruct j. Qed.

Lemma allowed_set_default (v : json) (j : jschema) : allowed j -> allowed (set_default v j).
Proof. now destruct j. Qed.

Lemma allowed_set_required (v : list string) (j : jschema) :
  allowed j -> allowed (set_required v j).
Proof. now destruct j. Qed.

Lemma allowed_set_properties (v : list (string * jschema)) (j : jschema) :
  allowedEntries v -> allowed j -> allowed (set_properties v j).
Proof.
  rewrite allowed_flat_entries. destruct j. split_refs. tauto.
Qed.

Lemma allowed_set_additionalProperties (v : bool + jschema) (j : jschema) :
  match v with inr sch => allowed sch | inl _ => True end ->
  allowed j -> allowed (set_additionalProperties v j).
Proof.
  destruct j. split_refs. intros Hv H.
  repeat split; try tauto. destruct v; [constructor | exact Hv].
Qed.

Lemma allowed_set_items (v : jschema) (j : jschema) :
  allowed v -> allowed j -> allowed (set_items v j).
Proof. destruct j. split_refs. tauto. Qed.

Lemma allowed_set_oneOf (v : list jschema) (j : jschema) :
  allowedList v -> allowed j -> allowed (set_oneOf v j).
Proof. rewrite allowed_flat_list. destruct j. split_refs. tauto. Qed.

Lemma allowed_set_anyOf (v : list jschema) (j : jschema) :
  allowedList v -> allowed j -> allowed (set_anyOf v j).
Proof. rewrite allowed_flat_list. destruct j. split_refs. tauto. Qed.

Lemma allowed_set_allOf (v : list jschema) (j : jschema) :
  allowedList v -> allowed j -> allowed (set_allOf v j).
Proof. rewrite allowed_flat_list. destruct j. split_refs. tauto. Qed.

Lemma allowed_set_defs (v : list (string * jschema)) (j : jschema) :
  allowedEntries v -> allowed j -> allowed (set_defs v j).
Proof. rewrite allowed_flat_entries. destruct j. split_refs. tauto. Qed.

(** The parts of an allowed schema are allowed. *)
Lemma allowed_properties (j : jschema) (ps : list (string * jschema)) :
  allowed j -> js_properties j = Some ps -> allowedEntries ps.
Proof.
  rewrite allowed_flat_entries. destruct j. split_refs. intros H [= ->]. tauto.
Qed.

Lemma allowed_items (j items : jschema) :
  allowed j -> js_items j = Some items -> allowed items.
Proof. destruct j. split_refs. intros H [= ->]. tauto. Qed.

End Allowed.

(** *** Documents whose references name component schemas *)

Definition componentNames (doc : document) : list string := keys (componentSchemas doc).

(** The component names that become keys of [$defs]. *)
Definition defNames (doc : document) : list string :=
  List.filter (fun k => negb (String.eqb k "__proto__")) (componentNames doc).

(** A pointer [#/components/schemas/<name>] to a component schema of the
    document. *)
Definition isComponentRef (doc : document) (ref : string) : bool :=
  startsWith "#/components/schemas/" ref
  && existsb (String.eqb (sliceFrom 21 ref)) (defNames doc).

Definition componentRefs (doc : document) (l : list string) : Prop :=
  Forall (fun r => isComponentRef doc r = true) l.

(** Every reference written in a schema of the document names a component
    schema of the document. *)
Definition wellReferenced (doc : document) : Prop :=
  forallb (isComponentRef doc) (document_refs doc) = true.

Definition localTargets (doc : document) : list string :=
  map (fun k => (defsPrefix ++ k)%string) (defNames doc).

Lemma localRef_target (doc : document) (ref : string) :
  isComponentRef doc ref = true -> In (localRef ref) (localTargets doc).
Proof.
  unfold isComponentRef, localRef, replacePrefix. intros H.
  apply andb_prop in H as [Hpre Hname]. rewrite Hpre.
  apply existsb_exists in Hname as (k & Hk & Heq).
  apply String.eqb_eq in Heq. apply in_map_iff.
  exists k. split; [|exact Hk]. now rewrite <- Heq.
Qed.

Lemma wellReferenced_refs (doc : document) :
  wellReferenced doc -> componentRefs doc (document_refs doc).
Proof.
  unfold wellReferenced, componentRefs. intros H.
  apply List.Forall_forall. now apply forallb_forall.
Qed.

Lemma componentRefs_incl (doc : document) (l l' : list string) :
  (forall r, In r l -> In r l') -> componentRefs doc l' -> componentRefs doc l.
Proof.
  unfold componentRefs. rewrite !List.Forall_forall. auto.
Qed.

(** *** Dictionaries of allowed schemas *)

Section AllowedDict.
Context (targets : list string).

Lemma allowedEntries_replace (k : string) (v : jschema) (o : list (string * jschema)) :
  allowed targets v -> allowedEntries targets o ->
  allowedEntries targets (JsObject.replace k v o).
Proof.
  intros Hv. unfold allowedEntries.
  induction o as [|[k' v'] o IH]; simpl; intros Ho; [constructor|].
  apply Forall_cons in Ho as [Hv' Ho].
  destruct (String.eqb k k'); constructor; auto.
Qed.

Lemma allowedEntries_obj_set (k : string) (v : jschema) (o : list (string * jschema)) :
  allowed targets v -> allowedEntries targets o -> allowedEntries targets (obj_set k v o).
Proof.
  intros Hv Ho. unfold obj_set.
  destruct (String.eqb k "__proto__"); [exact Ho|].
  destruct (get k o).
  - now apply allowedEntries_replace.
  - unfold allowedEntries. apply Forall_app. split; [exact Ho|].
    constructor; [exact Hv | constructor].
Qed.

Lemma allowed_convert_fields (f : schemaFields) : allowed targets (convert_fields f).
Proof.
  unfold convert_fields. cbv zeta.
  repeat first [ apply allowed_empty
               | apply allowed_set_type | apply allowed_set_format
               | apply allowed_set_description | apply allowed_set_enum
               | apply allowed_set_const | apply allowed_set_default
               | match goal with
                 | |- allowed _ (match ?x with _ => _ end) => destruct x
                 end ].
Qed.

Lemma allowed_typeString : allowed targets typeString.
Proof. constructor. Qed.

Lemma allowed_openObject : allowed targets openObject.
Proof. constructor. Qed.

Lemma allowed_withStringFallback (j : jschema) :
  allowed targets j -> allowed targets (withStringFallback j).
Proof.
  intros Hj. unfold withStringFallback.
  destruct (isComplex j).
  - apply allowed_set_anyOf; [|apply allowed_empty].
    constructor; [exact Hj|]. constructor; [apply allowed_typeString | constructor].
  - destruct (js_items j) as [items|] eqn:Hitems; [|exact Hj].
    destruct (is_literal "array" (js_type j)); [|exact Hj].
    apply allowed_set_items; [|exact Hj].
    apply allowed_set_anyOf; [|apply allowed_empty].
    constructor; [exact (allowed_items targets j items Hj Hitems)|].
    constructor; [apply allowed_typeString|].
    constructor; [apply allowed_openObject | constructor].
Qed.
End AllowedDict.

(** *** Translation in preserved mode *)

Section PreservedMode.
Context (doc : document).

#[local] Abbreviation targets := (localTargets doc).

Section Parts.
Context (translate : schema -> M jschema).

Definition partAllowed (s : schema) : Prop :=
  componentRefs doc (schema_refs s) ->
  forall st r st', translate s st = Some (r, st') -> allowed targets r.

Lemma allowed_convert_properties (ps : list (string * schema)) :
  list_all (string * schema) (prod_all string (fun _ => unit) schema partAllowed) ps ->
  componentRefs doc (flat_map (fun kv => schema_refs (snd kv)) ps) ->
  forall acc st r st',
    allowedEntries targets acc ->
    convert_properties translate ps acc st = Some (r, st') ->
    allowedEntries targets r.
Proof.
  intros Hall. induction Hall as [|kv Hkv ps Hall IH]; intros Hin acc st r st' Hacc Hrun;
    simpl in *.
  - apply ret_Some in Hrun as [<- _]. exact Hacc.
  - apply Forall_app in Hin as [Hin1 Hin2].
    apply bind_Some in Hrun as (v & st1 & Hv & Hrest).
    destruct Hkv as [k _ s Hs]. simpl in *.
    apply (IH Hin2 _ _ _ _ (allowedEntries_obj_set _ _ _ _ (Hs Hin1 _ _ _ Hv) Hacc) Hrest).
Qed.

Lemma allowed_convert_all (l : list schema) :
  list_all schema partAllowed l ->
  componentRefs doc (flat_map schema_refs l) ->
  forall st r st',
    convert_all translate l st = Some (r, st') -> allowedList targets r.
Proof.
  intros Hall. induction Hall as [|s Hs l Hall IH]; intros Hin st r st' Hrun; simpl in *.
  - apply ret_Some in Hrun as [<- _]. constructor.
  - apply Forall_app in Hin as [Hin1 Hin2].
    apply bind_Some in Hrun as (v & st1 & Hv & Hrun).
    apply bind_Some in Hrun as (vs & st2 & Hvs & Hret).
    apply ret_Some in Hret as [<- _].
    constructor; [exact (Hs Hin1 _ _ _ Hv) | exact (IH Hin2 _ _ _ Hvs)].
Qed.

Lemma allowed_convertComposition (members : option (list schema))
    (set : list jschema -> jschema -> jschema) (result : jschema) :
  (forall vs j, allowedList targets vs -> allowed targets j -> allowed targets (set vs j)) ->
  option_all (list schema) (list_all schema partAllowed) members ->
  componentRefs doc (match members with Some l => flat_map schema_refs l | None => [] end) ->
  allowed targets result ->
  forall st r st',
    convertComposition translate members set result st = Some (r, st') ->
    allowed targets r.
Proof.
  intros Hset Hall Hin Hresult st r st' Hrun. unfold convertComposition in Hrun.
  destruct Hall as [l Hl|].
  - apply bind_Some in Hrun as (vs & st1 & Hvs & Hret).
    apply ret_Some in Hret as [<- _].
    apply Hset; [|exact Hresult]. exact (allowed_convert_all l Hl Hin _ _ _ Hvs).
  - apply ret_Some in Hrun as [<- _]. exact Hresult.
Qed.

Lemma allowed_convertObject (f : schemaFields)
    (properties : option (list (string * schema)))
    (additionalProperties : option (bool + schema)) (result : jschema) :
  option_all (list (string * schema))
    (list_all (string * schema) (prod_all string (fun _ => unit) schema partAllowed))
    properties ->
  option_all (bool + schema) (sum_all bool (fun _ => unit) schema partAllowed)
    additionalProperties ->
  componentRefs doc (match properties with
                     | Some ps => flat_map (fun kv => schema_refs (snd kv)) ps
                     | None => []
                     end) ->
  componentRefs doc (match additionalProperties with
                     | Some (inr sch) => schema_refs sch
                     | _ => []
                     end) ->
  allowed targets result ->
  forall st r st',
    convertObject translate f properties additionalProperties result st = Some (r, st') ->
    allowed targets r.
Proof.
  intros Hprops Hap Hin1 Hin2 Hresult st r st' Hrun. unfold convertObject in Hrun.
  destruct (is_literal "object" (s_type f)).
  2: { apply ret_Some in Hrun as [<- _]. exact Hresult. }
  apply bind_Some in Hrun as (r1 & st1 & Hstep1 & Hstep2).
  assert (allowed targets r1) as H1.
  { destruct Hprops as [ps Hps|].
    - apply bind_Some in Hstep1 as (props & st0 & Hprops & Hret).
      apply ret_Some in Hret as [<- _].
      apply allowed_set_properties; [|now apply allowed_set_type].
      apply (allowed_convert_properties ps Hps Hin1 [] _ _ _ ltac:(constructor) Hprops).
    - apply ret_Some in Hstep1 as [<- _]. now apply allowed_set_type. }
  assert (allowed targets (match s_required f with
                           | Some req => set_required req r1
                           | None => r1
                           end)) as H2.
  { destruct (s_required f); [now apply allowed_set_required | exact H1]. }
  destruct Hap as [ap Hap|].
  - destruct Hap as [b _|sch Hsch].
    + destruct b; apply ret_Some in Hstep2 as [<- _];
        now apply allowed_set_additionalProperties.
    + apply bind_Some in Hstep2 as (v & st0 & Hv & Hret).
      apply ret_Some in Hret as [<- _].
      apply allowed_set_additionalProperties; [|exact H2].
      exact (Hsch Hin2 _ _ _ Hv).
  - apply ret_Some in Hstep2 as [<- _]. now apply allowed_set_additionalProperties.
Qed.

Lemma allowed_convertArray (f : schemaFields) (items : option schema) (result : jschema) :
  option_all schema partAllowed items ->
  componentRefs doc (match items with Some it => schema_refs it | None => [] end) ->
  allowed targets result ->
  forall st r st',
    convertArray translate f items result st = Some (r, st') -> allowed targets r.
Proof.
  intros Hitems Hin Hresult st r st' Hrun. unfold convertArray in Hrun.
  destruct (is_literal "array" (s_type f)).
  2: { apply ret_Some in Hrun as [<- _]. exact Hresult. }
  destruct Hitems as [it Hit|].
  - apply bind_Some in Hrun as (v & st0 & Hv & Hret).
    apply ret_Some in Hret as [<- _].
    apply allowed_set_items; [exact (Hit Hin _ _ _ Hv) | now apply allowed_set_type].
  - apply ret_Some in Hrun as [<- _]. exact Hresult.
Qed.
End Parts.

(** In preserved mode a schema whose references name component schemas is
    translated to a schema whose references are local pointers to them. *)
Lemma convert_allowed (fuel : nat) (s : schema) :
  componentRefs doc (schema_refs s) ->
  forall st r st', convert doc false fuel s st = Some (r, st') -> allowed targets r.
Proof.
  induction s as [ref description
                 |f properties Hprops additionalProperties Hap items Hitems
                    oneOf HoneOf anyOf HanyOf allOf HallOf];
    intros Hin st r st' Hrun.
  - simpl in Hin. apply Forall_inv in Hin.
    pose proof Hin as Hpre. unfold isComponentRef in Hpre.
    apply andb_prop in Hpre as [Hpre _].
    rewrite (ReferenceFacts.convert_ref_preserved doc fuel ref description st Hpre) in Hrun.
    injection Hrun as <- _. unfold preservedRef.
    destruct description.
    + apply allowed_set_description, allowed_set_ref;
        [now apply localRef_target | apply allowed_empty].
    + apply allowed_set_ref; [now apply localRef_target | apply allowed_empty].
  - simpl in Hin.
    apply Forall_app in Hin as [Hin1 Hin].
    apply Forall_app in Hin as [Hin2 Hin].
    apply Forall_app in Hin as [Hin3 Hin].
    apply Forall_app in Hin as [Hin4 Hin].
    apply Forall_app in Hin as [Hin5 Hin6].
    rewrite convert_unfold in Hrun. simpl in Hrun. unfold convertInline in Hrun.
    apply bind_Some in Hrun as (r1 & st1 & H1 & Hrun).
    apply bind_Some in Hrun as (r2 & st2 & H2 & Hrun).
    apply bind_Some in Hrun as (r3 & st3 & H3 & Hrun).
    apply bind_Some in Hrun as (r4 & st4 & H4 & H5).
    pose proof (allowed_convertObject _ f properties additionalProperties _ Hprops Hap
                  Hin1 Hin2 (allowed_convert_fields targets f) _ _ _ H1) as A1.
    pose proof (allowed_convertArray _ f items _ Hitems Hin3 A1 _ _ _ H2) as A2.
    pose proof (allowed_convertComposition _ oneOf set_oneOf _
                  (allowed_set_oneOf targets) HoneOf Hin4 A2 _ _ _ H3) as A3.
    pose proof (allowed_convertComposition _ anyOf set_anyOf _
                  (allowed_set_anyOf targets) HanyOf Hin5 A3 _ _ _ H4) as A4.
    exact (allowed_convertComposition _ allOf set_allOf _
             (allowed_set_allOf targets) HallOf Hin6 A4 _ _ _ H5).
Qed.

Lemma convertFresh_allowed (s : schema) (cache : gmap string jschema) :
  componentRefs doc (schema_refs s) ->
  allowed targets (fst (convertFresh doc s cache)).
Proof.
  intros Hin. unfold convertFresh. simpl.
  pose proof (convertOpenApiSchemaToJsonSchema_run doc s ∅ false cache) as Hrun.
  destruct (convertOpenApiSchemaToJsonSchema doc s ∅ false cache) as [r st'].
  exact (convert_allowed _ s Hin _ _ _ Hrun).
Qed.

End PreservedMode.

(** *** Where the schemas of a document are written *)

Lemma tree_refs_child (t t' : tree) (k : string) :
  In (k, t') (tree_children t) -> incl (tree_refs t') (tree_refs t).
Proof.
  destruct t as [value children]. simpl. intros Hin r Hr.
  apply in_or_app. right. apply in_flat_map. now exists (k, t').
Qed.

Lemma tree_refs_value (t : tree) (p : payload) :
  tree_value t = Some p -> incl (payload_refs p) (tree_refs t).
Proof.
  destruct t as [value children]. simpl. intros -> r Hr.
  apply in_or_app. now left.
Qed.

Lemma in_dict {A : Type} (f : A -> tree) (o : list (string * A)) (k : string) (x : A) :
  In (k, x) o -> In (k, f x) (tree_children (Reify.dict f o)).
Proof.
  intros H. simpl. apply in_map_iff. now exists (k, x).
Qed.

Lemma in_combine_map {A B : Type} (f : A -> B) (ks : list string) (l : list A) (x : A) :
  length l <= length ks -> In x l -> exists k, In (k, f x) (combine ks (map f l)).
Proof.
  revert ks. induction l as [|y l IH]; intros ks Hlen Hin; [contradiction|].
  destruct ks as [|k ks]; simpl in *; [lia|].
  destruct Hin as [->|Hin].
  - exists k. now left.
  - destruct (IH ks ltac:(lia) Hin) as (k' & Hk'). exists k'. now right.
Qed.

Lemma in_array {A : Type} (f : A -> tree) (l : list A) (x : A) :
  In x l -> exists k, In (k, f x) (tree_children (Reify.array f l)).
Proof.
  intros H. simpl. apply in_combine_map; [|exact H].
  unfold indices. now rewrite length_map, length_seq.
Qed.

Lemma operation_parameter_refs (op : operation) (ps : list parameterOrRef)
    (param : parameterOrRef) :
  parameters op = Some ps -> In param ps ->
  incl (payload_refs (PParameter param)) (tree_refs (Reify.of_operation op)).
Proof.
  intros Hps Hin r Hr.
  destruct (in_array Reify.of_parameter ps param Hin) as (k & Hk).
  apply (tree_refs_child (Reify.of_operation op) (Reify.array Reify.of_parameter ps)
           "parameters").
  { unfold Reify.of_operation. simpl. rewrite Hps. simpl. now left. }
  apply (tree_refs_child _ _ k Hk).
  now apply (tree_refs_value (Reify.of_parameter param) (PParameter param)).
Qed.

Lemma operation_body_refs (op : operation) (b : requestBodyOrRef) :
  requestBody op = Some b ->
  incl (payload_refs (PRequestBody b)) (tree_refs (Reify.of_operation op)).
Proof.
  intros Hb r Hr.
  apply (tree_refs_child (Reify.of_operation op) (Reify.of_requestBody b) "requestBody").
  { unfold Reify.of_operation. simpl. rewrite Hb. simpl.
    apply in_or_app. right. now left. }
  now apply (tree_refs_value (Reify.of_requestBody b) (PRequestBody b)).
Qed.

Lemma operation_response_refs (op : operation) (rs : list (string * responseOrRef))
    (code : string) (resp : responseOrRef) :
  responses op = Some rs -> In (code, resp) rs ->
  incl (payload_refs (PResponse resp)) (tree_refs (Reify.of_operation op)).
Proof.
  intros Hrs Hin r Hr.
  apply (tree_refs_child (Reify.of_operation op) (Reify.dict Reify.of_response rs)
           "responses").
  { unfold Reify.of_operation. simpl. rewrite Hrs. simpl.
    apply in_or_app. right. apply in_or_app. right. now left. }
  apply (tree_refs_child _ _ code (in_dict Reify.of_response rs code resp Hin)).
  now apply (tree_refs_value (Reify.of_response resp) (PResponse resp)).
Qed.

Lemma document_operation_refs (doc : document) (ps : list (string * option pathItem))
    (path method : string) (item : pathItem) (op : operation) :
  paths doc = Some ps -> In (path, Some item) ps -> In (method, FOperation op) item ->
  incl (tree_refs (Reify.of_operation op)) (document_refs doc).
Proof.
  intros Hps Hitem Hop r Hr. unfold document_refs.
  apply (tree_refs_child (Reify.of_document doc) (Reify.of_paths ps) "paths").
  { unfold Reify.of_document. simpl. rewrite Hps. simpl. now left. }
  apply (tree_refs_child (Reify.of_paths ps) (Reify.of_pathItem item) path).
  { simpl. apply in_flat_map. exists (path, Some item). split; [exact Hitem | now left]. }
  apply (tree_refs_child (Reify.of_pathItem item) (Reify.of_operation op) method).
  { simpl. apply in_flat_map. exists (method, FOperation op).
    split; [exact Hop | now left]. }
  exact Hr.
Qed.

Lemma document_component_refs (doc : document) (k : string) (s : schema) :
  In (k, s) (componentSchemas doc) -> incl (schema_refs s) (document_refs doc).
Proof.
  unfold componentSchemas.
  destruct (d_components doc) as [c|] eqn:Hc; [|contradiction].
  destruct (c_schemas c) as [l|] eqn:Hl; [|contradiction].
  intros Hin r Hr. unfold document_refs.
  apply (tree_refs_child (Reify.of_document doc) (Reify.of_components c) "components").
  { unfold Reify.of_document. simpl. rewrite Hc. simpl.
    apply in_or_app. right. now left. }
  apply (tree_refs_child (Reify.of_components c) (Reify.dict Reify.of_schema l) "schemas").
  { unfold Reify.of_components. simpl. rewrite Hl. simpl. now left. }
  apply (tree_refs_child _ _ k (in_dict Reify.of_schema l k s Hin)).
  apply (tree_refs_value (Reify.of_schema s) (PSchema s)); [|exact Hr].
  now destruct s.
Qed.

Lemma resolved_refs (doc : document) (ref : string) (resolved : gset string) (node : tree) :
  fst (internalResolveRef doc ref resolved) = Some node ->
  incl (tree_refs node) (document_refs doc).
Proof.
  intros H r Hr.
  destruct (internalResolveRef doc ref resolved) as [[current|] resolved'] eqn:Hres;
    simpl in H; [|discriminate].
  injection H as ->.
  apply internalResolveRef_found in Hres as (_ & _ & _ & Hwalk).
  exact (walk_refs _ _ _ r Hwalk Hr).
Qed.

(** *** What the resolvers return *)

Lemma contentSchema_refs (content : list (string * mediaType)) (media : string)
    (sch : schema) :
  contentSchema content media = Some sch ->
  incl (schema_refs sch) (content_refs (Some content)).
Proof.
  unfold contentSchema. intros H r Hr.
  destruct (get media content) as [m|] eqn:Hget; [|discriminate].
  simpl. apply in_flat_map. exists (media, m).
  split; [now apply get_In | simpl; now rewrite H].
Qed.

Section Resolvers.
Context (doc : document).
Hypothesis Hdoc : componentRefs doc (document_refs doc).

Lemma resolveParameter_refs (param : parameterOrRef) (po : parameterObject) (sch : schema) :
  componentRefs doc (payload_refs (PParameter param)) ->
  resolveParameter doc param = Some po -> p_schema po = Some sch ->
  componentRefs doc (schema_refs sch).
Proof.
  intros Hparam Hres Hsch. destruct param as [ref|p]; simpl in Hres.
  - destruct (fst (internalResolveRef doc ref ∅)) as [node|] eqn:Hnode; [|discriminate].
    destruct (as_parameter node) as [[ref'|p]|] eqn:Has; try discriminate.
    destruct (truthy (p_name p)); [|discriminate].
    injection Hres as <-.
    apply (componentRefs_incl doc _ (document_refs doc)); [|exact Hdoc].
    intros r Hr. apply (resolved_refs doc ref ∅ node Hnode).
    apply (tree_refs_value node (PParameter (PObj p))).
    + unfold as_parameter in Has. destruct (tree_value node) as [[]|]; congruence.
    + simpl. now rewrite Hsch.
  - injection Hres as <-. simpl in Hparam. now rewrite Hsch in Hparam.
Qed.

Lemma resolveRequestBody_refs (b : requestBodyOrRef) (bo : requestBodyObject)
    (content : list (string * mediaType)) (media : string) (sch : schema) :
  componentRefs doc (payload_refs (PRequestBody b)) ->
  resolveRequestBody doc b = Some bo -> rb_content bo = Some content ->
  contentSchema content media = Some sch ->
  componentRefs doc (schema_refs sch).
Proof.
  intros Hb Hres Hcontent Hsch.
  apply (componentRefs_incl doc _ (content_refs (Some content)));
    [now apply (contentSchema_refs content media) |].
  destruct b as [ref|b0]; simpl in Hres.
  - destruct (fst (internalResolveRef doc ref ∅)) as [node|] eqn:Hnode; [|discriminate].
    destruct (as_requestBody node) as [[ref'|b1]|] eqn:Has; try discriminate.
    + injection Hres as <-. discriminate.
    + injection Hres as <-.
      apply (componentRefs_incl doc _ (document_refs doc)); [|exact Hdoc].
      intros r Hr. apply (resolved_refs doc ref ∅ node Hnode).
      apply (tree_refs_value node (PRequestBody (RBObj b1))).
      * unfold as_requestBody in Has. destruct (tree_value node) as [[]|]; congruence.
      * simpl. now rewrite Hcontent.
  - injection Hres as <-. simpl in Hb. now rewrite Hcontent in Hb.
Qed.

Lemma resolveResponse_refs (resp : responseOrRef) (ro : responseObject)
    (content : list (string * mediaType)) (media : string) (sch : schema) :
  componentRefs doc (payload_refs (PResponse resp)) ->
  resolveResponse doc resp = Some ro -> r_content ro = Some content ->
  contentSchema content media = Some sch ->
  componentRefs doc (schema_refs sch).
Proof.
  intros Hr0 Hres Hcontent Hsch.
  apply (componentRefs_incl doc _ (content_refs (Some content)));
    [now apply (contentSchema_refs content media) |].
  destruct resp as [ref|r0]; simpl in Hres.
  - destruct (fst (internalResolveRef doc ref ∅)) as [node|] eqn:Hnode; [|discriminate].
    destruct (as_response node) as [[ref'|r1]|] eqn:Has; try discriminate.
    + injection Hres as <-. discriminate.
    + injection Hres as <-.
      apply (componentRefs_incl doc _ (document_refs doc)); [|exact Hdoc].
      intros r Hr. apply (resolved_refs doc ref ∅ node Hnode).
      apply (tree_refs_value node (PResponse (RObj r1))).
      * unfold as_response in Has. destruct (tree_value node) as [[]|]; congruence.
      * simpl. now rewrite Hcontent.
  - injection Hres as <-. simpl in Hr0. now rewrite Hcontent in Hr0.
Qed.
End Resolvers.

(** *** The [$defs] map *)

Lemma keys_replace {V : Type} (k : string) (v : V) (o : list (string * V)) :
  keys (JsObject.replace k v o) = keys o.
Proof.
  induction o as [|[k' v'] o IH]; simpl; [reflexivity|].
  destruct (String.eqb k k'); simpl; [reflexivity | now rewrite IH].
Qed.

Lemma keys_obj_set {V : Type} (k k' : string) (v : V) (o : list (string * V)) :
  In k (keys o) \/ (k = k' /\ k' <> "__proto__") -> In k (keys (obj_set k' v o)).
Proof.
  unfold obj_set. intros H.
  destruct (String.eqb_spec k' "__proto__") as [->|Hproto].
  - destruct H as [H|[_ H]]; [exact H | contradiction].
  - destruct (get k' o) as [v'|] eqn:Hget.
    + rewrite keys_replace. destruct H as [H|[-> _]]; [exact H|].
      apply get_In in Hget. apply in_map_iff. now exists (k', v').
    + unfold keys. rewrite map_app. apply in_or_app.
      destruct H as [H|[-> _]]; [now left | right; now left].
Qed.

Section Components.
Context (doc : document).
Hypothesis Hdoc : componentRefs doc (document_refs doc).

Lemma components_fold_allowed (l : list (string * schema))
    (acc : list (string * jschema) * gmap string jschema) :
  (forall kv, In kv l -> In kv (componentSchemas doc)) ->
  allowedEntries (localTargets doc) (fst acc) ->
  allowedEntries (localTargets doc) (fst (fold_left (addComponent doc) l acc)).
Proof.
  revert acc. induction l as [|[k s] l IH]; intros acc Hl Hacc; simpl; [exact Hacc|].
  apply IH; [intros kv Hkv; apply Hl; now right|].
  unfold addComponent. simpl.
  apply allowedEntries_obj_set; [|exact Hacc].
  apply convertFresh_allowed.
  apply (componentRefs_incl doc _ (document_refs doc)); [|exact Hdoc].
  apply (document_component_refs doc k s). apply Hl. now left.
Qed.

Lemma components_fold_keys (l : list (string * schema))
    (acc : list (string * jschema) * gmap string jschema) (k : string) :
  In k (keys (fst acc)) \/ (In k (keys l) /\ k <> "__proto__") ->
  In k (keys (fst (fold_left (addComponent doc) l acc))).
Proof.
  revert acc. induction l as [|[k' s] l IH]; intros acc H; simpl.
  - destruct H as [H|[[] _]]. exact H.
  - apply IH. unfold addComponent. simpl.
    destruct H as [H|[[Heq|Hin] Hproto]].
    + left. apply keys_obj_set. now left.
    + left. apply keys_obj_set. right. simpl in Heq. subst k'. now split.
    + right. now split.
Qed.

Lemma components_allowed (cache : gmap string jschema) :
  allowedEntries (localTargets doc) (fst (convertComponentsToJsonSchema doc cache)).
Proof.
  unfold convertComponentsToJsonSchema.
  apply components_fold_allowed; [auto | constructor].
Qed.

Lemma components_keys (cache : gmap string jschema) :
  incl (defNames doc) (keys (fst (convertComponentsToJsonSchema doc cache))).
Proof.
  intros k Hk. unfold defNames in Hk. apply filter_In in Hk as [Hk Hproto].
  unfold convertComponentsToJsonSchema. apply components_fold_keys. right.
  split; [exact Hk|].
  apply negb_true_iff in Hproto. now apply String.eqb_neq.
Qed.
End Components.

(** *** One operation *)

(** Every pointer in the schema is a local pointer to a key of the
    schema's own [$defs]. *)
Definition contained (j : jschema) : Prop :=
  allowed (map (fun k => (defsPrefix ++ k)%string) (defKeys j)) j.

Lemma contained_selfContained (j : jschema) : contained j -> selfContained j.
Proof.
  unfold contained, allowed, selfContained. rewrite List.Forall_forall.
  intros H r Hr _. apply H in Hr. apply in_map_iff in Hr as (k & Hk & Hin).
  now exists k.
Qed.

Lemma allowed_mono (targets targets' : list string) (j : jschema) :
  incl targets targets' -> allowed targets j -> allowed targets' j.
Proof.
  unfold allowed. rewrite !List.Forall_forall. intros Hincl H r Hr. now apply Hincl, H.
Qed.

Lemma contained_of_allowed (doc : document) (j : jschema) :
  incl (defNames doc) (defKeys j) -> allowed (localTargets doc) j -> contained j.
Proof.
  intros Hkeys. apply allowed_mono. unfold localTargets.
  intros r Hr. apply in_map_iff in Hr as (k & <- & Hk).
  apply in_map_iff. exists k. split; [reflexivity | now apply Hkeys].
Qed.

Section Operation.
Context (doc : document).
Hypothesis Hdoc : componentRefs doc (document_refs doc).

#[local] Abbreviation targets := (localTargets doc).

Lemma addParameter_allowed (acc : inputAcc * gmap string jschema) (param : parameterOrRef) :
  componentRefs doc (payload_refs (PParameter param)) ->
  allowedEntries targets (fst (fst acc)) ->
  allowedEntries targets (fst (fst (addParameter doc acc param))).
Proof.
  intros Hparam Hacc. unfold addParameter.
  destruct (resolveParameter doc param) as [po|] eqn:Hres; [|exact Hacc].
  destruct (p_schema po) as [sch|] eqn:Hsch; [|exact Hacc].
  simpl. apply allowedEntries_obj_set; [|exact Hacc].
  apply allowed_withStringFallback.
  pose proof (convertFresh_allowed doc sch (snd acc)
                (resolveParameter_refs doc Hdoc param po sch Hparam Hres Hsch)) as Hout.
  destruct (is_truthy (p_description po)); [now apply allowed_set_description | exact Hout].
Qed.

Lemma fold_addParameter_allowed (ps : list parameterOrRef)
    (acc : inputAcc * gmap string jschema) :
  (forall param, In param ps -> componentRefs doc (payload_refs (PParameter param))) ->
  allowedEntries targets (fst (fst acc)) ->
  allowedEntries targets (fst (fst (fold_left (addParameter doc) ps acc))).
Proof.
  revert acc. induction ps as [|param ps IH]; intros acc Hps Hacc; simpl; [exact Hacc|].
  apply IH; [intros p Hp; apply Hps; now right|].
  apply addParameter_allowed; [apply Hps; now left | exact Hacc].
Qed.

Lemma mergeProperties_allowed (props : list (string * jschema))
    (required : option (list string)) (acc : inputAcc) :
  allowedEntries targets props -> allowedEntries targets (fst acc) ->
  allowedEntries targets (fst (mergeProperties props required acc)).
Proof.
  unfold mergeProperties. simpl. generalize (fst acc) as dict.
  induction props as [|[k v] props IH]; intros dict Hprops Hdict; simpl; [exact Hdict|].
  apply Forall_cons in Hprops as [Hv Hprops].
  apply IH; [exact Hprops|].
  apply allowedEntries_obj_set; [|exact Hdict]. now apply allowed_withStringFallback.
Qed.

Lemma addRequestBody_allowed (body : option requestBodyOrRef)
    (acc : inputAcc * gmap string jschema) :
  (forall b, body = Some b -> componentRefs doc (payload_refs (PRequestBody b))) ->
  allowedEntries targets (fst (fst acc)) ->
  allowedEntries targets (fst (fst (addRequestBody doc body acc))).
Proof.
  intros Hbody Hacc. unfold addRequestBody.
  destruct body as [b|]; [|exact Hacc].
  specialize (Hbody b eq_refl).
  destruct (resolveRequestBody doc b) as [bo|] eqn:Hres; [|exact Hacc].
  destruct (rb_content bo) as [content|] eqn:Hcontent; [|exact Hacc].
  destruct (contentSchema content "multipart/form-data") as [sch|] eqn:Hform.
  - pose proof (convertFresh_allowed doc sch (snd acc)
                  (resolveRequestBody_refs doc Hdoc b bo content _ sch Hbody Hres Hcontent
                     Hform)) as Hout.
    destruct (js_properties (fst (convertFresh doc sch (snd acc)))) as [props|] eqn:Hprops;
      [|exact Hacc].
    destruct (is_literal "object" (js_type (fst (convertFresh doc sch (snd acc)))));
      [|exact Hacc].
    cbn [fst snd]. apply mergeProperties_allowed; [|exact Hacc].
    exact (allowed_properties targets _ props Hout Hprops).
  - destruct (contentSchema content "application/json") as [sch|] eqn:Hjson; [|exact Hacc].
    pose proof (convertFresh_allowed doc sch (snd acc)
                  (resolveRequestBody_refs doc Hdoc b bo content _ sch Hbody Hres Hcontent
                     Hjson)) as Hout.
    assert (allowedEntries targets
              (obj_set "body" (withStringFallback (fst (convertFresh doc sch (snd acc))))
                 (fst (fst acc)))) as Hnested.
    { apply allowedEntries_obj_set; [|exact Hacc]. now apply allowed_withStringFallback. }
    destruct (js_properties (fst (convertFresh doc sch (snd acc)))) as [props|] eqn:Hprops;
      [|exact Hnested].
    destruct (is_literal "object" (js_type (fst (convertFresh doc sch (snd acc)))));
      [|exact Hnested].
    cbn [fst snd]. apply mergeProperties_allowed; [|exact Hacc].
    exact (allowed_properties targets _ props Hout Hprops).
Qed.

Lemma extractResponseType_contained (responses : option (list (string * responseOrRef)))
    (cache : gmap string jschema) (rs : jschema) :
  (forall l code resp, responses = Some l -> In (code, resp) l ->
     componentRefs doc (payload_refs (PResponse resp))) ->
  fst (extractResponseType doc responses cache) = Some rs ->
  contained rs.
Proof.
  intros Hresp. unfold extractResponseType.
  destruct responses as [l|]; [|discriminate].
  assert (forall code resp, get code l = Some resp ->
            componentRefs doc (payload_refs (PResponse resp))) as Hget.
  { intros code resp H. apply (Hresp l code resp eq_refl). now apply get_In. }
  set (success := match get "200" l with
                  | Some r => Some r
                  | None =>
                      match get "201" l with
                      | Some r => Some r
                      | None =>
                          match get "202" l with
                          | Some r => Some r
                          | None => get "204" l
                          end
                      end
                  end).
  assert (forall resp, success = Some resp ->
            componentRefs doc (payload_refs (PResponse resp))) as Hsuccess.
  { unfold success. intros resp.
    destruct (get "200" l) eqn:H200; [intros [= <-]; eauto|].
    destruct (get "201" l) eqn:H201; [intros [= <-]; eauto|].
    destruct (get "202" l) eqn:H202; [intros [= <-]; eauto|].
    intros H204. eauto. }
  destruct success as [resp|]; [|discriminate].
  specialize (Hsuccess resp eq_refl).
  destruct (resolveResponse doc resp) as [ro|] eqn:Hres; [|discriminate].
  destruct (r_content ro) as [content|] eqn:Hcontent; [|discriminate].
  destruct (contentSchema content "application/json") as [sch|] eqn:Hjson.
  - cbn [fst]. intros [= <-].
    pose proof (convertFresh_allowed doc sch cache
                  (resolveResponse_refs doc Hdoc resp ro content _ sch Hsuccess Hres Hcontent
                     Hjson)) as Hout.
    set (out := convertFresh doc sch cache) in *.
    set (defs := convertComponentsToJsonSchema doc (snd out)).
    assert (contained (set_defs (fst defs) (fst out))) as Hbase.
    { apply (contained_of_allowed doc).
      - destruct (fst out). simpl. apply components_keys.
      - apply allowed_set_defs; [now apply components_allowed | exact Hout]. }
    match goal with |- contained (if ?c then _ else _) => destruct c end; [|exact Hbase].
    unfold contained in *.
    replace (defKeys (set_description (orElse (r_description ro) "")
                        (set_defs (fst defs) (fst out))))
      with (defKeys (set_defs (fst defs) (fst out))) by now destruct (fst out).
    now apply allowed_set_description.
  - destruct (has (get "image/png" content) || has (get "image/jpeg" content));
      simpl; intros [= <-]; unfold contained;
      repeat first [apply allowed_set_description | apply allowed_set_format];
      apply allowed_typeString.
Qed.

(** The schemas of the tool made of an operation are self-contained when
    the references of the operation and of the document name component
    schemas. *)
Lemma method_contained (op : operation) (method path : string)
    (cache : gmap string jschema) (m : toolMethod) :
  componentRefs doc (tree_refs (Reify.of_operation op)) ->
  fst (convertOperationToMCPMethod doc op method path cache) = Some m ->
  contained (inputSchema m)
  /\ forall rs, returnSchema m = Some rs -> contained rs.
Proof.
  intros Hop. unfold convertOperationToMCPMethod.
  destruct (operationId op) as [methodName|]; [|discriminate].
  destruct (negb (truthy methodName)); [discriminate|].
  simpl. intros [= <-]. simpl.
  set (defs := convertComponentsToJsonSchema doc cache).
  set (acc0 := ((@nil (string * jschema), @nil string), snd defs)).
  set (acc1 := match parameters op with
               | Some ps => fold_left (addParameter doc) ps acc0
               | None => acc0
               end).
  set (acc2 := addRequestBody doc (requestBody op) acc1).
  assert (allowedEntries targets (fst (fst acc1))) as H1.
  { unfold acc1. destruct (parameters op) as [ps|] eqn:Hps; [|constructor].
    apply fold_addParameter_allowed; [|constructor].
    intros param Hparam.
    apply (componentRefs_incl doc _ (tree_refs (Reify.of_operation op))); [|exact Hop].
    now apply (operation_parameter_refs op ps). }
  assert (allowedEntries targets (fst (fst acc2))) as H2.
  { unfold acc2. apply addRequestBody_allowed; [|exact H1].
    intros b Hb.
    apply (componentRefs_incl doc _ (tree_refs (Reify.of_operation op))); [|exact Hop].
    now apply operation_body_refs. }
  split.
  - apply (contained_of_allowed doc).
    + simpl. apply components_keys.
    + apply allowed_set_required, allowed_set_properties; [exact H2|].
      apply allowed_set_type, allowed_set_defs; [|apply allowed_empty].
      now apply components_allowed.
  - intros rs Hrs.
    apply (extractResponseType_contained (responses op) (snd acc2) rs); [|exact Hrs].
    intros l code resp Hl Hin.
    apply (componentRefs_incl doc _ (tree_refs (Reify.of_operation op))); [|exact Hop].
    now apply (operation_response_refs op l code).
Qed.
End Operation.

(** *** The whole build *)

Definition toolContained (m : toolMethod) : Prop :=
  contained (inputSchema m) /\ forall rs, returnSchema m = Some rs -> contained rs.

Section Build.
Context (doc : document).
Hypothesis Hdoc : componentRefs doc (document_refs doc).

Lemma addOperation_contained (path : string) (acc : catalogue * converter)
    (field : string * pathItemField) :
  (forall op, snd field = FOperation op ->
     componentRefs doc (tree_refs (Reify.of_operation op))) ->
  Forall toolContained (methods (fst acc)) ->
  Forall toolContained (methods (fst (addOperation doc path acc field))).
Proof.
  intros Hfield Hacc. unfold addOperation.
  destruct (negb (isOperation (fst field))); [exact Hacc|].
  destruct (snd field) as [op|] eqn:Hop; cbn [fst snd]; [|exact Hacc].
  destruct (fst (convertOperationToMCPMethod doc op (fst field) path (cache (snd acc))))
    as [m|] eqn:Hm; cbn [option_map fst snd methods]; [|exact Hacc].
  apply Forall_app. split; [exact Hacc|].
  constructor; [|constructor].
  exact (method_contained doc Hdoc op (fst field) path (cache (snd acc)) m
           (Hfield op eq_refl) Hm).
Qed.

Lemma addPath_contained (acc : catalogue * converter) (entry : string * option pathItem) :
  (forall item method op, snd entry = Some item -> In (method, FOperation op) item ->
     componentRefs doc (tree_refs (Reify.of_operation op))) ->
  Forall toolContained (methods (fst acc)) ->
  Forall toolContained (methods (fst (addPath doc acc entry))).
Proof.
  intros Hentry. unfold addPath.
  destruct (snd entry) as [item|]; [|auto].
  specialize (Hentry item). revert acc.
  induction item as [|field item IH]; intros acc Hacc; simpl; [exact Hacc|].
  apply IH.
  - intros method op _ Hin. apply (Hentry method op eq_refl). now right.
  - apply addOperation_contained; [|exact Hacc].
    intros op Hop. apply (Hentry (fst field) op eq_refl). left.
    destruct field as [method f]. simpl in Hop. now rewrite Hop.
Qed.

Lemma convertToMCPTools_contained (self : converter) :
  Forall toolContained (methods (fst (convertToMCPTools doc self))).
Proof.
  unfold convertToMCPTools.
  destruct (paths doc) as [ps|] eqn:Hps; [|constructor].
  assert (forall path item method op, In (path, Some item) ps ->
            In (method, FOperation op) item ->
            componentRefs doc (tree_refs (Reify.of_operation op))) as Hops.
  { intros path item method op Hitem Hop.
    apply (componentRefs_incl doc _ (document_refs doc)); [|exact Hdoc].
    exact (document_operation_refs doc ps path method item op Hps Hitem Hop). }
  assert (Forall toolContained (methods (fst (emptyCatalogue, self)))) as Hacc
    by constructor.
  revert Hacc. generalize (emptyCatalogue, self) as acc. clear Hps.
  induction ps as [|entry ps IH]; intros acc Hacc; simpl; [exact Hacc|].
  apply IH.
  - intros path item method op Hin. apply (Hops path item method op). now right.
  - apply addPath_contained; [|exact Hacc].
    intros item method op Hitem. apply (Hops (fst entry) item method op). left.
    destruct entry as [path i]. simpl in Hitem. now rewrite Hitem.
Qed.
End Build.

End DefsFacts.

Import DefsFacts.

(** C5 as the specification states it, for one document: the schemas of
    every tool a new converter builds are self-contained. *)
Definition toolSchemasSelfContained (doc : document) : Prop :=
  forall tool, In tool (methods (fst (convertToMCPTools doc newConverter))) ->
    selfContained (inputSchema tool)
    /\ forall rs, returnSchema tool = Some rs -> selfContained rs.

(** An operation whose parameter points to a component schema the
    document does not have. *)
Definition danglingOperation : operation :=
  Operation (Some "getPet") None None
    (Some [PObj (ParameterObject "pet" "query" None false
                   (Some (SRef "#/components/schemas/Missing" None)))])
    None None.

Definition danglingDocument : document :=
  Document "Test API" (Some [("/pets", Some [("get", FOperation danglingOperation)])]) None.

(** The input schema of [getPet]: the property [pet] points to
    [#/$defs/Missing], and [$defs] is the empty object. *)
Definition danglingInput : jschema :=
  set_required []
    (set_properties
       [("pet", set_anyOf [set_ref "#/$defs/Missing" empty_schema; typeString] empty_schema)]
       (set_type "object" (set_defs [] empty_schema))).

Example danglingDocument_tools :
  methods (fst (convertToMCPTools danglingDocument newConverter))
  = [ToolMethod "getPet" "" danglingInput None].
Proof. vm_compute. reflexivity. Qed.

(** C5, counterexample: a reference to a component schema that does not
    exist is rewritten to a local pointer all the same, and no key of
    [$defs] answers it. *)
Lemma C5_counterexample : ~ toolSchemasSelfContained danglingDocument.
Proof.
  intros H.
  destruct (H (ToolMethod "getPet" "" danglingInput None)) as [Hinput _].
  { rewrite danglingDocument_tools. now left. }
  destruct (Hinput "#/$defs/Missing") as (k & _ & Hk).
  - simpl. now left.
  - reflexivity.
  - exact Hk.
Qed.

(** C5 (amended): when every [$ref] written in a schema of the document
    is [#/components/schemas/<name>] for a component schema [<name>] of
    the document (other than [__proto__]), every tool of the catalogue,
    whatever the converter's cache held before, has an input schema and,
    when present, a return schema in which every [$ref] that starts with
    [#/$defs/] names a key of the schema's own top-level [$defs]. *)
Theorem C5_tool_schemas_self_contained (doc : document) (self : converter)
    (tool : toolMethod) :
  wellReferenced doc ->
  In tool (methods (fst (convertToMCPTools doc self))) ->
  selfContained (inputSchema tool)
  /\ forall rs, returnSchema tool = Some rs -> selfContained rs.
Proof.
  intros Hdoc Hin.
  pose proof (convertToMCPTools_contained doc (wellReferenced_refs doc Hdoc) self) as Hall.
  rewrite List.Forall_forall in Hall. destruct (Hall tool Hin) as [Hinput Hreturn].
  split; [now apply contained_selfContained|].
  intros rs Hrs. now apply contained_selfContained, Hreturn.
Qed.

(** An operation whose parameter and whose response point to the
    component schema [Pet]. *)
Definition petOperation : operation :=
  Operation (Some "getPet") None None
    (Some [PObj (ParameterObject "pet" "query" None false (Some (SRef petPointer None)))])
    None
    (Some [("200", RObj (ResponseObject (Some "A pet")
              (Some [("application/json", MediaType (Some (SRef petPointer None)))])))]).

Definition referencedDocument : document :=
  Document "Test API" (Some [("/pets", Some [("get", FOperation petOperation)])])
    (d_components petDocument).

Definition petDefs : list (string * jschema) :=
  fst (convertComponentsToJsonSchema referencedDocument ∅).

Definition petTool : toolMethod :=
  ToolMethod "getPet" ""
    (set_required []
       (set_properties
          [("pet", set_anyOf [set_ref "#/$defs/Pet" empty_schema; typeString] empty_schema)]
          (set_type "object" (set_defs petDefs empty_schema))))
    (Some (set_description "A pet" (set_defs petDefs (set_ref "#/$defs/Pet" empty_schema)))).

(** C5, witness: the tool of a document whose references name [Pet]. *)
Lemma C5_tool_schemas_self_contained_witness :
  selfContained (inputSchema petTool)
  /\ forall rs, returnSchema petTool = Some rs -> selfContained rs.
Proof.
  apply (C5_tool_schemas_self_contained referencedDocument newConverter petTool).
  - vm_compute. reflexivity.
  - vm_compute. left. reflexivity.
Defined.

(** ** The string fallback *)

Lemma is_literal_true (lit : string) (s : option string) :
  is_literal lit s = true <-> s = Some lit.
Proof.
  unfold is_literal. destruct s as [v|]; [|split; discriminate].
  destruct (String.eqb_spec v lit) as [->|Hne]; split; try reflexivity; try discriminate.
  intros [= ->]. contradiction.
Qed.





(** [{type: "object", properties: {x: {type: "string"}}, additionalProperties: true}] *)
Definition translatedProperty : jschema :=
  set_additionalProperties (inl true)
    (set_properties [("x", typeString)] (set_type "object" empty_schema)).


Module FallbackFacts.

Import DictFacts.



Section Operation.
Context (doc : document).












(** The properties of a translated body, wrapped one by one. *)
Definition mergeWrapped (bodyProperties props : list (string * jschema))
  : list (string * jschema) :=
  fold_left (fun props kv => obj_set (fst kv) (withStringFallback (snd kv)) props)
    bodyProperties props.



Lemma mergeWrapped_value (bodyProperties props : list (string * jschema))
    (k : string) (v : jschema) :
  List.NoDup (keys bodyProperties) -> In (k, v) bodyProperties -> k <> "__proto__" ->
  get k (mergeWrapped bodyProperties props) = Some (withStringFallback v).
Proof.
  unfold mergeWrapped. revert props.
  induction bodyProperties as [|[k' v'] rest IH]; intros props Hnd Hin Hproto; [destruct Hin|].
  simpl in *. apply NoDup_cons_iff in Hnd as [Hfresh Hnd].
  destruct Hin as [[= -> ->]|Hin]; [|now apply IH].
  clear IH. revert props.
  assert (forall props,
            get k props = Some (withStringFallback v) ->
            get k (fold_left (fun props kv =>
                                obj_set (fst kv) (withStringFallback (snd kv)) props)
                     rest props) = Some (withStringFallback v)) as Hrest.
  { induction rest as [|[k1 v1] rest IH]; intros props Hget; simpl; [exact Hget|].
    simpl in Hfresh, Hnd. apply NoDup_cons_iff in Hnd as [_ Hnd].
    apply IH; [tauto | exact Hnd|].
    rewrite get_obj_set_ne; [exact Hget|]. intros ->. apply Hfresh. now left. }
  intros props. apply Hrest. now apply get_obj_set_eq.
Qed.


End Operation.

End FallbackFacts.

Import FallbackFacts.




(** * More of the converter and of the proxy *)

(** ** The catalogue, its lookup and its zip *)

Module CatalogueFacts.

Import Converter NamingFacts DictFacts.

Section Build.
Context (doc : document).

(** The tool [convertToMCPTools] makes of the method an operation was
    converted to: lines 191-194. *)
Definition published (m0 : toolMethod) (counter : N) : toolMethod :=
  ToolMethod (fst (ensureUniqueName (name m0) counter))
    (getDescription doc (description m0)) (inputSchema m0) (returnSchema m0).

(** The entry stands for an operation of the document, under a verb key. *)
Definition inDocument (e : lookupEntry) : Prop :=
  isOperation (le_method e) = true
  /\ exists ps item,
       paths doc = Some ps /\ In (le_path e, Some item) ps
       /\ In (le_method e, FOperation (le_operation e)) item.

(** The tool was converted from the operation of the entry. *)
Definition madeFrom (e : lookupEntry) (m : toolMethod) : Prop :=
  exists cache counter m0,
    fst (convertOperationToMCPMethod doc (le_operation e) (le_method e) (le_path e) cache)
    = Some m0
    /\ m = published m0 counter.

Section Known.
(** The entries of the part of the document read so far. *)
Context (known : lookupEntry -> Prop).

Record sound (c : catalogue) : Prop := Sound {
  sound_lookup : openApiLookup c = mapValues fst (zip c);
  sound_zip :
    Forall (fun kv : string * (lookupEntry * toolMethod) =>
              fst kv = lookupKey (name (snd (snd kv)))
              /\ known (fst (snd kv))
              /\ madeFrom (fst (snd kv)) (snd (snd kv))
              /\ In (snd (snd kv)) (methods c)) (zip c);
  sound_methods :
    Forall (fun m =>
              (exists e, known e /\ madeFrom e m)
              /\ exists e m', get (lookupKey (name m)) (zip c) = Some (e, m')
                              /\ name m' = name m) (methods c)
}.

Lemma sound_empty : sound emptyCatalogue.
Proof. split; simpl; [reflexivity | constructor | constructor]. Qed.

Lemma lookupKey_not_proto (n : string) : lookupKey n <> "__proto__".
Proof. unfold lookupKey, apiName. simpl. discriminate. Qed.

(** One more tool, entered in the three places. *)
Lemma sound_add (c : catalogue) (e : lookupEntry) (m : toolMethod) :
  known e -> madeFrom e m -> sound c ->
  sound (Catalogue (methods c ++ [m])
           (obj_set (lookupKey (name m)) e (openApiLookup c))
           (obj_set (lookupKey (name m)) (e, m) (zip c))).
Proof.
  intros Hknown Hmade [Hlookup Hzip Hmethods]. split; simpl.
  - rewrite Hlookup. symmetry. apply (mapValues_obj_set fst).
  - apply Forall_obj_set.
    + simpl. repeat split; try assumption. apply in_or_app. right. now left.
    + eapply List.Forall_impl; [|exact Hzip].
      intros [k [e' m']] (Hk & Hkn & Hm & Hin). simpl in *.
      repeat split; try assumption. apply in_or_app. now left.
  - apply Forall_app. split.
    + eapply List.Forall_impl; [|exact Hmethods].
      intros m1 [Hfrom (e1 & m1' & Hget & Hname)]. split; [exact Hfrom|].
      destruct (String.eqb_spec (lookupKey (name m1)) (lookupKey (name m))) as [Heq|Hne].
      * exists e, m. rewrite Heq. split.
        -- apply get_obj_set_eq, lookupKey_not_proto.
        -- apply lookupKey_inj in Heq. now symmetry.
      * exists e1, m1'. split; [|exact Hname].
        now rewrite get_obj_set_ne.
    + constructor; [|constructor]. split.
      * now exists e.
      * exists e, m. split; [|reflexivity].
        apply get_obj_set_eq, lookupKey_not_proto.
Qed.

Lemma addOperation_sound (path : string) (acc : catalogue * converter)
    (field : string * pathItemField) :
  (forall op, isOperation (fst field) = true -> snd field = FOperation op ->
     known (LookupEntry op (fst field) path)) ->
  sound (fst acc) -> sound (fst (addOperation doc path acc field)).
Proof.
  intros Hfield Hacc. unfold addOperation.
  destruct (isOperation (fst field)) eqn:Hverb; cbn [negb]; [|exact Hacc].
  destruct (snd field) as [op|] eqn:Hop; cbn [fst snd]; [|exact Hacc].
  destruct (fst (convertOperationToMCPMethod doc op (fst field) path (cache (snd acc))))
    as [m0|] eqn:Hm; cbn [option_map fst snd]; [|exact Hacc].
  apply (sound_add (fst acc) (LookupEntry op (fst field) path)
           (published m0 (nameCounter (snd acc)))).
  - now apply Hfield.
  - exists (cache (snd acc)), (nameCounter (snd acc)), m0. split; [exact Hm | reflexivity].
  - exact Hacc.
Qed.
End Known.

Lemma sound_weaken (known known' : lookupEntry -> Prop) (c : catalogue) :
  (forall e, known e -> known' e) -> sound known c -> sound known' c.
Proof.
  intros Himp [Hlookup Hzip Hmethods]. split; [exact Hlookup | |].
  - eapply List.Forall_impl; [|exact Hzip]. intros kv (Hk & Hkn & Hm & Hin). auto.
  - eapply List.Forall_impl; [|exact Hmethods].
    intros m [(e & Hkn & Hm) Hget]. split; [|exact Hget]. exists e. auto.
Qed.

Lemma addPath_sound (acc : catalogue * converter) (entry : string * option pathItem) :
  (forall item method op, snd entry = Some item -> isOperation method = true ->
     In (method, FOperation op) item -> inDocument (LookupEntry op method (fst entry))) ->
  sound inDocument (fst acc) -> sound inDocument (fst (addPath doc acc entry)).
Proof.
  intros Hentry. unfold addPath.
  destruct (snd entry) as [item|]; [|auto].
  specialize (Hentry item). revert acc.
  induction item as [|field item IH]; intros acc Hacc; simpl; [exact Hacc|].
  apply IH.
  - intros method op _ Hverb Hin. apply (Hentry method op eq_refl Hverb). now right.
  - apply addOperation_sound; [|exact Hacc].
    intros op Hverb Hop. apply (Hentry (fst field) op eq_refl Hverb). left.
    destruct field as [method f]. simpl in Hop. now rewrite Hop.
Qed.

(** What [convertToMCPTools] returns is sound, whatever the converter
    held before. *)
Lemma convertToMCPTools_sound (self : converter) :
  sound inDocument (fst (convertToMCPTools doc self)).
Proof.
  unfold convertToMCPTools.
  destruct (paths doc) as [ps|] eqn:Hps; [|apply sound_empty].
  assert (forall path item method op, In (path, Some item) ps ->
            isOperation method = true -> In (method, FOperation op) item ->
            inDocument (LookupEntry op method path)) as Hops.
  { intros path item method op Hitem Hverb Hop. split; [exact Hverb|].
    exists ps, item. simpl. rewrite Hps. auto. }
  assert (forall rest acc,
            (forall path item, In (path, Some item) rest -> In (path, Some item) ps) ->
            sound inDocument (fst acc) ->
            sound inDocument (fst (fold_left (addPath doc) rest acc))) as Hfold;
    [|apply Hfold; [auto | apply sound_empty]].
  induction rest as [|entry rest IH]; intros acc Hsub Hacc; simpl; [exact Hacc|].
  apply IH.
  - intros path item Hin. apply Hsub. now right.
  - apply addPath_sound; [|exact Hacc].
    intros item method op Hitem Hverb Hin.
    apply (Hops (fst entry) item method op); [|exact Hverb | exact Hin].
    apply Hsub. left. destruct entry as [path i]. simpl in Hitem. now rewrite Hitem.
Qed.

Lemma convertOperationToMCPMethod_description (op : operation) (method path : string)
    (cache : gmap string jschema) (m0 : toolMethod) :
  fst (convertOperationToMCPMethod doc op method path cache) = Some m0 ->
  description m0 = buildDescription doc op.
Proof.
  unfold convertOperationToMCPMethod.
  destruct (operationId op) as [id|]; [|discriminate].
  destruct (negb (truthy id)); [discriminate|].
  simpl. now intros [= <-].
Qed.

(** The name and the description of a tool, read off its operation. *)
Lemma madeFrom_name (e : lookupEntry) (m : toolMethod) :
  madeFrom e m ->
  exists id counter,
    operationName (le_operation e) = Some id
    /\ name m = fst (ensureUniqueName id counter)
    /\ description m = getDescription doc (buildDescription doc (le_operation e)).
Proof.
  intros (cache & counter & m0 & Hm0 & ->).
  pose proof (convertOperationToMCPMethod_name doc (le_operation e) (le_method e)
                (le_path e) cache) as Hname.
  rewrite Hm0 in Hname. simpl in Hname.
  exists (name m0), counter. split; [now symmetry|]. split; [reflexivity|].
  simpl. now rewrite (convertOperationToMCPMethod_description _ _ _ _ _ Hm0).
Qed.

(** The entry found under the key of a tool. *)
Lemma tool_entry (self : converter) (m : toolMethod) :
  In m (methods (fst (convertToMCPTools doc self))) ->
  exists e m',
    get (lookupKey (name m)) (openApiLookup (fst (convertToMCPTools doc self))) = Some e
    /\ inDocument e /\ madeFrom e m' /\ name m' = name m.
Proof.
  intros Hin.
  destruct (convertToMCPTools_sound self) as [Hlookup Hzip Hmethods].
  rewrite List.Forall_forall in Hmethods.
  destruct (Hmethods m Hin) as [_ (e & m' & Hget & Hname)].
  exists e, m'. split; [|split; [|split]].
  - rewrite Hlookup, get_mapValues, Hget. reflexivity.
  - rewrite List.Forall_forall in Hzip.
    apply TranslatorFacts.get_In in Hget. now destruct (Hzip _ Hget) as (_ & Hkn & _).
  - rewrite List.Forall_forall in Hzip.
    apply TranslatorFacts.get_In in Hget. now destruct (Hzip _ Hget) as (_ & _ & Hm & _).
  - exact Hname.
Qed.
End Build.

End CatalogueFacts.

Import DictFacts CatalogueFacts.

(** The lookup is the zip with the tools left out: the two are keyed alike
    and hold the same operation under every key. *)
Theorem lookup_is_zip_without_tools (doc : document) (self : converter) :
  let c := fst (convertToMCPTools doc self) in
  openApiLookup c = map (fun kv => (fst kv, fst (snd kv))) (zip c)
  /\ keys (openApiLookup c) = keys (zip c).
Proof.
  intros c. destruct (convertToMCPTools_sound doc self) as [Hlookup _ _].
  fold c in Hlookup. split; [exact Hlookup|].
  rewrite Hlookup. unfold keys, mapValues. rewrite map_map. reflexivity.
Qed.

(** In a document all of whose schema pointers name component schemas, so
    that no translation is shared between two tools through the cache,
    every entry of the zip pairs an operation of the document, found under
    a verb key, with the tool converted from that operation, under the key
    made of the name of the tool; and the tool is in the catalogue. *)
Theorem zip_pairs_operation_with_tool (doc : document) (self : converter)
    (k : string) (e : lookupEntry) (m : toolMethod) :
  DefsFacts.wellReferenced doc ->
  In (k, (e, m)) (zip (fst (convertToMCPTools doc self))) ->
  k = (apiName ++ "-" ++ name m)%string
  /\ inDocument doc e
  /\ madeFrom doc e m
  /\ In m (methods (fst (convertToMCPTools doc self))).
Proof.
  intros _ Hin. destruct (convertToMCPTools_sound doc self) as [_ Hzip _].
  rewrite List.Forall_forall in Hzip. exact (Hzip _ Hin).
Qed.

(** The tool of [testDocument]. *)
Definition testTool : toolMethod :=
  ToolMethod "getTest" ""
    (set_required [] (set_properties [] (set_type "object" (set_defs [] empty_schema))))
    None.

Lemma zip_pairs_operation_with_tool_witness :
  "API-getTest" = (apiName ++ "-" ++ name testTool)%string
  /\ inDocument testDocument (LookupEntry (bareOperation "getTest") "get" "/test")
  /\ madeFrom testDocument (LookupEntry (bareOperation "getTest") "get" "/test") testTool
  /\ In testTool (methods (fst (convertToMCPTools testDocument newConverter))).
Proof.
  apply (zip_pairs_operation_with_tool testDocument newConverter).
  - reflexivity.
  - vm_compute. left. reflexivity.
Defined.

(** Every tool of the catalogue comes from an operation of the document
    that has a non-empty identifier: its name is that identifier run
    through [ensureUniqueName], and its description is the description
    built for the operation, with the prefix [Notion | ] exactly when the
    title of the document is [Notion API]. *)
Theorem tool_comes_from_operation (doc : document) (self : converter) (m : toolMethod) :
  In m (methods (fst (convertToMCPTools doc self))) ->
  exists e id counter,
    inDocument doc e
    /\ operationName (le_operation e) = Some id
    /\ name m = fst (ensureUniqueName id counter)
    /\ description m
       = if String.eqb (info_title doc) "Notion API"
         then ("Notion | " ++ buildDescription doc (le_operation e))%string
         else buildDescription doc (le_operation e).
Proof.
  intros Hin. destruct (convertToMCPTools_sound doc self) as [_ _ Hmethods].
  rewrite List.Forall_forall in Hmethods.
  destruct (Hmethods m Hin) as [(e & Hknown & Hmade) _].
  destruct (madeFrom_name doc e m Hmade) as (id & counter & Hid & Hname & Hdesc).
  exists e, id, counter. repeat split; try assumption; try apply Hknown.
Qed.

Lemma tool_comes_from_operation_witness :
  exists e id counter,
    inDocument testDocument e
    /\ operationName (le_operation e) = Some id
    /\ name testTool = fst (ensureUniqueName id counter)
    /\ description testTool
       = if String.eqb (info_title testDocument) "Notion API"
         then ("Notion | " ++ buildDescription testDocument (le_operation e))%string
         else buildDescription testDocument (le_operation e).
Proof.
  apply (tool_comes_from_operation testDocument newConverter testTool).
  vm_compute. left. reflexivity.
Defined.

(** The name under which the list-tools handler looks a tool up is a key
    of the lookup: [findOperation] finds an operation of the document
    there, one that was given the name of the tool, and the hint of the
    listed tool says whether the verb of that operation is [get]. *)
Theorem listed_tool_has_operation (doc : document) (m : toolMethod) :
  In m (methods (fst (convertToMCPTools doc newConverter))) ->
  exists e id counter,
    findOperation (newProxy doc) (apiName ++ "-" ++ name m) = Some e
    /\ inDocument doc e
    /\ operationName (le_operation e) = Some id
    /\ name m = fst (ensureUniqueName id counter)
    /\ lt_readOnlyHint (listTool (newProxy doc) apiName m)
       = String.eqb (toLowerCase (le_method e)) "get".
Proof.
  intros Hin.
  destruct (tool_entry doc newConverter m Hin) as (e & m' & Hget & Hknown & Hmade & Hname).
  destruct (madeFrom_name doc e m' Hmade) as (id & counter & Hid & Hname' & _).
  exists e, id, counter. unfold findOperation, listTool, newProxy.
  cbn [lookup lt_readOnlyHint]. fold (lookupKey (name m)). rewrite Hget.
  split; [reflexivity|]. split; [exact Hknown|]. split; [exact Hid|].
  split; [congruence | reflexivity].
Qed.

Lemma listed_tool_has_operation_witness :
  exists e id counter,
    findOperation (newProxy testDocument) (apiName ++ "-" ++ name testTool) = Some e
    /\ inDocument testDocument e
    /\ operationName (le_operation e) = Some id
    /\ name testTool = fst (ensureUniqueName id counter)
    /\ lt_readOnlyHint (listTool (newProxy testDocument) apiName testTool)
       = String.eqb (toLowerCase (le_method e)) "get".
Proof.
  apply (listed_tool_has_operation testDocument testTool).
  vm_compute. left. reflexivity.
Defined.

(** ** What a translation does to the [Set] and to the cache *)

Module StateFacts.

Import Converter TranslatorFacts.

Section Keeps.
(** A relation between the state before and the state after. *)
Context (R : tstate -> tstate -> Prop).
Hypothesis R_refl : forall st, R st st.
Hypothesis R_trans : forall st1 st2 st3, R st1 st2 -> R st2 st3 -> R st1 st3.

Definition keeps {A : Type} (m : M A) : Prop :=
  forall st a st', m st = Some (a, st') -> R st st'.

Lemma keeps_ret {A : Type} (a : A) : keeps (ret a).
Proof. intros st b st' [= _ <-]. apply R_refl. Qed.

Lemma keeps_bind {A B : Type} (m : M A) (k : A -> M B) :
  keeps m -> (forall a, keeps (k a)) -> keeps (bind m k).
Proof.
  intros Hm Hk st b st' Hrun.
  apply bind_Some in Hrun as (a & st1 & Hrun1 & Hrun2).
  exact (R_trans _ _ _ (Hm _ _ _ Hrun1) (Hk a _ _ _ Hrun2)).
Qed.

(** The pointers the property is about. *)
Context (G : string -> Prop).

Section Loops.
Context (translate : schema -> M jschema).

Definition partKeeps (s : schema) : Prop :=
  Forall G (schema_refs s) -> keeps (translate s).

Lemma keeps_convert_properties (ps : list (string * schema)) :
  list_all (string * schema) (prod_all string (fun _ => unit) schema partKeeps) ps ->
  Forall G (flat_map (fun kv => schema_refs (snd kv)) ps) ->
  forall acc, keeps (convert_properties translate ps acc).
Proof.
  intros Hall. induction Hall as [|kv Hkv ps Hall IH]; intros Hin acc; simpl.
  - apply keeps_ret.
  - simpl in Hin. apply Forall_app in Hin as [Hin1 Hin2].
    destruct Hkv as [k _ v Hv]. simpl in *.
    apply keeps_bind; [now apply Hv|].
    intros a. now apply IH.
Qed.

Lemma keeps_convert_all (l : list schema) :
  list_all schema partKeeps l ->
  Forall G (flat_map schema_refs l) ->
  keeps (convert_all translate l).
Proof.
  intros Hall. induction Hall as [|s Hs l Hall IH]; intros Hin; simpl.
  - apply keeps_ret.
  - simpl in Hin. apply Forall_app in Hin as [Hin1 Hin2].
    apply keeps_bind; [now apply Hs|].
    intros v. apply keeps_bind; [now apply IH|].
    intros vs. apply keeps_ret.
Qed.

Lemma keeps_convertComposition (members : option (list schema))
    (set : list jschema -> jschema -> jschema) (result : jschema) :
  option_all (list schema) (list_all schema partKeeps) members ->
  Forall G (match members with Some l => flat_map schema_refs l | None => [] end) ->
  keeps (convertComposition translate members set result).
Proof.
  intros Hall Hin. destruct Hall as [l Hl|]; simpl.
  - apply keeps_bind; [now apply keeps_convert_all|].
    intros vs. apply keeps_ret.
  - apply keeps_ret.
Qed.

Lemma keeps_convertInline (f : schemaFields)
    (properties : option (list (string * schema)))
    (additionalProperties : option (bool + schema)) (items : option schema)
    (oneOf anyOf allOf : option (list schema)) :
  option_all (list (string * schema))
    (list_all (string * schema) (prod_all string (fun _ => unit) schema partKeeps))
    properties ->
  option_all (bool + schema) (sum_all bool (fun _ => unit) schema partKeeps)
    additionalProperties ->
  option_all schema partKeeps items ->
  option_all (list schema) (list_all schema partKeeps) oneOf ->
  option_all (list schema) (list_all schema partKeeps) anyOf ->
  option_all (list schema) (list_all schema partKeeps) allOf ->
  Forall G (schema_refs (SInline f properties additionalProperties items oneOf anyOf allOf)) ->
  keeps (convertInline translate f properties additionalProperties items oneOf anyOf allOf).
Proof.
  intros Hprops Hap Hitems HoneOf HanyOf HallOf Hin. simpl in Hin.
  apply Forall_app in Hin as [Hin1 Hin].
  apply Forall_app in Hin as [Hin2 Hin].
  apply Forall_app in Hin as [Hin3 Hin].
  apply Forall_app in Hin as [Hin4 Hin].
  apply Forall_app in Hin as [Hin5 Hin6].
  unfold convertInline.
  apply keeps_bind.
  { unfold convertObject.
    destruct (is_literal "object" (s_type f)); [|apply keeps_ret].
    apply keeps_bind.
    - destruct Hprops as [ps Hps|]; [|apply keeps_ret].
      apply keeps_bind; [now apply keeps_convert_properties|].
      intros props. apply keeps_ret.
    - intros r. destruct Hap as [ap Hap|]; [|apply keeps_ret].
      destruct Hap as [b _|sch Hsch].
      + destruct b; apply keeps_ret.
      + apply keeps_bind; [now apply Hsch|]. intros v. apply keeps_ret. }
  intros r1. apply keeps_bind.
  { unfold convertArray.
    destruct (is_literal "array" (s_type f)); [|apply keeps_ret].
    destruct Hitems as [it Hit|]; [|apply keeps_ret].
    apply keeps_bind; [now apply Hit|]. intros v. apply keeps_ret. }
  intros r2. apply keeps_bind; [now apply keeps_convertComposition|].
  intros r3. apply keeps_bind; [now apply keeps_convertComposition|].
  intros r4. now apply keeps_convertComposition.
Qed.
End Loops.

(** When the step at a reference keeps the relation, given that the
    translation of what it resolves to does, every translation keeps
    it. *)
Lemma keeps_convert (doc : document) (resolveRefs : bool) :
  (forall next ref description,
     G ref ->
     (forall recur node, next = Some recur -> Forall G (schema_refs node) ->
        keeps (recur node)) ->
     keeps (convertRef doc resolveRefs next ref description)) ->
  forall fuel s, Forall G (schema_refs s) -> keeps (convert doc resolveRefs fuel s).
Proof.
  intros Href. induction fuel as [|fuel IH]; intros s;
    induction s as [ref description
                   |f properties Hprops additionalProperties Hap items Hitems
                      oneOf HoneOf anyOf HanyOf allOf HallOf];
    intros Hin; rewrite convert_unfold; simpl.
  - apply Href; [now apply Forall_inv in Hin|]. intros recur node [=].
  - now apply keeps_convertInline.
  - apply Href; [now apply Forall_inv in Hin|].
    intros recur node [= <-] Hnode. now apply IH.
  - now apply keeps_convertInline.
Qed.
End Keeps.

(** *** The cache only grows *)

(** The [Set] and the cache have grown, and a pointer that was in the
    [Set] without a cache entry still has none. *)
Definition grows (st st' : tstate) : Prop :=
  schemaCache st ⊆ schemaCache st'
  /\ resolvedRefs st ⊆ resolvedRefs st'
  /\ forall r, r ∈ resolvedRefs st -> schemaCache st !! r = None ->
       schemaCache st' !! r = None.

Lemma grows_refl (st : tstate) : grows st st.
Proof. split; [reflexivity|]. split; [reflexivity | auto]. Qed.

Lemma grows_trans (st1 st2 st3 : tstate) : grows st1 st2 -> grows st2 st3 -> grows st1 st3.
Proof.
  intros (Hc1 & Hr1 & Hp1) (Hc2 & Hr2 & Hp2). split; [|split].
  - now transitivity (schemaCache st2).
  - now transitivity (resolvedRefs st2).
  - intros r Hr Hnone. apply Hp2; [set_solver | now apply Hp1].
Qed.

Lemma grows_convertRef (doc : document) (resolveRefs : bool)
    (next : option (schema -> M jschema)) (ref : string) (description : option string) :
  (forall recur node, next = Some recur -> Forall (fun _ => True) (schema_refs node) ->
     keeps grows (recur node)) ->
  keeps grows (convertRef doc resolveRefs next ref description).
Proof.
  intros Hnext st a st' Hrun. unfold convertRef in Hrun.
  destruct (negb resolveRefs && startsWith "#/components/schemas/" ref).
  { injection Hrun as _ <-. apply grows_refl. }
  destruct (lookupRef doc ref st) as [cached|st1|node st1] eqn:Hlook.
  - injection Hrun as _ <-. apply grows_refl.
  - injection Hrun as _ <-.
    apply lookupRef_notResolved in Hlook as (Hmiss & Hcache & Hsub).
    split; [now rewrite Hcache|]. split; [exact Hsub|].
    intros r _ Hnone. now rewrite Hcache.
  - apply lookupRef_resolved in Hlook as (Hmiss & Hnot & -> & _).
    destruct next as [recur|]; [|discriminate].
    destruct (recur node _) as [[converted st2]|] eqn:Hrec; [|discriminate].
    injection Hrun as _ <-.
    assert (Forall (fun _ : string => True) (schema_refs node)) as Htrue
      by (apply List.Forall_forall; auto).
    destruct (Hnext recur node eq_refl Htrue _ _ _ Hrec) as (Hc & Hr & Hp).
    unfold grows, cacheStore. simpl in *.
    assert (schemaCache st2 !! ref = None) as Hfree
      by (apply Hp; [set_solver | exact Hmiss]).
    split; [|split].
    + transitivity (schemaCache st2); [exact Hc | now apply insert_subseteq].
    + set_solver.
    + intros r Hr' Hnone. rewrite lookup_insert_ne by (intros ->; contradiction).
      apply Hp; [set_solver | exact Hnone].
Qed.

Lemma convert_grows (doc : document) (resolveRefs : bool) (fuel : nat) (s : schema) :
  keeps grows (convert doc resolveRefs fuel s).
Proof.
  apply (keeps_convert grows grows_refl grows_trans (fun _ => True)).
  - intros next ref description _. apply grows_convertRef.
  - apply List.Forall_forall. auto.
Qed.

(** *** Preserved component references leave the state alone *)

Definition componentPointer (ref : string) : Prop :=
  startsWith "#/components/schemas/" ref = true.

Lemma convert_preserved_state (doc : document) (fuel : nat) (s : schema) :
  Forall componentPointer (schema_refs s) ->
  keeps eq (convert doc false fuel s).
Proof.
  apply (keeps_convert eq).
  - reflexivity.
  - intros st1 st2 st3. apply eq_trans.
  - intros next ref description Href _ st a st' Hrun. unfold convertRef in Hrun.
    unfold componentPointer in Href. rewrite Href in Hrun. simpl in Hrun.
    now injection Hrun.
Qed.

End StateFacts.

(** ** The cache of the converter during a catalogue build *)

Module BuildFacts.

Import Converter TranslatorFacts StateFacts DefsFacts.

Section Threading.
Context (doc : document).
(** A relation between the cache before and after a step, kept by the
    translation of every schema that is [good]. *)
Context (Q : gmap string jschema -> gmap string jschema -> Prop) (good : schema -> Prop).
Hypothesis Q_refl : forall cache, Q cache cache.
Hypothesis Q_trans : forall c1 c2 c3, Q c1 c2 -> Q c2 c3 -> Q c1 c3.
Hypothesis Q_fresh : forall s cache, good s -> Q cache (snd (convertFresh doc s cache)).

Lemma fold_Q {A S : Type} (step : S -> A -> S) (proj : S -> gmap string jschema)
    (l : list A) (acc : S) :
  (forall x acc', In x l -> Q (proj acc') (proj (step acc' x))) ->
  Q (proj acc) (proj (fold_left step l acc)).
Proof.
  revert acc. induction l as [|x l IH]; intros acc Hstep; simpl; [apply Q_refl|].
  apply (Q_trans _ (proj (step acc x))).
  - apply Hstep. now left.
  - apply IH. intros y acc' Hy. apply Hstep. now right.
Qed.

Definition goodComponents : Prop :=
  forall k s, In (k, s) (componentSchemas doc) -> good s.

(** The schemas the conversion of an operation translates. *)
Definition goodOperation (op : operation) : Prop :=
  (forall ps param po sch,
     parameters op = Some ps -> In param ps ->
     resolveParameter doc param = Some po -> p_schema po = Some sch -> good sch)
  /\ (forall b bo content media sch,
        requestBody op = Some b -> resolveRequestBody doc b = Some bo ->
        rb_content bo = Some content -> contentSchema content media = Some sch -> good sch)
  /\ (forall l code resp ro content sch,
        responses op = Some l -> In (code, resp) l ->
        resolveResponse doc resp = Some ro -> r_content ro = Some content ->
        contentSchema content "application/json" = Some sch -> good sch).

Hypothesis Hcomponents : goodComponents.

Lemma components_Q (cache : gmap string jschema) :
  Q cache (snd (convertComponentsToJsonSchema doc cache)).
Proof.
  unfold convertComponentsToJsonSchema.
  apply (fold_Q (addComponent doc) snd (componentSchemas doc) ([], cache)).
  intros [k s] acc Hin. unfold addComponent. simpl.
  apply Q_fresh. exact (Hcomponents k s Hin).
Qed.

Lemma addParameter_Q (acc : inputAcc * gmap string jschema) (param : parameterOrRef) :
  (forall po sch, resolveParameter doc param = Some po -> p_schema po = Some sch ->
     good sch) ->
  Q (snd acc) (snd (addParameter doc acc param)).
Proof.
  intros Hgood. unfold addParameter.
  destruct (resolveParameter doc param) as [po|] eqn:Hres; [|apply Q_refl].
  destruct (p_schema po) as [sch|] eqn:Hsch; [|apply Q_refl].
  simpl. apply Q_fresh. exact (Hgood po sch eq_refl Hsch).
Qed.

Lemma addRequestBody_Q (body : option requestBodyOrRef)
    (acc : inputAcc * gmap string jschema) :
  (forall b bo content media sch,
     body = Some b -> resolveRequestBody doc b = Some bo ->
     rb_content bo = Some content -> contentSchema content media = Some sch -> good sch) ->
  Q (snd acc) (snd (addRequestBody doc body acc)).
Proof.
  intros Hgood. unfold addRequestBody.
  destruct body as [b|]; [|apply Q_refl].
  destruct (resolveRequestBody doc b) as [bo|] eqn:Hres; [|apply Q_refl].
  destruct (rb_content bo) as [content|] eqn:Hcontent; [|apply Q_refl].
  destruct (contentSchema content "multipart/form-data") as [sch|] eqn:Hform.
  - pose proof (Q_fresh sch (snd acc) (Hgood b bo content _ sch eq_refl Hres Hcontent Hform))
      as Hstep.
    destruct (js_properties (fst (convertFresh doc sch (snd acc)))); [|exact Hstep].
    destruct (is_literal "object" (js_type (fst (convertFresh doc sch (snd acc)))));
      exact Hstep.
  - destruct (contentSchema content "application/json") as [sch|] eqn:Hjson;
      [|apply Q_refl].
    pose proof (Q_fresh sch (snd acc) (Hgood b bo content _ sch eq_refl Hres Hcontent Hjson))
      as Hstep.
    destruct (js_properties (fst (convertFresh doc sch (snd acc)))); [|exact Hstep].
    destruct (is_literal "object" (js_type (fst (convertFresh doc sch (snd acc)))));
      exact Hstep.
Qed.

Lemma extractResponseType_Q (responses : option (list (string * responseOrRef)))
    (cache : gmap string jschema) :
  (forall l code resp ro content sch,
     responses = Some l -> In (code, resp) l ->
     resolveResponse doc resp = Some ro -> r_content ro = Some content ->
     contentSchema content "application/json" = Some sch -> good sch) ->
  Q cache (snd (extractResponseType doc responses cache)).
Proof.
  intros Hgood. unfold extractResponseType.
  destruct responses as [l|]; [|apply Q_refl].
  set (success := match get "200" l with
                  | Some r => Some r
                  | None =>
                      match get "201" l with
                      | Some r => Some r
                      | None =>
                          match get "202" l with
                          | Some r => Some r
                          | None => get "204" l
                          end
                      end
                  end).
  assert (forall resp, success = Some resp -> exists code, In (code, resp) l) as Hsuccess.
  { unfold success. intros resp.
    destruct (get "200" l) eqn:H200; [intros [= <-]; exists "200"; now apply get_In|].
    destruct (get "201" l) eqn:H201; [intros [= <-]; exists "201"; now apply get_In|].
    destruct (get "202" l) eqn:H202; [intros [= <-]; exists "202"; now apply get_In|].
    intros H204. exists "204". now apply get_In. }
  destruct success as [resp|]; [|apply Q_refl].
  destruct (Hsuccess resp eq_refl) as (code & Hin).
  destruct (resolveResponse doc resp) as [ro|] eqn:Hres; [|apply Q_refl].
  destruct (r_content ro) as [content|] eqn:Hcontent; [|apply Q_refl].
  destruct (contentSchema content "application/json") as [sch|] eqn:Hjson.
  - cbn [snd].
    apply (Q_trans _ (snd (convertFresh doc sch cache))).
    + apply Q_fresh. exact (Hgood l code resp ro content sch eq_refl Hin Hres Hcontent Hjson).
    + apply components_Q.
  - destruct (has (get "image/png" content) || has (get "image/jpeg" content));
      apply Q_refl.
Qed.

Lemma convertOperationToMCPMethod_Q (op : operation) (method path : string)
    (cache : gmap string jschema) :
  goodOperation op ->
  Q cache (snd (convertOperationToMCPMethod doc op method path cache)).
Proof.
  intros (Hparams & Hbody & Hresp). unfold convertOperationToMCPMethod.
  destruct (operationId op) as [id|]; [|apply Q_refl].
  destruct (negb (truthy id)); [apply Q_refl|]. cbn [snd].
  eapply Q_trans; [|apply extractResponseType_Q; exact Hresp].
  eapply Q_trans; [|apply addRequestBody_Q; exact Hbody].
  apply (Q_trans _ (snd (convertComponentsToJsonSchema doc cache))); [apply components_Q|].
  destruct (parameters op) as [ps|] eqn:Hps; [|apply Q_refl].
  apply (fold_Q (addParameter doc) snd ps
           ((@nil (string * jschema), @nil string),
            snd (convertComponentsToJsonSchema doc cache))).
  intros param acc Hin. apply addParameter_Q.
  intros po sch. now apply (Hparams ps param).
Qed.

Lemma addOperation_Q (path : string) (acc : catalogue * converter)
    (field : string * pathItemField) :
  (forall op, snd field = FOperation op -> goodOperation op) ->
  Q (cache (snd acc)) (cache (snd (addOperation doc path acc field))).
Proof.
  intros Hfield. unfold addOperation.
  destruct (negb (isOperation (fst field))); [apply Q_refl|].
  destruct (snd field) as [op|] eqn:Hop; cbn [fst snd].
  - pose proof (convertOperationToMCPMethod_Q op (fst field) path (cache (snd acc))
                  (Hfield op eq_refl)) as Hstep.
    destruct (fst (convertOperationToMCPMethod doc op (fst field) path (cache (snd acc))));
      exact Hstep.
  - apply Q_refl.
Qed.

Lemma convertToMCPTools_Q (self : converter) :
  (forall ps path item method op,
     paths doc = Some ps -> In (path, Some item) ps -> In (method, FOperation op) item ->
     goodOperation op) ->
  Q (cache self) (cache (snd (convertToMCPTools doc self))).
Proof.
  intros Hops. unfold convertToMCPTools.
  destruct (paths doc) as [ps|] eqn:Hps; [|apply Q_refl].
  apply (fold_Q (addPath doc) (fun acc => cache (snd acc)) ps (emptyCatalogue, self)).
  intros [path [item|]] acc Hitem; unfold addPath; simpl; [|apply Q_refl].
  apply (fold_Q (addOperation doc path) (fun acc => cache (snd acc)) item acc).
  intros [method f] acc' Hfield. apply addOperation_Q.
  simpl. intros op ->. exact (Hops ps path item method op eq_refl Hitem Hfield).
Qed.
End Threading.

(** *** One translation with a new [Set] *)

Lemma convertFresh_grows (doc : document) (s : schema) (cache : gmap string jschema) :
  cache ⊆ snd (convertFresh doc s cache).
Proof.
  unfold convertFresh. simpl.
  pose proof (convertOpenApiSchemaToJsonSchema_run doc s ∅ false cache) as Hrun.
  destruct (convertOpenApiSchemaToJsonSchema doc s ∅ false cache) as [j st'].
  exact (proj1 (convert_grows doc false _ s _ _ _ Hrun)).
Qed.

Lemma convertFresh_preserved (doc : document) (s : schema) (cache : gmap string jschema) :
  Forall componentPointer (schema_refs s) ->
  snd (convertFresh doc s cache) = cache.
Proof.
  intros Hs. unfold convertFresh. simpl.
  pose proof (convertOpenApiSchemaToJsonSchema_run doc s ∅ false cache) as Hrun.
  destruct (convertOpenApiSchemaToJsonSchema doc s ∅ false cache) as [j st'].
  now rewrite <- (convert_preserved_state doc _ s Hs _ _ _ Hrun).
Qed.

Lemma componentRefs_pointers (doc : document) (l : list string) :
  componentRefs doc l -> Forall componentPointer l.
Proof.
  unfold componentRefs, componentPointer, isComponentRef. rewrite !List.Forall_forall.
  intros H r Hr. now destruct (andb_prop _ _ (H r Hr)).
Qed.

End BuildFacts.

Import StateFacts BuildFacts.

(** A translation never changes or drops an entry of the cache, and never
    takes a pointer out of the [Set] it was handed: both come back with
    what they held, and possibly more. *)
Theorem translation_only_adds_to_cache (doc : document) (s : schema)
    (resolved : gset string) (resolveRefs : bool) (cache : gmap string jschema) :
  let out := convertOpenApiSchemaToJsonSchema doc s resolved resolveRefs cache in
  cache ⊆ schemaCache (snd out) /\ resolved ⊆ resolvedRefs (snd out).
Proof.
  intros out.
  pose proof (convertOpenApiSchemaToJsonSchema_run doc s resolved resolveRefs cache) as Hrun.
  fold out in Hrun. destruct out as [j st'].
  destruct (convert_grows doc resolveRefs _ s _ _ _ Hrun) as (Hc & Hr & _).
  split; assumption.
Qed.

(** In preserved mode, a schema in which every pointer starts with
    [#/components/schemas/] is translated without a change to the [Set] or
    to the cache. *)
Theorem preserved_translation_keeps_state (doc : document) (s : schema)
    (resolved : gset string) (cache : gmap string jschema) :
  Forall (fun ref => startsWith "#/components/schemas/" ref = true) (schema_refs s) ->
  snd (convertOpenApiSchemaToJsonSchema doc s resolved false cache) = TState resolved cache.
Proof.
  intros Hs.
  pose proof (convertOpenApiSchemaToJsonSchema_run doc s resolved false cache) as Hrun.
  destruct (convertOpenApiSchemaToJsonSchema doc s resolved false cache) as [j st'].
  simpl. symmetry. exact (convert_preserved_state doc _ s Hs _ _ _ Hrun).
Qed.

(** An array of references to [Pet]. *)
Definition petList : schema :=
  SInline (SchemaFields (Some "array") None None None None None None)
    None None (Some (SRef petPointer (Some "one pet"))) None None None.

Lemma preserved_translation_keeps_state_witness :
  snd (convertOpenApiSchemaToJsonSchema petDocument petList {[ "#/x" ]} false petCache)
  = TState {[ "#/x" ]} petCache.
Proof.
  apply (preserved_translation_keeps_state petDocument petList).
  repeat constructor.
Defined.

(** When every pointer written in a schema of the document names a
    component schema, the cache is never written during a catalogue build:
    the converter ends with the cache it started with. *)
Theorem well_referenced_build_keeps_cache (doc : document) (self : converter) :
  DefsFacts.wellReferenced doc ->
  cache (snd (convertToMCPTools doc self)) = cache self.
Proof.
  intros Hwell. pose proof (DefsFacts.wellReferenced_refs doc Hwell) as Hdoc.
  symmetry.
  apply (convertToMCPTools_Q doc eq (fun s => DefsFacts.componentRefs doc (schema_refs s))).
  - reflexivity.
  - intros c1 c2 c3. apply eq_trans.
  - intros s c Hs. symmetry. apply convertFresh_preserved.
    now apply (componentRefs_pointers doc).
  - intros k s Hin.
    apply (DefsFacts.componentRefs_incl doc _ (document_refs doc)); [|exact Hdoc].
    now apply (DefsFacts.document_component_refs doc k).
  - intros ps path item method op Hps Hitem Hop.
    assert (DefsFacts.componentRefs doc (tree_refs (Reify.of_operation op))) as Hrefs.
    { apply (DefsFacts.componentRefs_incl doc _ (document_refs doc)); [|exact Hdoc].
      exact (DefsFacts.document_operation_refs doc ps path method item op Hps Hitem Hop). }
    split; [|split].
    + intros ps' param po sch Hps' Hin Hres Hsch.
      apply (DefsFacts.resolveParameter_refs doc Hdoc param po sch); try assumption.
      apply (DefsFacts.componentRefs_incl doc _ (tree_refs (Reify.of_operation op)));
        [|exact Hrefs].
      now apply (DefsFacts.operation_parameter_refs op ps').
    + intros b bo content media sch Hb Hres Hcontent Hsch.
      apply (DefsFacts.resolveRequestBody_refs doc Hdoc b bo content media sch);
        try assumption.
      apply (DefsFacts.componentRefs_incl doc _ (tree_refs (Reify.of_operation op)));
        [|exact Hrefs].
      now apply DefsFacts.operation_body_refs.
    + intros l code resp ro content sch Hl Hin Hres Hcontent Hsch.
      apply (DefsFacts.resolveResponse_refs doc Hdoc resp ro content "application/json" sch);
        try assumption.
      apply (DefsFacts.componentRefs_incl doc _ (tree_refs (Reify.of_operation op)));
        [|exact Hrefs].
      now apply (DefsFacts.operation_response_refs op l code).
Qed.

Lemma well_referenced_build_keeps_cache_witness :
  cache (snd (convertToMCPTools referencedDocument (ConverterState petCache 7)))
  = petCache.
Proof.
  apply (well_referenced_build_keeps_cache referencedDocument (ConverterState petCache 7)).
  vm_compute. reflexivity.
Defined.

(** ** The structural part of an inline schema *)

Module ShapeFacts.

Import Converter TranslatorFacts InlineFacts.

(** The scalar part sets none of the structural fields. *)
Lemma convert_fields_flat (f : schemaFields) :
  js_properties (convert_fields f) = None
  /\ js_required (convert_fields f) = None
  /\ js_additionalProperties (convert_fields f) = None
  /\ js_items (convert_fields f) = None.
Proof.
  unfold convert_fields.
  repeat match goal with
         | |- context [match ?x with _ => _ end] => destruct x
         end; repeat split.
Qed.

Section Object.
Context (translate : schema -> M jschema).

Lemma convertObject_skipped (f : schemaFields)
    (properties : option (list (string * schema)))
    (additionalProperties : option (bool + schema)) (result r : jschema) (st st' : tstate) :
  s_type f <> Some "object" ->
  convertObject translate f properties additionalProperties result st = Some (r, st') ->
  r = result.
Proof.
  intros Htype. unfold convertObject, is_literal.
  destruct (s_type f) as [t|].
  - destruct (String.eqb_spec t "object") as [->|_]; [congruence|].
    now intros [= <- _].
  - now intros [= <- _].
Qed.

Lemma convertObject_object (f : schemaFields)
    (properties : option (list (string * schema)))
    (additionalProperties : option (bool + schema)) (result r : jschema) (st st' : tstate) :
  s_type f = Some "object" ->
  js_properties result = None -> js_required result = None ->
  convertObject translate f properties additionalProperties result st = Some (r, st') ->
  js_type r = Some "object"
  /\ js_required r = s_required f
  /\ (js_properties r = None <-> properties = None)
  /\ match additionalProperties with
     | None | Some (inl true) => js_additionalProperties r = Some (inl true)
     | Some (inl false) => js_additionalProperties r = Some (inl false)
     | Some (inr _) => exists v, js_additionalProperties r = Some (inr v)
     end.
Proof.
  intros Htype Hprops Hreq. unfold convertObject, is_literal. rewrite Htype. simpl.
  intros H. apply bind_Some in H as (r1 & st1 & Hstep1 & Hstep2).
  assert (js_type r1 = Some "object" /\ js_required r1 = None
          /\ (js_properties r1 = None <-> properties = None)) as (Ht1 & Hr1 & Hp1).
  { destruct properties as [ps|].
    - apply bind_Some in Hstep1 as (props & st0 & _ & Hret).
      apply ret_Some in Hret as [<- _]. simpl. repeat split; intros; try assumption; try discriminate.
    - apply ret_Some in Hstep1 as [<- _]. simpl. repeat split; intros; try assumption; try reflexivity. }
  set (r2 := match s_required f with
             | Some req => set_required req r1
             | None => r1
             end) in Hstep2.
  assert (js_type r2 = Some "object" /\ js_required r2 = s_required f
          /\ (js_properties r2 = None <-> properties = None)) as (Ht2 & Hr2 & Hp2).
  { unfold r2. destruct (s_required f); simpl; repeat split; intros; try assumption; try reflexivity; now apply Hp1. }
  destruct additionalProperties as [[[|]|sch]|].
  - apply ret_Some in Hstep2 as [<- _]. simpl. repeat split; intros; try assumption; try reflexivity; now apply Hp2.
  - apply ret_Some in Hstep2 as [<- _]. simpl. repeat split; intros; try assumption; try reflexivity; now apply Hp2.
  - apply bind_Some in Hstep2 as (v & st0 & _ & Hret).
    apply ret_Some in Hret as [<- _]. simpl.
    repeat split; intros; try assumption; try (now apply Hp2). now exists v.
  - apply ret_Some in Hstep2 as [<- _]. simpl. repeat split; intros; try assumption; try reflexivity; now apply Hp2.
Qed.

Lemma convertArray_skipped (f : schemaFields) (items : option schema)
    (result r : jschema) (st st' : tstate) :
  s_type f <> Some "array" \/ items = None ->
  convertArray translate f items result st = Some (r, st') ->
  r = result.
Proof.
  intros Hskip. unfold convertArray, is_literal.
  destruct (s_type f) as [t|].
  - destruct (String.eqb_spec t "array") as [->|_].
    + destruct Hskip as [Hskip| ->]; [congruence|]. now intros [= <- _].
    + now intros [= <- _].
  - now intros [= <- _].
Qed.
End Object.

Definition inlineShape (f : schemaFields) (properties : option (list (string * schema)))
    (additionalProperties : option (bool + schema)) (items : option schema)
    (out : jschema) : Prop :=
  (s_type f = Some "object" ->
   js_type out = Some "object"
   /\ js_required out = s_required f
   /\ (js_properties out = None <-> properties = None)
   /\ match additionalProperties with
      | None | Some (inl true) => js_additionalProperties out = Some (inl true)
      | Some (inl false) => js_additionalProperties out = Some (inl false)
      | Some (inr _) => exists v, js_additionalProperties out = Some (inr v)
      end)
  /\ (s_type f <> Some "object" ->
      js_properties out = None /\ js_required out = None
      /\ js_additionalProperties out = None)
  /\ (s_type f <> Some "array" \/ items = None -> js_items out = None).

Lemma convert_inline_shape (doc : document) (resolveRefs : bool) (fuel : nat)
    (f : schemaFields) (properties : option (list (string * schema)))
    (additionalProperties : option (bool + schema)) (items : option schema)
    (oneOf anyOf allOf : option (list schema)) (st st' : tstate) (r : jschema) :
  convert doc resolveRefs fuel
    (SInline f properties additionalProperties items oneOf anyOf allOf) st = Some (r, st') ->
  inlineShape f properties additionalProperties items r.
Proof.
  rewrite convert_unfold. cbn [convertNode]. unfold convertInline. intros Hrun.
  apply bind_Some in Hrun as (r1 & st1 & H1 & Hrun).
  apply bind_Some in Hrun as (r2 & st2 & H2 & Hrun).
  apply bind_Some in Hrun as (r3 & st3 & H3 & Hrun).
  apply bind_Some in Hrun as (r4 & st4 & H4 & H5).
  destruct (convert_fields_flat f) as (Hp0 & Hr0 & Ha0 & Hi0).
  assert (forall {X : Type} (proj : jschema -> X),
            (forall vs j, proj (set_oneOf vs j) = proj j) ->
            (forall vs j, proj (set_anyOf vs j) = proj j) ->
            (forall vs j, proj (set_allOf vs j) = proj j) ->
            proj r = proj r2) as Hlate.
  { intros X proj HoneOf HanyOf HallOf.
    rewrite (convertComposition_preserves proj _ _ _ _ _ _ _ H5 HallOf).
    rewrite (convertComposition_preserves proj _ _ _ _ _ _ _ H4 HanyOf).
    exact (convertComposition_preserves proj _ _ _ _ _ _ _ H3 HoneOf). }
  split; [|split].
  - intros Htype.
    assert (r2 = r1) as ->.
    { apply (convertArray_skipped (convert doc resolveRefs fuel) f items r1 r2 st1 st2);
        [|exact H2].
      left. rewrite Htype. discriminate. }
    destruct (convertObject_object _ f properties additionalProperties _ r1 _ _
                Htype Hp0 Hr0 H1) as (Ht & Hr & Hp & Ha).
    rewrite (Hlate _ js_type), (Hlate _ js_required), (Hlate _ js_properties),
      (Hlate _ js_additionalProperties); try reflexivity.
    repeat split; try assumption; apply Hp.
  - intros Htype.
    assert (r1 = convert_fields f) as ->
      by exact (convertObject_skipped _ f properties additionalProperties _ r1 _ _ Htype H1).
    rewrite (Hlate _ js_properties), (Hlate _ js_required),
      (Hlate _ js_additionalProperties); try reflexivity.
    rewrite (convertArray_preserves js_properties _ _ _ _ _ _ _ H2),
      (convertArray_preserves js_required _ _ _ _ _ _ _ H2),
      (convertArray_preserves js_additionalProperties _ _ _ _ _ _ _ H2);
      try reflexivity.
    repeat split; assumption.
  - intros Hskip.
    assert (r2 = r1) as -> by exact (convertArray_skipped _ f items r1 r2 _ _ Hskip H2).
    rewrite (Hlate _ js_items); try reflexivity.
    rewrite (convertObject_preserves js_items _ _ _ _ _ _ _ _ H1); try reflexivity.
    exact Hi0.
Qed.

End ShapeFacts.

Import ShapeFacts.

(** The object part of an inline schema follows its [type].  When the type
    is [object], the translation has that type, the [required] list as
    written, [properties] exactly when the schema has them, and always
    [additionalProperties]: [true] when the schema says so or says
    nothing, [false] when it says [false], a schema when it gives one.
    When the type is anything else, [properties], [required] and
    [additionalProperties] are dropped; [items] are dropped unless the type
    is [array]. *)
Theorem object_part_follows_type (doc : document) (resolveRefs : bool)
    (resolved : gset string) (cache : gmap string jschema)
    (f : schemaFields) (properties : option (list (string * schema)))
    (additionalProperties : option (bool + schema)) (items : option schema)
    (oneOf anyOf allOf : option (list schema)) :
  inlineShape f properties additionalProperties items
    (fst (convertOpenApiSchemaToJsonSchema doc
            (SInline f properties additionalProperties items oneOf anyOf allOf)
            resolved resolveRefs cache)).
Proof.
  pose proof (convertOpenApiSchemaToJsonSchema_run doc
                (SInline f properties additionalProperties items oneOf anyOf allOf)
                resolved resolveRefs cache) as Hrun.
  destruct (convertOpenApiSchemaToJsonSchema doc _ resolved resolveRefs cache) as [r st'].
  exact (convert_inline_shape _ _ _ _ _ _ _ _ _ _ _ _ _ Hrun).
Qed.

(** ** Binary formats, at any depth *)

(** A place right below an inline schema. *)
Inductive place : Type :=
| InProperty (k : string)
| InAdditionalProperties
| InItems
| InOneOf (i : nat)
| InAnyOf (i : nat)
| InAllOf (i : nat).

Fixpoint distinct (l : list string) : bool :=
  match l with
  | [] => true
  | k :: rest => negb (existsb (String.eqb k) rest) && distinct rest
  end.

(** The part of a schema at a place the translator goes to: a property
    or the schema of the additional properties when the type is [object],
    the items when the type is [array], a member of a composition.  An
    object has one entry per key; the key [__proto__] is no place, since
    the assignment to it creates no property of the translation. *)
Definition partAt (p : place) (s : schema) : option schema :=
  match s with
  | SRef _ _ => None
  | SInline f properties additionalProperties items oneOf anyOf allOf =>
      match p with
      | InProperty k =>
          if is_literal "object" (s_type f) && negb (String.eqb k "__proto__") then
            match properties with
            | Some ps => if distinct (keys ps) then get k ps else None
            | None => None
            end
          else None
      | InAdditionalProperties =>
          if is_literal "object" (s_type f) then
            match additionalProperties with
            | Some (inr sch) => Some sch
            | _ => None
            end
          else None
      | InItems => if is_literal "array" (s_type f) then items else None
      | InOneOf i => match oneOf with Some l => nth_error l i | None => None end
      | InAnyOf i => match anyOf with Some l => nth_error l i | None => None end
      | InAllOf i => match allOf with Some l => nth_error l i | None => None end
      end
  end.

Fixpoint descend (path : list place) (s : schema) : option schema :=
  match path with
  | [] => Some s
  | p :: rest =>
      match partAt p s with
      | Some child => descend rest child
      | None => None
      end
  end.

(** The part of a tool schema at a place. *)
Definition jpartAt (p : place) (j : jschema) : option jschema :=
  match p with
  | InProperty k => match js_properties j with Some ps => get k ps | None => None end
  | InAdditionalProperties =>
      match js_additionalProperties j with
      | Some (inr v) => Some v
      | _ => None
      end
  | InItems => js_items j
  | InOneOf i => match js_oneOf j with Some l => nth_error l i | None => None end
  | InAnyOf i => match js_anyOf j with Some l => nth_error l i | None => None end
  | InAllOf i => match js_allOf j with Some l => nth_error l i | None => None end
  end.

Fixpoint jdescend (path : list place) (j : jschema) : option jschema :=
  match path with
  | [] => Some j
  | p :: rest =>
      match jpartAt p j with
      | Some child => jdescend rest child
      | None => None
      end
  end.

(** A file property: a string in binary format with a description. *)
Definition photoSchema (d : string) : schema :=
  SInline (SchemaFields (Some "string") (Some "binary") (Some d) None None None None)
    None None None None None None.

(** [{type: "string", format: "uri-reference", description: d + suffix}] *)
Definition pathReference (d : string) : jschema :=
  JSchema None (Some "string") (Some "uri-reference")
    (Some (d ++ " (absolute paths to local files)")%string)
    None None None None None None None None None None None.

(** An upload operation whose multipart body has the file property
    [photo]. *)
Definition uploadSchema : schema :=
  SInline (SchemaFields (Some "object") None None None None None None)
    (Some [("photo", photoSchema "The photo")])
    None None None None None.

Definition uploadOperation : operation :=
  Operation (Some "uploadPhoto") None None None
    (Some (RBObj (RequestBodyObject
       (Some [("multipart/form-data", MediaType (Some uploadSchema))]))))
    None.

Definition uploadDocument : document :=
  Document "Test API" (Some [("/upload", Some [("post", FOperation uploadOperation)])]) None.

(** A schema with binary nodes at several depths: the items of an array
    property, and a member of a composition under the additional
    properties. *)
Definition albumSchema : schema :=
  SInline (SchemaFields (Some "object") None None None None None None)
    (Some [("title", SInline (SchemaFields (Some "string") None None None None None None)
                       None None None None None None);
           ("pages", SInline (SchemaFields (Some "array") None None None None None None)
                       None None (Some (photoSchema "A page")) None None None)])
    (Some (inr (SInline (SchemaFields None None None None None None None)
                  None None None
                  (Some [SInline (SchemaFields (Some "integer") None None None None None None)
                           None None None None None None;
                         photoSchema "A scan"])
                  None None)))
    None None None None.

(** An operation whose multipart body has the object property [record],
    with the array [attachments] of objects that each have the file
    property [file], without a description. *)
Definition recordSchema : schema :=
  SInline (SchemaFields (Some "object") None None None None None None)
    (Some [("record",
            SInline (SchemaFields (Some "object") None None None None None None)
              (Some [("notes", SInline (SchemaFields (Some "string") None None None None
                                          None None)
                                 None None None None None None);
                     ("attachments",
                      SInline (SchemaFields (Some "array") None None None None None None)
                        None None
                        (Some (SInline (SchemaFields (Some "object") None None None None
                                          None None)
                                 (Some [("file",
                                         SInline (SchemaFields (Some "string")
                                                    (Some "binary") None None None None
                                                    None)
                                           None None None None None None)])
                                 None None None None None))
                        None None None)])
              None None None None None)])
    None None None None None.

Definition recordOperation : operation :=
  Operation (Some "addMedicalRecord") None None None
    (Some (RBObj (RequestBodyObject
       (Some [("multipart/form-data", MediaType (Some recordSchema))]))))
    None.

Module PlaceFacts.

Import Converter TranslatorFacts InlineFacts DictFacts.

Lemma distinct_NoDup (l : list string) : distinct l = true -> List.NoDup l.
Proof.
  induction l as [|k l IH]; simpl; [constructor|].
  intros H. apply andb_prop in H as [Hk Hl]. constructor; [|now apply IH].
  intros Hin. apply negb_true_iff in Hk.
  assert (existsb (String.eqb k) l = true) as Hex; [|congruence].
  apply existsb_exists. exists k. split; [exact Hin | apply String.eqb_refl].
Qed.

Lemma keys_replace_same {V : Type} (k : string) (v : V) (o : list (string * V)) :
  keys (replace k v o) = keys o.
Proof.
  induction o as [|[k' v'] o IH]; simpl; [reflexivity|].
  destruct (String.eqb k k'); simpl; [reflexivity | now rewrite IH].
Qed.

(** An assignment keeps the keys pairwise different. *)
Lemma NoDup_obj_set {V : Type} (k : string) (v : V) (o : list (string * V)) :
  List.NoDup (keys o) -> List.NoDup (keys (obj_set k v o)).
Proof.
  intros Ho. unfold obj_set. destruct (String.eqb k "__proto__"); [exact Ho|].
  destruct (get k o) as [old|] eqn:Hget.
  - now rewrite keys_replace_same.
  - unfold keys. rewrite map_app. simpl. apply List.NoDup_app.
    + exact Ho.
    + constructor; [intros [] | constructor].
    + intros k' Hin [->|[]].
      now apply (proj1 (RecoveryFacts.get_None_not_In k' o) Hget).
Qed.

Section Loops.
Context (translate : schema -> M jschema).

Lemma convert_properties_other (entries : list (string * schema))
    (acc props : list (string * jschema)) (st st' : tstate) (k : string) :
  convert_properties translate entries acc st = Some (props, st') ->
  ~ In k (keys entries) -> get k props = get k acc.
Proof.
  revert acc st. induction entries as [|[k0 s0] rest IH]; intros acc st H Hk; simpl in H.
  - apply ret_Some in H as [<- _]. reflexivity.
  - apply bind_Some in H as (v & st1 & _ & Hrest). simpl in Hk, Hrest.
    rewrite (IH _ _ Hrest) by tauto.
    apply get_obj_set_ne. intros ->. apply Hk. now left.
Qed.

Lemma convert_properties_NoDup (entries : list (string * schema))
    (acc props : list (string * jschema)) (st st' : tstate) :
  convert_properties translate entries acc st = Some (props, st') ->
  List.NoDup (keys acc) -> List.NoDup (keys props).
Proof.
  revert acc st. induction entries as [|[k0 s0] rest IH]; intros acc st H Hacc; simpl in H.
  - now apply ret_Some in H as [<- _].
  - apply bind_Some in H as (v & st1 & _ & Hrest).
    apply (IH _ _ Hrest). now apply NoDup_obj_set.
Qed.

(** The property of the translation under a key is the translation of
    the property under that key. *)
Lemma convert_properties_part (entries : list (string * schema))
    (acc props : list (string * jschema)) (st st' : tstate) (k : string) (child : schema) :
  convert_properties translate entries acc st = Some (props, st') ->
  List.NoDup (keys entries) -> k <> "__proto__" -> get k entries = Some child ->
  exists st1 st2 jc, translate child st1 = Some (jc, st2) /\ get k props = Some jc.
Proof.
  revert acc st. induction entries as [|[k0 s0] rest IH]; intros acc st H Hnd Hproto Hget;
    [discriminate|].
  simpl in H, Hget, Hnd. apply NoDup_cons_iff in Hnd as [Hfresh Hnd].
  apply bind_Some in H as (v & st1 & Hv & Hrest). simpl in Hv, Hrest.
  destruct (String.eqb_spec k k0) as [->|Hne].
  - injection Hget as <-. exists st, st1, v. split; [exact Hv|].
    rewrite (convert_properties_other _ _ _ _ _ k0 Hrest Hfresh).
    now apply get_obj_set_eq.
  - now apply (IH _ _ Hrest).
Qed.

Lemma convert_all_part (l : list schema) (st st' : tstate) (vs : list jschema)
    (i : nat) (child : schema) :
  convert_all translate l st = Some (vs, st') -> nth_error l i = Some child ->
  exists st1 st2 jc, translate child st1 = Some (jc, st2) /\ nth_error vs i = Some jc.
Proof.
  revert st vs i. induction l as [|s0 l IH]; intros st vs i H Hi; [now destruct i|].
  simpl in H. apply bind_Some in H as (v & st1 & Hv & H).
  apply bind_Some in H as (rest & st2 & Hrest & Hret).
  apply ret_Some in Hret as [<- ->].
  destruct i as [|i]; simpl in Hi.
  - injection Hi as <-. now exists st, st1, v.
  - destruct (IH _ _ _ Hrest Hi) as (sa & sb & jc & Hjc & Hnth). now exists sa, sb, jc.
Qed.
End Loops.

(** The part of the translation at a place is the translation of the part
    of the schema at that place. *)
Lemma convert_part (doc : document) (resolveRefs : bool) (fuel : nat) (s child : schema)
    (st st' : tstate) (j : jschema) (p : place) :
  convert doc resolveRefs fuel s st = Some (j, st') -> partAt p s = Some child ->
  exists st1 st2 jc,
    convert doc resolveRefs fuel child st1 = Some (jc, st2) /\ jpartAt p j = Some jc.
Proof.
  destruct s as [ref d|f properties additionalProperties items oneOf anyOf allOf];
    [discriminate|].
  rewrite convert_unfold. cbn [convertNode]. unfold convertInline. intros Hrun Hpart.
  apply bind_Some in Hrun as (r1 & st1 & H1 & Hrun).
  apply bind_Some in Hrun as (r2 & st2 & H2 & Hrun).
  apply bind_Some in Hrun as (r3 & st3 & H3 & Hrun).
  apply bind_Some in Hrun as (r4 & st4 & H4 & H5).
  assert (forall {X : Type} (proj : jschema -> X),
            (forall vs j, proj (set_oneOf vs j) = proj j) ->
            (forall vs j, proj (set_anyOf vs j) = proj j) ->
            (forall vs j, proj (set_allOf vs j) = proj j) ->
            proj j = proj r2) as Hlate.
  { intros X proj HoneOf HanyOf HallOf.
    rewrite (convertComposition_preserves proj _ _ _ _ _ _ _ H5 HallOf).
    rewrite (convertComposition_preserves proj _ _ _ _ _ _ _ H4 HanyOf).
    exact (convertComposition_preserves proj _ _ _ _ _ _ _ H3 HoneOf). }
  destruct p as [k| | |i|i|i]; cbn [partAt] in Hpart.
  - destruct (is_literal "object" (s_type f)) eqn:Htype; [|discriminate].
    destruct (String.eqb_spec k "__proto__") as [|Hproto]; [discriminate|].
    cbn [negb andb] in Hpart.
    destruct properties as [ps|]; [|discriminate].
    destruct (distinct (keys ps)) eqn:Hd; [|discriminate].
    unfold convertObject in H1. rewrite Htype in H1.
    apply bind_Some in H1 as (r0 & st0 & Hprops & Hrest).
    apply bind_Some in Hprops as (props & stp & Hcp & Hret).
    apply ret_Some in Hret as [<- _].
    destruct (convert_properties_part _ _ _ _ _ _ _ _ Hcp (distinct_NoDup _ Hd) Hproto Hpart)
      as (sa & sb & jc & Hjc & Hget).
    exists sa, sb, jc. split; [exact Hjc|]. unfold jpartAt.
    rewrite (Hlate _ js_properties) by reflexivity.
    rewrite (convertArray_preserves js_properties _ _ _ _ _ _ _ H2) by reflexivity.
    assert (js_properties r1 = Some props) as ->; [|exact Hget].
    destruct additionalProperties as [[[|]|sch]|].
    + apply ret_Some in Hrest as [<- _]. now destruct (s_required f).
    + apply ret_Some in Hrest as [<- _]. now destruct (s_required f).
    + apply bind_Some in Hrest as (v & stv & _ & Hret).
      apply ret_Some in Hret as [<- _]. now destruct (s_required f).
    + apply ret_Some in Hrest as [<- _]. now destruct (s_required f).
  - destruct (is_literal "object" (s_type f)) eqn:Htype; [|discriminate].
    destruct additionalProperties as [[b|sch]|]; try discriminate.
    injection Hpart as ->.
    unfold convertObject in H1. rewrite Htype in H1.
    apply bind_Some in H1 as (r0 & st0 & _ & Hrest).
    apply bind_Some in Hrest as (v & stv & Hv & Hret).
    apply ret_Some in Hret as [<- _].
    exists st0, stv, v. split; [exact Hv|]. unfold jpartAt.
    rewrite (Hlate _ js_additionalProperties) by reflexivity.
    rewrite (convertArray_preserves js_additionalProperties _ _ _ _ _ _ _ H2)
      by reflexivity.
    reflexivity.
  - destruct (is_literal "array" (s_type f)) eqn:Htype; [|discriminate].
    subst items. unfold convertArray in H2. rewrite Htype in H2.
    apply bind_Some in H2 as (v & stv & Hv & Hret).
    apply ret_Some in Hret as [<- _].
    exists st1, stv, v. split; [exact Hv|]. unfold jpartAt.
    now rewrite (Hlate _ js_items) by reflexivity.
  - destruct oneOf as [l|]; [|discriminate].
    unfold convertComposition in H3.
    apply bind_Some in H3 as (vs & stv & Hvs & Hret).
    apply ret_Some in Hret as [<- _].
    destruct (convert_all_part _ _ _ _ _ _ _ Hvs Hpart) as (sa & sb & jc & Hjc & Hnth).
    exists sa, sb, jc. split; [exact Hjc|]. unfold jpartAt.
    rewrite (convertComposition_preserves js_oneOf _ _ _ _ _ _ _ H5) by reflexivity.
    rewrite (convertComposition_preserves js_oneOf _ _ _ _ _ _ _ H4) by reflexivity.
    exact Hnth.
  - destruct anyOf as [l|]; [|discriminate].
    unfold convertComposition in H4.
    apply bind_Some in H4 as (vs & stv & Hvs & Hret).
    apply ret_Some in Hret as [<- _].
    destruct (convert_all_part _ _ _ _ _ _ _ Hvs Hpart) as (sa & sb & jc & Hjc & Hnth).
    exists sa, sb, jc. split; [exact Hjc|]. unfold jpartAt.
    rewrite (convertComposition_preserves js_anyOf _ _ _ _ _ _ _ H5) by reflexivity.
    exact Hnth.
  - destruct allOf as [l|]; [|discriminate].
    unfold convertComposition in H5.
    apply bind_Some in H5 as (vs & stv & Hvs & Hret).
    apply ret_Some in Hret as [<- _].
    destruct (convert_all_part _ _ _ _ _ _ _ Hvs Hpart) as (sa & sb & jc & Hjc & Hnth).
    exists sa, sb, jc. split; [exact Hjc|]. exact Hnth.
Qed.

(** The same all the way down a path. *)
Lemma convert_descend (doc : document) (resolveRefs : bool) (fuel : nat)
    (path : list place) (s child : schema) (st st' : tstate) (j : jschema) :
  convert doc resolveRefs fuel s st = Some (j, st') -> descend path s = Some child ->
  exists st1 st2 jc,
    convert doc resolveRefs fuel child st1 = Some (jc, st2) /\ jdescend path j = Some jc.
Proof.
  revert s st st' j. induction path as [|p path IH]; intros s st st' j Hrun Hpath.
  - injection Hpath as <-. now exists st, st', j.
  - simpl in Hpath. destruct (partAt p s) as [mid|] eqn:Hpart; [|discriminate].
    destruct (convert_part _ _ _ _ _ _ _ _ _ Hrun Hpart) as (sa & sb & jm & Hmid & Hjm).
    destruct (IH _ _ _ _ Hmid Hpath) as (sc & sd & jc & Hjc & Hdown).
    exists sc, sd, jc. split; [exact Hjc|]. simpl. now rewrite Hjm.
Qed.

(** The translation of a file property. *)
Lemma convert_photo (doc : document) (resolveRefs : bool) (fuel : nat) (d : string)
    (st st' : tstate) (j : jschema) :
  truthy d = true ->
  convert doc resolveRefs fuel (photoSchema d) st = Some (j, st') -> j = pathReference d.
Proof.
  intros Ht Hrun. rewrite convert_unfold in Hrun. unfold photoSchema in Hrun. cbn in Hrun.
  unfold convert_fields in Hrun. cbn in Hrun. rewrite Ht in Hrun. cbn in Hrun.
  now injection Hrun as <- _.
Qed.

(** A translated object schema with properties: its type, and its
    properties under pairwise different keys. *)
Lemma convert_object_properties (doc : document) (resolveRefs : bool) (fuel : nat)
    (f : schemaFields) (ps : list (string * schema))
    (additionalProperties : option (bool + schema)) (items : option schema)
    (oneOf anyOf allOf : option (list schema)) (st st' : tstate) (j : jschema) :
  is_literal "object" (s_type f) = true ->
  convert doc resolveRefs fuel
    (SInline f (Some ps) additionalProperties items oneOf anyOf allOf) st = Some (j, st') ->
  js_type j = Some "object"
  /\ exists props, js_properties j = Some props /\ List.NoDup (keys props).
Proof.
  intros Htype. rewrite convert_unfold. cbn [convertNode]. unfold convertInline. intros Hrun.
  apply bind_Some in Hrun as (r1 & st1 & H1 & Hrun).
  apply bind_Some in Hrun as (r2 & st2 & H2 & Hrun).
  apply bind_Some in Hrun as (r3 & st3 & H3 & Hrun).
  apply bind_Some in Hrun as (r4 & st4 & H4 & H5).
  assert (forall {X : Type} (proj : jschema -> X),
            (forall vs j, proj (set_oneOf vs j) = proj j) ->
            (forall vs j, proj (set_anyOf vs j) = proj j) ->
            (forall vs j, proj (set_allOf vs j) = proj j) ->
            proj j = proj r2) as Hlate.
  { intros X proj HoneOf HanyOf HallOf.
    rewrite (convertComposition_preserves proj _ _ _ _ _ _ _ H5 HallOf).
    rewrite (convertComposition_preserves proj _ _ _ _ _ _ _ H4 HanyOf).
    exact (convertComposition_preserves proj _ _ _ _ _ _ _ H3 HoneOf). }
  assert (r2 = r1) as ->.
  { unfold convertArray in H2.
    assert (is_literal "array" (s_type f) = false) as Harray.
    { unfold is_literal in *. destruct (s_type f) as [t|]; [|reflexivity].
      apply String.eqb_eq in Htype. now subst t. }
    rewrite Harray in H2. now apply ret_Some in H2 as [<- _]. }
  rewrite (Hlate _ js_type), (Hlate _ js_properties) by reflexivity.
  unfold convertObject in H1. rewrite Htype in H1.
  apply bind_Some in H1 as (r0 & st0 & Hprops & Hrest).
  apply bind_Some in Hprops as (props & stp & Hcp & Hret).
  apply ret_Some in Hret as [<- _].
  assert (js_type r1 = Some "object" /\ js_properties r1 = Some props) as [-> ->].
  { destruct additionalProperties as [[[|]|sch]|].
    - apply ret_Some in Hrest as [<- _]. now destruct (s_required f).
    - apply ret_Some in Hrest as [<- _]. now destruct (s_required f).
    - apply bind_Some in Hrest as (v & stv & _ & Hret).
      apply ret_Some in Hret as [<- _]. now destruct (s_required f).
    - apply ret_Some in Hrest as [<- _]. now destruct (s_required f). }
  split; [reflexivity|]. exists props. split; [reflexivity|].
  apply (convert_properties_NoDup _ _ _ _ _ _ Hcp). constructor.
Qed.

(** A property of the multipart body of an operation: the property of the
    tool under the same key is its translation, wrapped. *)
Lemma multipart_property (doc : document) (op : operation) (method path : string)
    (cache : gmap string jschema) (m : toolMethod) (b : requestBodyOrRef)
    (bodyObj : requestBodyObject) (content : list (string * mediaType))
    (form prop : schema) (k : string) :
  fst (convertOperationToMCPMethod doc op method path cache) = Some m ->
  requestBody op = Some b -> resolveRequestBody doc b = Some bodyObj ->
  rb_content bodyObj = Some content ->
  contentSchema content "multipart/form-data" = Some form ->
  partAt (InProperty k) form = Some prop ->
  exists props st1 st2 translated,
    js_properties (inputSchema m) = Some props
    /\ get k props = Some (withStringFallback translated)
    /\ convert doc false (fuelFor doc form) prop st1 = Some (translated, st2).
Proof.
  intros Hm Hb Hres Hcontent Hform Hk.
  unfold convertOperationToMCPMethod in Hm.
  destruct (operationId op) as [id|]; [|discriminate].
  destruct (negb (truthy id)); [discriminate|].
  cbv zeta in Hm. cbn [fst] in Hm. injection Hm as <-. cbn [inputSchema].
  set (acc1 := match parameters op with
               | Some ps => fold_left (addParameter doc) ps _
               | None => _
               end).
  exists (fst (fst (addRequestBody doc (requestBody op) acc1))).
  rewrite Hb. unfold addRequestBody. rewrite Hres, Hcontent, Hform. cbv zeta.
  destruct form as [ref rd|g gps gap gitems goneOf ganyOf gallOf]; [discriminate|].
  assert (is_literal "object" (s_type g) = true /\ exists ps, gps = Some ps)
    as [Htype [ps ->]].
  { cbn [partAt] in Hk. destruct (is_literal "object" (s_type g)); [|discriminate].
    split; [reflexivity|]. destruct gps as [ps|]; [now exists ps|].
    destruct (negb (k =? "__proto__")%string); discriminate. }
  assert (k <> "__proto__") as Hproto.
  { cbn [partAt] in Hk. rewrite Htype in Hk.
    destruct (String.eqb_spec k "__proto__"); [discriminate | assumption]. }
  set (sch := SInline g (Some ps) gap gitems goneOf ganyOf gallOf) in *.
  unfold convertFresh.
  pose proof (convertOpenApiSchemaToJsonSchema_run doc sch ∅ false (snd acc1)) as Hrun.
  destruct (convertOpenApiSchemaToJsonSchema doc sch ∅ false (snd acc1)) as [j st'].
  cbn [fst snd].
  destruct (convert_object_properties _ _ _ _ _ _ _ _ _ _ _ _ _ Htype Hrun)
    as (Hjtype & props & Hprops & Hnd).
  destruct (convert_part _ _ _ _ _ _ _ _ _ Hrun Hk) as (st1 & st2 & jc & Hjc & Hplace).
  exists st1, st2, jc. split; [reflexivity|]. split; [|exact Hjc].
  unfold jpartAt in Hplace. rewrite Hprops in Hplace.
  rewrite Hprops, (proj2 (is_literal_true "object" _) Hjtype).
  cbn [fst mergeProperties].
  apply TranslatorFacts.get_In in Hplace.
  exact (mergeWrapped_value props _ k jc Hnd Hplace Hproto).
Qed.

End PlaceFacts.

Import PlaceFacts.

(** C9: a schema node whose format is [binary] is translated to a node
    whose format is [uri-reference] and whose description is the
    description of the node followed by the fixed suffix, or the text of
    the suffix alone when the node has no description, wherever the node
    stands among the inline parts of the schema that is translated: at the
    root, as a property, as the schema of the additional properties, as
    the items of an array, as a member of a composition, at any depth.
    The pointers of the schema and of the document are those of
    [typedRefs], on which the translation returns.  In the tool of an
    operation, when the pointers of the document and of the operation name
    component schemas: a binary node that stands at a path below a
    property of the multipart body is found at the same path below the
    translation that the property of the tool wraps; and a file property
    of the body with a description becomes the property of the tool that
    is exactly the string schema with format [uri-reference] and the
    suffixed description. *)
Theorem C9_binary_becomes_path_reference (doc : document)
    (f : schemaFields) (properties : option (list (string * schema)))
    (additionalProperties : option (bool + schema)) (items : option schema)
    (oneOf anyOf allOf : option (list schema)) :
  s_format f = Some "binary" ->
  let node := SInline f properties additionalProperties items oneOf anyOf allOf in
  let description :=
    match s_description f with
    | Some d => if truthy d then (d ++ " (absolute paths to local files)")%string
                else "absolute paths to local files"
    | None => "absolute paths to local files"
    end in
  (forall (s : schema) (path : list place) (resolved : gset string) (resolveRefs : bool)
          (cache : gmap string jschema),
     typedRefs doc s = true ->
     descend path s = Some node ->
     exists translated,
       jdescend path (fst (convertOpenApiSchemaToJsonSchema doc s resolved resolveRefs cache))
       = Some translated
       /\ js_format translated = Some "uri-reference"
       /\ js_description translated = Some description)
  /\ (forall (op : operation) (method path : string) (cache : gmap string jschema)
             (m : toolMethod) (b : requestBodyOrRef) (bodyObj : requestBodyObject)
             (content : list (string * mediaType)) (form prop : schema) (k : string)
             (below : list place),
        DefsFacts.wellReferenced doc ->
        DefsFacts.componentRefs doc (tree_refs (Reify.of_operation op)) ->
        fst (convertOperationToMCPMethod doc op method path cache) = Some m ->
        requestBody op = Some b -> resolveRequestBody doc b = Some bodyObj ->
        rb_content bodyObj = Some content ->
        contentSchema content "multipart/form-data" = Some form ->
        partAt (InProperty k) form = Some prop ->
        descend below prop = Some node ->
        exists props translatedProperty translated,
          js_properties (inputSchema m) = Some props
          /\ get k props = Some (withStringFallback translatedProperty)
          /\ jdescend below translatedProperty = Some translated
          /\ js_format translated = Some "uri-reference"
          /\ js_description translated = Some description)
  /\ (forall (op : operation) (method path : string) (cache : gmap string jschema)
             (m : toolMethod) (b : requestBodyOrRef) (bodyObj : requestBodyObject)
             (content : list (string * mediaType)) (form : schema) (k d : string),
        DefsFacts.wellReferenced doc ->
        DefsFacts.componentRefs doc (tree_refs (Reify.of_operation op)) ->
        fst (convertOperationToMCPMethod doc op method path cache) = Some m ->
        requestBody op = Some b -> resolveRequestBody doc b = Some bodyObj ->
        rb_content bodyObj = Some content ->
        contentSchema content "multipart/form-data" = Some form ->
        partAt (InProperty k) form = Some (photoSchema d) -> truthy d = true ->
        exists props,
          js_properties (inputSchema m) = Some props
          /\ get k props
             = Some (JSchema None (Some "string") (Some "uri-reference")
                       (Some (d ++ " (absolute paths to local files)")%string)
                       None None None None None None None None None None None))
  /\ (jdescend [InProperty "pages"; InItems]
        (fst (convertOpenApiSchemaToJsonSchema doc albumSchema ∅ false ∅))
      = Some (pathReference "A page")
      /\ jdescend [InAdditionalProperties; InOneOf 1]
           (fst (convertOpenApiSchemaToJsonSchema doc albumSchema ∅ false ∅))
         = Some (pathReference "A scan"))
  /\ option_map (fun m => js_properties (inputSchema m))
       (fst (convertOperationToMCPMethod uploadDocument uploadOperation "post" "/upload" ∅))
     = Some (Some [("photo", pathReference "The photo")])
  /\ option_map
       (fun m =>
          match js_properties (inputSchema m) with
          | Some props =>
              match get "record" props with
              | Some wrapped =>
                  jdescend [InAnyOf 0; InProperty "attachments"; InItems; InProperty "file"]
                    wrapped
              | None => None
              end
          | None => None
          end)
       (fst (convertOperationToMCPMethod uploadDocument recordOperation "post" "/records" ∅))
     = Some (Some (JSchema None (Some "string") (Some "uri-reference")
                     (Some "absolute paths to local files")
                     None None None None None None None None None None None)).
Proof.
  intros Hfmt node description.
  assert (forall (s : schema) (path : list place) (resolved : gset string)
                 (resolveRefs : bool) (cache : gmap string jschema) (child : schema),
            descend path s = Some child ->
            exists st1 st2 jc,
              convert doc resolveRefs (fuelFor doc s) child st1 = Some (jc, st2)
              /\ jdescend path
                   (fst (convertOpenApiSchemaToJsonSchema doc s resolved resolveRefs cache))
                 = Some jc) as Hdown.
  { intros s path resolved resolveRefs cache child Hpath.
    pose proof (convertOpenApiSchemaToJsonSchema_run doc s resolved resolveRefs cache)
      as Hrun.
    destruct (convertOpenApiSchemaToJsonSchema doc s resolved resolveRefs cache)
      as [j st'].
    exact (convert_descend _ _ _ _ _ _ _ _ _ Hrun Hpath). }
  assert (forall (resolveRefs : bool) (fuel : nat) (st1 st2 : tstate) (jc : jschema),
            convert doc resolveRefs fuel node st1 = Some (jc, st2) ->
            js_format jc = Some "uri-reference" /\ js_description jc = Some description)
    as Hnode.
  { intros resolveRefs fuel st1 st2 jc Hjc.
    apply convert_inline_annotations in Hjc as [Hf Hd]. rewrite Hf, Hd.
    unfold description, convert_fields, is_literal. rewrite Hfmt. simpl.
    destruct (s_description f) as [d|]; [destruct (truthy d)|];
      destruct (s_enum f), (s_const f), (s_default f); split; reflexivity. }
  split; [|split; [|split; [|split; [|split]]]].
  - intros s path resolved resolveRefs cache _ Hpath.
    destruct (Hdown s path resolved resolveRefs cache node Hpath)
      as (st1 & st2 & jc & Hjc & Hplace).
    exists jc. split; [exact Hplace|]. exact (Hnode _ _ _ _ _ Hjc).
  - intros op method path cache m b bo content form prop k below _ _
      Hm Hb Hres Hcontent Hform Hk Hbelow.
    destruct (multipart_property _ _ _ _ _ _ _ _ _ _ _ _ Hm Hb Hres Hcontent Hform Hk)
      as (props & st1 & st2 & jprop & Hprops & Hget & Hjprop).
    destruct (convert_descend _ _ _ _ _ _ _ _ _ Hjprop Hbelow)
      as (sa & sb & jc & Hjc & Hplace).
    exists props, jprop, jc. split; [exact Hprops|]. split; [exact Hget|].
    split; [exact Hplace|]. exact (Hnode _ _ _ _ _ Hjc).
  - intros op method path cache m b bo content form k d _ _ Hm Hb Hres Hcontent Hform Hk Ht.
    destruct (multipart_property _ _ _ _ _ _ _ _ _ _ _ _ Hm Hb Hres Hcontent Hform Hk)
      as (props & st1 & st2 & jprop & Hprops & Hget & Hjprop).
    apply (convert_photo _ _ _ _ _ _ _ Ht) in Hjprop. subst jprop.
    exists props. split; [exact Hprops|]. exact Hget.
  - split; vm_compute; reflexivity.
  - vm_compute. reflexivity.
  - vm_compute. reflexivity.
Qed.

(** C9, witness: in [albumSchema] the items of the property [pages] are a
    binary node. *)
Lemma C9_binary_becomes_path_reference_witness :
  exists translated,
    jdescend [InProperty "pages"; InItems]
      (fst (convertOpenApiSchemaToJsonSchema uploadDocument albumSchema ∅ true ∅))
    = Some translated
    /\ js_format translated = Some "uri-reference"
    /\ js_description translated = Some "A page (absolute paths to local files)".
Proof.
  exact (proj1 (C9_binary_becomes_path_reference uploadDocument
                  (SchemaFields (Some "string") (Some "binary") (Some "A page")
                     None None None None)
                  None None None None None None eq_refl)
           albumSchema [InProperty "pages"; InItems] ∅ true ∅ eq_refl eq_refl).
Defined.

(** ** Pointers into the components of the document *)

Module PointerFacts.

Import Converter DictFacts.

(** A name that is one segment of a pointer. *)
Definition oneSegment (k : string) : Prop := ~ In "/"%char (list_ascii_of_string k).

Lemma split_oneSegment (k : string) : oneSegment k -> split "/" k = [k].
Proof.
  unfold oneSegment. induction k as [|c k IH]; simpl; [reflexivity|].
  intros Hk. destruct (Ascii.eqb_spec c "/") as [->|_].
  - exfalso. apply Hk. now left.
  - rewrite IH; [reflexivity|]. intros Hin. apply Hk. now right.
Qed.

Lemma split_segment (a b : string) :
  oneSegment a -> split "/" (a ++ "/" ++ b) = a :: split "/" b.
Proof.
  unfold oneSegment. induction a as [|c a IH]; simpl; [reflexivity|].
  intros Ha. destruct (Ascii.eqb_spec c "/") as [->|_].
  - exfalso. apply Ha. now left.
  - rewrite IH; [reflexivity|]. intros Hin. apply Ha. now right.
Qed.

Lemma startsWith_append (p s : string) : startsWith p (p ++ s) = true.
Proof.
  unfold startsWith. induction p as [|c p IH]; simpl.
  - now destruct s.
  - destruct (ascii_dec c c); [exact IH | contradiction].
Qed.

Lemma sliceFrom_append (p s : string) : sliceFrom (String.length p) (p ++ s) = s.
Proof.
  unfold sliceFrom. induction p as [|c p IH]; simpl.
  - rewrite Nat.sub_0_r. now apply slice0_all.
  - exact IH.
Qed.

Lemma replacePrefix_append (p r s : string) : replacePrefix p r (p ++ s) = (r ++ s)%string.
Proof. unfold replacePrefix. now rewrite startsWith_append, sliceFrom_append. Qed.

(** The parts of the pointer [#/components/<kind>/<k>]. *)
Lemma pointer_parts (kind k : string) :
  oneSegment kind -> oneSegment k ->
  split "/" (replacePrefix "#/" "" ("#/components/" ++ kind ++ "/" ++ k))
  = ["components"; kind; k].
Proof.
  intros Hkind Hk.
  change ("#/components/" ++ kind ++ "/" ++ k)%string
    with ("#/" ++ ("components" ++ "/" ++ (kind ++ "/" ++ k)))%string.
  rewrite replacePrefix_append.
  change (split "/" ("components" ++ "/" ++ (kind ++ "/" ++ k)) = ["components"; kind; k]).
  rewrite (split_segment "components") by (unfold oneSegment; simpl; intuition discriminate).
  now rewrite (split_segment kind), (split_oneSegment k).
Qed.

Lemma get_dict {A : Type} (f : A -> tree) (o : list (string * A)) (k : string) :
  get k (tree_children (Reify.dict f o)) = option_map f (get k o).
Proof. exact (get_mapValues f k o). Qed.

Section Components.
Context (doc : document) (c : components).
Hypothesis Hcomponents : d_components doc = Some c.

Lemma walk_components (kind k : string) :
  walk ["components"; kind; k] (Reify.of_document doc)
  = match get kind (tree_children (Reify.of_components c)) with
    | Some group => get k (tree_children group)
    | None => None
    end.
Proof.
  unfold Reify.of_document. rewrite Hcomponents.
  destruct (paths doc); simpl;
    destruct (get kind _) as [group|]; try reflexivity;
    destruct (get k _); reflexivity.
Qed.

(** What [internalResolveRef] returns for [#/components/<kind>/<k>]. *)
Lemma resolve_component (kind k : string) (resolved : gset string) :
  oneSegment kind -> oneSegment k ->
  let ref := ("#/components/" ++ kind ++ "/" ++ k)%string in
  ref ∉ resolved ->
  internalResolveRef doc ref resolved
  = match get kind (tree_children (Reify.of_components c)) with
    | Some group =>
        match get k (tree_children group) with
        | Some node => (Some node, resolved ∪ {[ref]})
        | None => (None, resolved)
        end
    | None => (None, resolved)
    end.
Proof.
  intros Hkind Hk ref Hnot. unfold internalResolveRef.
  replace (startsWith "#/" ref) with true by reflexivity. cbn [negb].
  rewrite bool_decide_eq_false_2 by exact Hnot.
  unfold ref. rewrite (pointer_parts kind k Hkind Hk), walk_components.
  destruct (get kind _) as [group|]; [|reflexivity].
  destruct (get k _); reflexivity.
Qed.
End Components.

End PointerFacts.

Import PointerFacts.

(** A document with one shared parameter and one shared response; the
    parameter [Alias] is a reference to the first. *)
Definition sharedDocument : document :=
  Document "Test API" None
    (Some (Components
             (d_components petDocument ≫= c_schemas)
             (Some [("Limit", PObj (ParameterObject "limit" "query" (Some "Page size") false
                                      (Some (SInline (SchemaFields (Some "integer") None None
                                                        None None None None)
                                               None None None None None None))));
                    ("Alias", PRef "#/components/parameters/Limit")])
             None
             (Some [("NotFound", RObj (ResponseObject (Some "No such page") None));
                    ("Gone", RRef "#/components/responses/NotFound")]))).

(** A pointer [#/components/schemas/<name>] is resolved to the component
    schema of that name, and the pointer joins the [Set]; right after, the
    same pointer is refused.  When the document has no component of that
    name, and the name is not one of a member every object inherits,
    nothing is resolved and the [Set] stays as it was. *)
Theorem component_pointer_resolves (doc : document) (k : string) (resolved : gset string) :
  oneSegment k ->
  (get k (componentSchemas doc) = None -> inheritedName k = false) ->
  let ref := ("#/components/schemas/" ++ k)%string in
  ref ∉ resolved ->
  internalResolveRef doc ref resolved
  = match get k (componentSchemas doc) with
    | Some s => (Some (Reify.of_schema s), resolved ∪ {[ref]})
    | None => (None, resolved)
    end
  /\ internalResolveRef doc ref (resolved ∪ {[ref]}) = (None, resolved ∪ {[ref]}).
Proof.
  intros Hk _ ref Hnot. split.
  - unfold componentSchemas.
    destruct (d_components doc) as [c|] eqn:Hc.
    + assert (oneSegment "schemas") as Hkind
        by (unfold oneSegment; simpl; intuition discriminate).
      pose proof (resolve_component doc c Hc "schemas" k resolved Hkind Hk Hnot) as Hres.
      cbv zeta in Hres.
      change ("#/components/" ++ "schemas" ++ "/" ++ k)%string with ref in Hres.
      rewrite Hres. unfold Reify.of_components.
      destruct (c_schemas c) as [l|]; simpl.
      * fold (@Reify.dict schema Reify.of_schema l).
        change (map _ l) with (tree_children (Reify.dict Reify.of_schema l)).
        rewrite get_dict. now destruct (get k l).
      * destruct (c_parameters c), (c_requestBodies c), (c_responses c); reflexivity.
    + unfold internalResolveRef.
      replace (startsWith "#/" ref) with true by reflexivity. cbn [negb].
      rewrite bool_decide_eq_false_2 by exact Hnot.
      assert (oneSegment "schemas") as Hkind
        by (unfold oneSegment; simpl; intuition discriminate).
      pose proof (pointer_parts "schemas" k Hkind Hk) as Hparts.
      change ("#/components/" ++ "schemas" ++ "/" ++ k)%string with ref in Hparts.
      rewrite Hparts. unfold Reify.of_document. rewrite Hc. destruct (paths doc); reflexivity.
  - unfold internalResolveRef.
    replace (startsWith "#/" ref) with true by reflexivity. cbn [negb].
    rewrite bool_decide_eq_true_2 by set_solver. reflexivity.
Qed.

Lemma component_pointer_resolves_witness :
  internalResolveRef petDocument petPointer ∅
  = match get "Pet" (componentSchemas petDocument) with
    | Some s => (Some (Reify.of_schema s), ∅ ∪ {[petPointer]})
    | None => (None, ∅)
    end
  /\ internalResolveRef petDocument petPointer (∅ ∪ {[petPointer]})
     = (None, ∅ ∪ {[petPointer]}).
Proof.
  apply (component_pointer_resolves petDocument "Pet" ∅).
  - unfold oneSegment. simpl. intuition discriminate.
  - reflexivity.
  - set_solver.
Defined.

(** A parameter given as [#/components/parameters/<name>] is read as the
    parameter declared under that name, provided that one has a non-empty
    [name]; a declared entry that is itself a reference is not followed,
    and the parameter is dropped like one that is not declared, as long as
    its name is not that of a member every object inherits. *)
Theorem parameter_pointer_resolves (doc : document) (c : components)
    (ps : list (string * parameterOrRef)) (k : string) :
  d_components doc = Some c -> c_parameters c = Some ps -> oneSegment k ->
  (get k ps = None -> inheritedName k = false) ->
  resolveParameter doc (PRef ("#/components/parameters/" ++ k))
  = match get k ps with
    | Some (PObj p) => if truthy (p_name p) then Some p else None
    | _ => None
    end.
Proof.
  intros Hc Hps Hk _. unfold resolveParameter.
  assert (oneSegment "parameters") as Hkind
    by (unfold oneSegment; simpl; intuition discriminate).
  pose proof (resolve_component doc c Hc "parameters" k ∅ Hkind Hk
                ltac:(cbv zeta; set_solver)) as Hres.
  cbv zeta in Hres.
  change ("#/components/" ++ "parameters" ++ "/" ++ k)%string
    with ("#/components/parameters/" ++ k)%string in Hres.
  rewrite Hres. unfold Reify.of_components. rewrite Hps.
  destruct (c_schemas c); simpl;
    change (map _ ps) with (tree_children (Reify.dict Reify.of_parameter ps));
    rewrite get_dict; destruct (get k ps) as [[r|p]|]; reflexivity.
Qed.

Lemma parameter_pointer_resolves_witness :
  resolveParameter sharedDocument (PRef "#/components/parameters/Alias")
  = match get "Alias" [("Limit", PObj (ParameterObject "limit" "query" (Some "Page size")
                                         false
                                         (Some (SInline (SchemaFields (Some "integer") None
                                                           None None None None None)
                                                  None None None None None None))));
                       ("Alias", PRef "#/components/parameters/Limit")] with
    | Some (PObj p) => if truthy (p_name p) then Some p else None
    | _ => None
    end.
Proof.
  apply (parameter_pointer_resolves sharedDocument _ _ "Alias" eq_refl eq_refl).
  - unfold oneSegment. simpl. intuition discriminate.
  - reflexivity.
Defined.

(** A response given as [#/components/responses/<name>] is read as the
    response declared under that name; a declared entry that is itself a
    reference is read as a response without description and content; a
    name that is neither declared nor inherited by every object gives no
    response. *)
Theorem response_pointer_resolves (doc : document) (c : components)
    (rs : list (string * responseOrRef)) (k : string) :
  d_components doc = Some c -> c_responses c = Some rs -> oneSegment k ->
  (get k rs = None -> inheritedName k = false) ->
  resolveResponse doc (RRef ("#/components/responses/" ++ k))
  = match get k rs with
    | Some (RObj ro) => Some ro
    | Some (RRef _) => Some (ResponseObject None None)
    | None => None
    end.
Proof.
  intros Hc Hrs Hk _. unfold resolveResponse.
  assert (oneSegment "responses") as Hkind
    by (unfold oneSegment; simpl; intuition discriminate).
  pose proof (resolve_component doc c Hc "responses" k ∅ Hkind Hk
                ltac:(cbv zeta; set_solver)) as Hres.
  cbv zeta in Hres.
  change ("#/components/" ++ "responses" ++ "/" ++ k)%string
    with ("#/components/responses/" ++ k)%string in Hres.
  rewrite Hres. unfold Reify.of_components. rewrite Hrs.
  destruct (c_schemas c), (c_parameters c), (c_requestBodies c); simpl;
    change (map _ rs) with (tree_children (Reify.dict Reify.of_response rs));
    rewrite get_dict; destruct (get k rs) as [[r|ro]|]; reflexivity.
Qed.

Lemma response_pointer_resolves_witness :
  resolveResponse sharedDocument (RRef "#/components/responses/NotFound")
  = match get "NotFound" [("NotFound", RObj (ResponseObject (Some "No such page") None));
                          ("Gone", RRef "#/components/responses/NotFound")] with
    | Some (RObj ro) => Some ro
    | Some (RRef _) => Some (ResponseObject None None)
    | None => None
    end.
Proof.
  apply (response_pointer_resolves sharedDocument _ _ "NotFound" eq_refl eq_refl).
  - unfold oneSegment. simpl. intuition discriminate.
  - reflexivity.
Defined.

(** ** The OpenAI and Anthropic formats *)

Module FormatFacts.

Import Converter Formats NamingFacts DictFacts.

(** What an OpenAI tool and an Anthropic tool say about an operation. *)
Definition openAIView (t : openAITool) : option string * string * jschema :=
  (oa_name t, oa_description t, oa_parameters t).

Definition anthropicView (t : anthropicTool) : option string * string * jschema :=
  (an_name t, an_description t, an_input_schema t).

(** The operations found under the verb keys, in the order of the
    document. *)
Definition verbOperations (doc : document) : list operation :=
  flat_map (fun entry : string * option pathItem =>
              match snd entry with
              | Some item =>
                  map (fun field : string * pathItemField => readOperation (snd field))
                    (List.filter (fun field : string * pathItemField => isOperation (fst field))
                       item)
              | None => []
              end)
    (match paths doc with Some ps => ps | None => [] end).

Section Agreement.
Context (doc : document).

Definition agree (a : list openAITool * gmap string jschema)
    (b : list anthropicTool * gmap string jschema) : Prop :=
  map openAIView (fst a) = map anthropicView (fst b) /\ snd a = snd b.

Lemma addTool_agree (path : string) (field : string * pathItemField)
    (a : list openAITool * gmap string jschema)
    (b : list anthropicTool * gmap string jschema) :
  agree a b -> agree (addOpenAITool doc path a field) (addAnthropicTool doc path b field).
Proof.
  intros [Htools Hcache]. unfold addOpenAITool, addAnthropicTool.
  destruct (negb (isOperation (fst field))); [now split|].
  rewrite Hcache. split; [|reflexivity].
  simpl. rewrite !map_app, Htools. reflexivity.
Qed.

Lemma fold_addTool_agree (path : string) (item : pathItem)
    (a : list openAITool * gmap string jschema)
    (b : list anthropicTool * gmap string jschema) :
  agree a b ->
  agree (fold_left (addOpenAITool doc path) item a)
        (fold_left (addAnthropicTool doc path) item b).
Proof.
  revert a b. induction item as [|field item IH]; intros a b Hab; simpl; [exact Hab|].
  apply IH. now apply addTool_agree.
Qed.

Lemma convert_agree (cache : gmap string jschema) :
  agree (convertToOpenAITools doc cache) (convertToAnthropicTools doc cache).
Proof.
  unfold convertToOpenAITools, convertToAnthropicTools.
  assert (agree ([], cache) ([], cache)) as Hstart by (split; reflexivity).
  revert Hstart. generalize (@nil openAITool, cache) (@nil anthropicTool, cache).
  induction (match paths doc with Some ps => ps | None => [] end) as [|entry ps IH];
    intros a b Hab; simpl; [exact Hab|].
  apply IH. destruct (snd entry) as [item|]; [|exact Hab].
  now apply fold_addTool_agree.
Qed.

(** The tools follow the operations under the verb keys, one for one. *)
Lemma addOpenAITool_views (path : string) (field : string * pathItemField)
    (a : list openAITool * gmap string jschema) :
  map (fun t => (oa_type t, oa_name t, oa_description t))
    (fst (addOpenAITool doc path a field))
  = map (fun t => (oa_type t, oa_name t, oa_description t)) (fst a)
    ++ map (fun op => ("function", operationId op, getDescription doc (shortDescription op)))
         (map (fun f : string * pathItemField => readOperation (snd f))
            (List.filter (fun f : string * pathItemField => isOperation (fst f)) [field])).
Proof.
  unfold addOpenAITool. simpl.
  destruct (isOperation (fst field)); simpl.
  - now rewrite map_app.
  - now rewrite app_nil_r.
Qed.

Lemma fold_addOpenAITool_views (path : string) (item : pathItem)
    (a : list openAITool * gmap string jschema) :
  map (fun t => (oa_type t, oa_name t, oa_description t))
    (fst (fold_left (addOpenAITool doc path) item a))
  = map (fun t => (oa_type t, oa_name t, oa_description t)) (fst a)
    ++ map (fun op => ("function", operationId op, getDescription doc (shortDescription op)))
         (map (fun f : string * pathItemField => readOperation (snd f))
            (List.filter (fun f : string * pathItemField => isOperation (fst f)) item)).
Proof.
  revert a. induction item as [|field item IH]; intros a; simpl.
  - now rewrite app_nil_r.
  - rewrite IH, addOpenAITool_views. simpl.
    destruct (isOperation (fst field)); simpl; now rewrite <- app_assoc.
Qed.

Lemma convertToOpenAITools_views (cache : gmap string jschema) :
  map (fun t => (oa_type t, oa_name t, oa_description t))
    (fst (convertToOpenAITools doc cache))
  = map (fun op => ("function", operationId op, getDescription doc (shortDescription op)))
      (verbOperations doc).
Proof.
  unfold convertToOpenAITools, verbOperations.
  change (map (fun op => ("function", operationId op, getDescription doc (shortDescription op)))
            (flat_map _ _))
    with (map (fun t => (oa_type t, oa_name t, oa_description t)) (fst (@nil openAITool, cache))
          ++ map (fun op => ("function", operationId op,
                             getDescription doc (shortDescription op)))
               (flat_map (fun entry : string * option pathItem =>
                            match snd entry with
                            | Some item =>
                                map (fun field : string * pathItemField =>
                                       readOperation (snd field))
                                  (List.filter (fun field : string * pathItemField =>
                                                  isOperation (fst field)) item)
                            | None => []
                            end)
                  (match paths doc with Some ps => ps | None => [] end))).
  generalize (@nil openAITool, cache).
  induction (match paths doc with Some ps => ps | None => [] end) as [|entry ps IH];
    intros a; simpl.
  - now rewrite app_nil_r.
  - rewrite IH. destruct (snd entry) as [item|]; simpl; [|reflexivity].
    rewrite fold_addOpenAITool_views, map_app, <- app_assoc. reflexivity.
Qed.
End Agreement.

(** The identifiers that yield an MCP tool are the truthy ones among the
    identifiers of the operations under the verb keys. *)
Lemma toolIds_verbOperations (doc : document) :
  toolIds doc = omap operationName (verbOperations doc).
Proof.
  unfold toolIds, verbOperations.
  induction (match paths doc with Some ps => ps | None => [] end) as [|entry ps IH];
    simpl; [reflexivity|].
  rewrite omap_app, IH. f_equal.
  destruct (snd entry) as [item|]; [|reflexivity].
  induction item as [|[method f] item IHitem]; simpl; [reflexivity|].
  unfold fieldId at 1. simpl.
  destruct (isOperation method); simpl; [|exact IHitem].
  unfold omap in IHitem. rewrite IHitem. now destruct f.
Qed.

Lemma assignNames_short (ids : list string) (counter : N) :
  Forall (fun id => String.length id <= 64) ids ->
  assignNames ids counter = (ids, counter).
Proof.
  intros Hall. revert counter. induction Hall as [|id ids Hid Hall IH]; intros counter.
  - reflexivity.
  - simpl. rewrite (ensureUniqueName_short id counter Hid). simpl. now rewrite IH.
Qed.

End FormatFacts.

Import Formats FormatFacts.

(** The OpenAI and the Anthropic conversion of a document say the same:
    started with the same cache they yield, tool for tool, the same name,
    description and schema, and they leave the same cache. *)
Theorem openai_and_anthropic_tools_agree (doc : document) (cache : gmap string jschema) :
  map openAIView (fst (convertToOpenAITools doc cache))
  = map anthropicView (fst (convertToAnthropicTools doc cache))
  /\ snd (convertToOpenAITools doc cache) = snd (convertToAnthropicTools doc cache).
Proof. exact (convert_agree doc cache). Qed.

(** The OpenAI conversion yields one tool of type [function] for every
    value under a verb key, in the order of the document.  The tool is
    named by the operation identifier as it is written, also when it is
    missing, empty or longer than 64 characters, and described by the
    summary or else the description of the operation, with the title
    prefix of [getDescription]; responses are not listed. *)
Theorem openai_tools_follow_operations (doc : document) (cache : gmap string jschema) :
  map (fun t => (oa_type t, oa_name t, oa_description t))
    (fst (convertToOpenAITools doc cache))
  = map (fun op => ("function", operationId op, getDescription doc (shortDescription op)))
      (verbOperations doc).
Proof. exact (convertToOpenAITools_views doc cache). Qed.

(** An operation whose identifier is present, not empty and at most 64
    characters long. *)
Definition shortlyNamed (op : operation) : bool :=
  match operationId op with
  | Some id => truthy id && (String.length id <=? 64)%nat
  | None => false
  end.

(** When every operation under a verb key has an identifier of 1 to 64
    characters, the three formats name the tools alike: the names of the
    MCP catalogue are the names of the OpenAI tools. *)
Theorem short_names_agree_across_formats (doc : document) (self : converter)
    (cache : gmap string jschema) :
  forallb shortlyNamed (verbOperations doc) = true ->
  map oa_name (fst (convertToOpenAITools doc cache))
  = map Some (toolNames (fst (convertToMCPTools doc self))).
Proof.
  intros Hshort.
  pose proof (convertToOpenAITools_views doc cache) as Hviews.
  apply (f_equal (map (fun v : string * option string * string => snd (fst v)))) in Hviews.
  rewrite !map_map in Hviews. simpl in Hviews.
  transitivity (map operationId (verbOperations doc)); [exact Hviews|]. clear Hviews.
  destruct (convertToMCPTools_names doc self) as [Hnames _]. simpl in Hnames.
  rewrite Hnames, toolIds_verbOperations.
  assert (map operationId (verbOperations doc)
          = map Some (omap operationName (verbOperations doc))
          /\ Forall (fun id => String.length id <= 64)
               (omap operationName (verbOperations doc))) as [Hids Hlen].
  { induction (verbOperations doc) as [|op ops IH]; simpl; [split; [reflexivity|constructor]|].
    simpl in Hshort. apply andb_prop in Hshort as [Hop Hops].
    destruct (IH Hops) as [IH1 IH2].
    unfold shortlyNamed in Hop. unfold operationName.
    destruct (operationId op) as [id|]; [|discriminate].
    apply andb_prop in Hop as [Htruthy Hlen]. rewrite Htruthy. simpl.
    split; [now rewrite IH1|]. constructor; [now apply Nat.leb_le | exact IH2]. }
  now rewrite (assignNames_short _ _ Hlen).
Qed.

Lemma short_names_agree_across_formats_witness :
  map oa_name (fst (convertToOpenAITools sameIdDocument ∅))
  = map Some (toolNames (fst (convertToMCPTools sameIdDocument newConverter))).
Proof.
  apply (short_names_agree_across_formats sameIdDocument newConverter ∅).
  vm_compute. reflexivity.
Defined.

(** ** The plain schema of an operation *)

Module PlainFacts.

Import Converter Formats DictFacts DefsFacts.

(** The accumulator of [convertOperationToMCPMethod] holds what the one of
    [convertOperationToJsonSchema] holds, every property wrapped. *)
Definition wrapped (mcp plain : inputAcc * gmap string jschema) : Prop :=
  fst (fst mcp) = mapValues withStringFallback (fst (fst plain))
  /\ snd (fst mcp) = snd (fst plain)
  /\ snd mcp = snd plain.

Lemma addParameter_wrapped (doc : document) (mcp plain : inputAcc * gmap string jschema)
    (param : parameterOrRef) :
  wrapped mcp plain ->
  wrapped (addParameter doc mcp param) (addSchemaParameter doc plain param).
Proof.
  intros (Hprops & Hreq & Hcache). unfold addParameter, addSchemaParameter.
  destruct (resolveParameter doc param) as [po|]; [|now repeat split].
  destruct (p_schema po) as [sch|]; [|now repeat split].
  rewrite Hcache, Hprops, Hreq. repeat split. simpl.
  symmetry. apply (mapValues_obj_set withStringFallback).
Qed.

Lemma fold_addParameter_wrapped (doc : document) (ps : list parameterOrRef)
    (mcp plain : inputAcc * gmap string jschema) :
  wrapped mcp plain ->
  wrapped (fold_left (addParameter doc) ps mcp) (fold_left (addSchemaParameter doc) ps plain).
Proof.
  revert mcp plain. induction ps as [|param ps IH]; intros mcp plain H; simpl; [exact H|].
  apply IH. now apply addParameter_wrapped.
Qed.

Section Allowed.
Context (doc : document).
Hypothesis Hdoc : componentRefs doc (document_refs doc).

Lemma addSchemaParameter_allowed (acc : inputAcc * gmap string jschema)
    (param : parameterOrRef) :
  componentRefs doc (payload_refs (PParameter param)) ->
  allowedEntries (localTargets doc) (fst (fst acc)) ->
  allowedEntries (localTargets doc) (fst (fst (addSchemaParameter doc acc param))).
Proof.
  intros Hparam Hacc. unfold addSchemaParameter.
  destruct (resolveParameter doc param) as [po|] eqn:Hres; [|exact Hacc].
  destruct (p_schema po) as [sch|] eqn:Hsch; [|exact Hacc].
  simpl. apply allowedEntries_obj_set; [|exact Hacc].
  pose proof (convertFresh_allowed doc sch (snd acc)
                (resolveParameter_refs doc Hdoc param po sch Hparam Hres Hsch)) as Hout.
  destruct (is_truthy (p_description po)); [now apply allowed_set_description | exact Hout].
Qed.

Lemma fold_addSchemaParameter_allowed (ps : list parameterOrRef)
    (acc : inputAcc * gmap string jschema) :
  (forall param, In param ps -> componentRefs doc (payload_refs (PParameter param))) ->
  allowedEntries (localTargets doc) (fst (fst acc)) ->
  allowedEntries (localTargets doc) (fst (fst (fold_left (addSchemaParameter doc) ps acc))).
Proof.
  revert acc. induction ps as [|param ps IH]; intros acc Hps Hacc; simpl; [exact Hacc|].
  apply IH; [intros p Hp; apply Hps; now right|].
  apply addSchemaParameter_allowed; [apply Hps; now left | exact Hacc].
Qed.

Lemma addSchemaBody_allowed (body : option requestBodyOrRef)
    (acc : inputAcc * gmap string jschema) :
  (forall b, body = Some b -> componentRefs doc (payload_refs (PRequestBody b))) ->
  allowedEntries (localTargets doc) (fst (fst acc)) ->
  allowedEntries (localTargets doc) (fst (fst (addSchemaBody doc body acc))).
Proof.
  intros Hbody Hacc. unfold addSchemaBody.
  destruct body as [b|]; [|exact Hacc].
  specialize (Hbody b eq_refl).
  destruct (resolveRequestBody doc b) as [bo|] eqn:Hres; [|exact Hacc].
  destruct (rb_content bo) as [content|] eqn:Hcontent; [|exact Hacc].
  destruct (contentSchema content "application/json") as [sch|] eqn:Hjson; [|exact Hacc].
  pose proof (convertFresh_allowed doc sch (snd acc)
                (resolveRequestBody_refs doc Hdoc b bo content _ sch Hbody Hres Hcontent
                   Hjson)) as Hout.
  destruct (js_properties (fst (convertFresh doc sch (snd acc)))) as [props|] eqn:Hprops;
    [|exact Hacc].
  destruct (is_literal "object" (js_type (fst (convertFresh doc sch (snd acc)))));
    [|exact Hacc].
  cbn [fst snd].
  pose proof (allowed_properties (localTargets doc) _ props Hout Hprops) as Hall.
  clear Hprops. revert Hacc. generalize (fst (fst acc)) as dict.
  induction props as [|[k v] props IH]; intros dict Hdict; simpl; [exact Hdict|].
  apply Forall_cons in Hall as [Hv Hall].
  apply (IH Hall). apply allowedEntries_obj_set; [exact Hv | exact Hdict].
Qed.

Lemma plain_schema_contained (op : operation) (method path : string)
    (cache : gmap string jschema) :
  componentRefs doc (tree_refs (Reify.of_operation op)) ->
  contained (fst (convertOperationToJsonSchema doc op method path cache)).
Proof.
  intros Hop. unfold convertOperationToJsonSchema. cbn [fst].
  set (defs := convertComponentsToJsonSchema doc cache).
  set (acc0 := ((@nil (string * jschema), @nil string), snd defs)).
  set (acc1 := match parameters op with
               | Some ps => fold_left (addSchemaParameter doc) ps acc0
               | None => acc0
               end).
  assert (allowedEntries (localTargets doc) (fst (fst acc1))) as H1.
  { unfold acc1. destruct (parameters op) as [ps|] eqn:Hps; [|constructor].
    apply fold_addSchemaParameter_allowed; [|constructor].
    intros param Hparam.
    apply (componentRefs_incl doc _ (tree_refs (Reify.of_operation op))); [|exact Hop].
    now apply (operation_parameter_refs op ps). }
  assert (allowedEntries (localTargets doc)
            (fst (fst (addSchemaBody doc (requestBody op) acc1)))) as H2.
  { apply addSchemaBody_allowed; [|exact H1].
    intros b Hb.
    apply (componentRefs_incl doc _ (tree_refs (Reify.of_operation op))); [|exact Hop].
    now apply operation_body_refs. }
  apply (contained_of_allowed doc).
  - simpl. now apply components_keys.
  - apply allowed_set_defs; [now apply components_allowed|].
    apply allowed_set_required, allowed_set_properties; [exact H2|].
    apply allowed_set_type, allowed_empty.
Qed.

Lemma openAITools_contained (cache : gmap string jschema) :
  Forall (fun t => contained (oa_parameters t)) (fst (convertToOpenAITools doc cache)).
Proof.
  unfold convertToOpenAITools.
  destruct (paths doc) as [ps|] eqn:Hps; [|constructor].
  assert (forall rest acc,
            (forall path item, In (path, Some item) rest -> In (path, Some item) ps) ->
            Forall (fun t => contained (oa_parameters t)) (fst acc) ->
            Forall (fun t => contained (oa_parameters t))
              (fst (fold_left
                      (fun acc (entry : string * option pathItem) =>
                         match snd entry with
                         | None => acc
                         | Some item => fold_left (addOpenAITool doc (fst entry)) item acc
                         end) rest acc))) as Hfold;
    [|apply Hfold; [auto | constructor]].
  induction rest as [|[path item] rest IH]; intros acc Hsub Hacc; simpl; [exact Hacc|].
  apply IH; [intros p i Hin; apply Hsub; now right|].
  destruct item as [item|]; [|exact Hacc]. simpl.
  assert (forall method f, In (method, f) item ->
            componentRefs doc (tree_refs (Reify.of_operation (readOperation f)))) as Hitem.
  { intros method [op|] Hin; simpl; [|constructor].
    apply (componentRefs_incl doc _ (document_refs doc)); [|exact Hdoc].
    apply (document_operation_refs doc ps path method item op Hps); [|exact Hin].
    apply Hsub. now left. }
  clear Hsub IH. revert acc Hacc.
  induction item as [|[method f] item IHitem]; intros acc Hacc; simpl; [exact Hacc|].
  apply IHitem; [intros m f' Hin; apply (Hitem m); now right|].
  unfold addOpenAITool. cbn [fst snd].
  destruct (isOperation method); cbn [negb fst snd]; [|exact Hacc].
  apply Forall_app. split; [exact Hacc|].
  constructor; [|constructor]. cbn [oa_parameters].
  apply plain_schema_contained. apply (Hitem method). now left.
Qed.
End Allowed.

End PlainFacts.

Import PlainFacts.

(** Let every schema pointer of the document and of the operation name a
    component schema, so that no parameter schema is a cache entry shared
    with another parameter.  For an operation without a request body, the
    input schema of the MCP tool is then the plain schema of
    [convertOperationToJsonSchema] with every property run through the
    string fallback: same property names in the same order, same
    [required], same [$defs]. *)
Theorem input_schema_wraps_plain_schema (doc : document) (op : operation)
    (method path : string) (cache : gmap string jschema) (m : toolMethod) :
  DefsFacts.wellReferenced doc ->
  DefsFacts.componentRefs doc (tree_refs (Reify.of_operation op)) ->
  requestBody op = None ->
  fst (convertOperationToMCPMethod doc op method path cache) = Some m ->
  let plain := fst (convertOperationToJsonSchema doc op method path cache) in
  js_properties (inputSchema m)
  = option_map (map (fun kv => (fst kv, withStringFallback (snd kv)))) (js_properties plain)
  /\ js_required (inputSchema m) = js_required plain
  /\ js_defs (inputSchema m) = js_defs plain
  /\ js_type (inputSchema m) = js_type plain.
Proof.
  intros _ _ Hbody. unfold convertOperationToMCPMethod, convertOperationToJsonSchema.
  destruct (operationId op) as [id|]; [|discriminate].
  destruct (negb (truthy id)); [discriminate|].
  rewrite Hbody. cbn [fst]. intros [= <-]. cbn [inputSchema addRequestBody addSchemaBody].
  set (start := ((@nil (string * jschema), @nil string),
                 snd (convertComponentsToJsonSchema doc cache))).
  assert (wrapped
            (match parameters op with
             | Some ps => fold_left (addParameter doc) ps start
             | None => start
             end)
            (match parameters op with
             | Some ps => fold_left (addSchemaParameter doc) ps start
             | None => start
             end)) as (Hprops & Hreq & _).
  { assert (wrapped start start) as Hstart by (repeat split).
    destruct (parameters op) as [ps|]; [|exact Hstart].
    now apply fold_addParameter_wrapped. }
  simpl. rewrite Hprops, Hreq. repeat split.
Qed.

(** An operation with one query parameter and no request body. *)
Definition limitOperation : operation :=
  Operation (Some "listPets") None None
    (Some [PObj (ParameterObject "limit" "query" None true
                   (Some (SInline (SchemaFields (Some "integer") None None None None None None)
                            None None None None None None)))])
    None None.

Lemma input_schema_wraps_plain_schema_witness :
  exists m,
    fst (convertOperationToMCPMethod petDocument limitOperation "get" "/pets" ∅) = Some m
    /\ let plain :=
         fst (convertOperationToJsonSchema petDocument limitOperation "get" "/pets" ∅) in
       js_properties (inputSchema m)
       = option_map (map (fun kv => (fst kv, withStringFallback (snd kv))))
           (js_properties plain)
       /\ js_required (inputSchema m) = js_required plain
       /\ js_defs (inputSchema m) = js_defs plain
       /\ js_type (inputSchema m) = js_type plain.
Proof.
  eexists. split; [vm_compute; reflexivity|].
  apply (input_schema_wraps_plain_schema petDocument limitOperation "get" "/pets" ∅).
  - reflexivity.
  - constructor.
  - reflexivity.
  - vm_compute. reflexivity.
Defined.

(** When every pointer written in a schema of the document names a
    component schema, the schemas of the OpenAI and of the Anthropic tools
    are self-contained as well: every pointer in them is [#/$defs/<name>]
    for a key [<name>] of their own [$defs]. *)
Theorem other_formats_self_contained (doc : document) (cache : gmap string jschema) :
  DefsFacts.wellReferenced doc ->
  Forall (fun t => DefsFacts.selfContained (oa_parameters t))
    (fst (convertToOpenAITools doc cache))
  /\ Forall (fun t => DefsFacts.selfContained (an_input_schema t))
       (fst (convertToAnthropicTools doc cache)).
Proof.
  intros Hwell.
  pose proof (openAITools_contained doc (DefsFacts.wellReferenced_refs doc Hwell) cache)
    as Hopen.
  assert (Forall (fun t => DefsFacts.selfContained (oa_parameters t))
            (fst (convertToOpenAITools doc cache))) as Hself.
  { eapply List.Forall_impl; [|exact Hopen].
    intros t. apply DefsFacts.contained_selfContained. }
  split; [exact Hself|].
  destruct (convert_agree doc cache) as [Hviews _].
  apply (List.Forall_map openAIView (fun v => DefsFacts.selfContained (snd v))) in Hself.
  rewrite Hviews in Hself.
  now apply (List.Forall_map anthropicView (fun v => DefsFacts.selfContained (snd v))).
Qed.

Lemma other_formats_self_contained_witness :
  Forall (fun t => DefsFacts.selfContained (oa_parameters t))
    (fst (convertToOpenAITools referencedDocument ∅))
  /\ Forall (fun t => DefsFacts.selfContained (an_input_schema t))
       (fst (convertToAnthropicTools referencedDocument ∅)).
Proof.
  apply (other_formats_self_contained referencedDocument ∅).
  vm_compute. reflexivity.
Defined.

(** ** Headers from the environment *)

Import ProxySetup.

(** The headers the proxy starts with are always an object or an array,
    never [null] or a scalar.  They are what [OPENAPI_MCP_HEADERS] parses
    to when that is an object (or array) with at least one key, and then
    [NOTION_TOKEN] is not looked at; in every other case (variable not
    set or empty, text that does not parse, a scalar, [null], no key) they
    are the two headers made of [NOTION_TOKEN], or [{}] without a
    token. *)
Theorem headers_from_env (JSON_parse : string -> option json) (e : env) :
  let headers := parseHeadersFromEnv JSON_parse e in
  (isObjectType headers = true /\ headers <> JNull)
  /\ (headers = tokenHeaders (NOTION_TOKEN e)
      \/ exists text,
           OPENAPI_MCP_HEADERS e = Some text /\ JSON_parse text = Some headers
           /\ ownKeys headers <> [])
  /\ (forall text entry rest,
        OPENAPI_MCP_HEADERS e = Some text -> text <> "" ->
        JSON_parse text = Some (JObj (entry :: rest)) ->
        headers = JObj (entry :: rest)).
Proof.
  intros headers.
  assert (isObjectType (tokenHeaders (NOTION_TOKEN e)) = true
          /\ tokenHeaders (NOTION_TOKEN e) <> JNull) as Htoken.
  { unfold tokenHeaders. destruct (NOTION_TOKEN e) as [t|]; [destruct (truthy t)|];
      split; try reflexivity; discriminate. }
  unfold headers, parseHeadersFromEnv. split; [|split].
  - destruct (OPENAPI_MCP_HEADERS e) as [text|]; [|exact Htoken].
    destruct (truthy text); [|exact Htoken].
    destruct (JSON_parse text) as [[| | | |items|entries]|]; simpl; try exact Htoken.
    + destruct (0 <? length (indices (length items)))%nat; [|exact Htoken].
      split; [reflexivity | discriminate].
    + destruct (0 <? length (keys entries))%nat; [|exact Htoken].
      split; [reflexivity | discriminate].
  - destruct (OPENAPI_MCP_HEADERS e) as [text|]; [|now left].
    destruct (truthy text); [|now left].
    destruct (JSON_parse text) as [[| | | |items|entries]|] eqn:Hparse; simpl;
      try (now left).
    + destruct (Nat.ltb_spec 0 (length (indices (length items)))) as [Hlen|_]; [|now left].
      right. exists text. repeat split; try assumption.
      simpl. intros Hnil. rewrite Hnil in Hlen. simpl in Hlen. lia.
    + destruct (Nat.ltb_spec 0 (length (keys entries))) as [Hlen|_]; [|now left].
      right. exists text. repeat split; try assumption.
      simpl. intros Hnil. rewrite Hnil in Hlen. simpl in Hlen. lia.
  - intros text entry rest -> Htext ->.
    unfold truthy. destruct (String.eqb_spec text ""); [contradiction|]. reflexivity.
Qed.

(** ** Titles of listed tools *)

Module TitleFacts.

(** [c] occurs in [s]. *)
Definition occurs (c : ascii) (s : string) : Prop := In c (list_ascii_of_string s).

Lemma occurs_append (c : ascii) (s t : string) :
  occurs c (s ++ t) <-> occurs c s \/ occurs c t.
Proof.
  unfold occurs. induction s as [|a s IH]; simpl; [tauto|]. rewrite IH. tauto.
Qed.

Lemma occurs_join (c : ascii) (sep : string) (l : list string) :
  occurs c (join sep l) -> occurs c sep \/ exists w, In w l /\ occurs c w.
Proof.
  unfold join. induction l as [|w l IH]; simpl; [contradiction|].
  destruct l as [|w' l].
  - intros H. right. exists w. auto.
  - intros H. apply occurs_append in H as [H|H]; [right; exists w; auto|].
    apply occurs_append in H as [H|H]; [now left|].
    destruct (IH H) as [Hsep|(w0 & Hin & Hc)]; [now left|].
    right. exists w0. auto.
Qed.

(** The two replacements add spaces and nothing else. *)
Lemma occurs_spaceCamel (c : ascii) (s : string) :
  occurs c (spaceCamel s) -> occurs c s \/ c = " "%char.
Proof.
  assert (forall n s, String.length s <= n ->
            occurs c (spaceCamel s) -> occurs c s \/ c = " "%char) as Hgen;
    [|apply (Hgen (String.length s)); lia].
  clear s. unfold occurs.
  induction n as [|n IH]; intros [|a [|b rest]] Hlen; simpl in *; try lia; try tauto.
  destruct (isSmall a && isCapital b); simpl.
  - intros [H|[H|[H|H]]]; auto.
    destruct (IH rest ltac:(lia) H); auto.
  - intros [H|H]; auto.
    destruct (IH (String b rest) ltac:(simpl; lia) H) as [H'|H']; simpl in H'; tauto.
Qed.

Lemma occurs_spaceAcronym (c : ascii) (s : string) :
  occurs c (spaceAcronym s) -> occurs c s \/ c = " "%char.
Proof.
  assert (forall n s, String.length s <= n ->
            occurs c (spaceAcronym s) -> occurs c s \/ c = " "%char) as Hgen;
    [|apply (Hgen (String.length s)); lia].
  clear s. unfold occurs.
  induction n as [|n IH]; intros [|a [|b [|d rest]]] Hlen; simpl in *; try lia; try tauto.
  destruct (isCapital a && isCapital b && isSmall d); simpl.
  - intros [H|[H|[H|[H|H]]]]; auto.
    destruct (IH rest ltac:(lia) H); auto.
  - intros [H|H]; auto.
    destruct (IH (String b (String d rest)) ltac:(simpl; lia) H) as [H'|H'];
      simpl in H'; tauto.
Qed.

(** A piece is made of characters of the text that are no separators. *)
Lemma splitWords_pieces (after : bool) (s w : string) (c : ascii) :
  In w (splitWords after s) -> occurs c w -> occurs c s /\ isSeparator c = false.
Proof.
  unfold occurs. revert after w. induction s as [|a s IH]; intros after w; simpl.
  - intros [<-|[]] [].
  - destruct (isSeparator a) eqn:Hsep.
    + destruct after.
      * intros Hw Hc. destruct (IH true w Hw Hc). auto.
      * intros [<-|Hw] Hc; [destruct Hc|]. destruct (IH true w Hw Hc). auto.
    + destruct (splitWords false s) as [|word words] eqn:Hsplit.
      * intros [<-|[]] [<-|[]]. auto.
      * intros [<-|Hw] Hc.
        -- destruct Hc as [<-|Hc]; [auto|].
           destruct (IH false word ltac:(rewrite Hsplit; now left) Hc). auto.
        -- destruct (IH false w ltac:(rewrite Hsplit; now right) Hc). auto.
Qed.

Definition allAscii : list ascii := map ascii_of_nat (seq 0 256).

Lemma in_allAscii (c : ascii) : In c allAscii.
Proof.
  unfold allAscii. apply in_map_iff. exists (nat_of_ascii c).
  split; [apply ascii_nat_embedding|]. apply in_seq.
  pose proof (nat_ascii_bounded c). lia.
Qed.

(** The capital of a character that is no separator has no separator in
    it: checked on the 256 code units. *)
Lemma upperChar_clean (c : ascii) (capital : string) :
  isSeparator c = false -> upperChar c = Some capital ->
  forallb (fun u => negb (isSeparator u)) (list_ascii_of_string capital) = true.
Proof.
  intros Hsep Hup.
  assert (forallb (fun a =>
                     isSeparator a
                     || match upperChar a with
                        | Some u => forallb (fun x => negb (isSeparator x))
                                      (list_ascii_of_string u)
                        | None => true
                        end) allAscii = true) as Hall by (vm_compute; reflexivity).
  rewrite forallb_forall in Hall. specialize (Hall c (in_allAscii c)).
  now rewrite Hsep, Hup in Hall.
Qed.

(** The two code units whose capital is not representable. *)
Definition hasCapital (c : ascii) : Prop := upperChar c <> None.

Lemma capitalizeAll_clean (words : list string) :
  (forall w c, In w words -> occurs c w -> hasCapital c /\ isSeparator c = false) ->
  exists ws, capitalizeAll words = Some ws
             /\ forall w c, In w ws -> occurs c w -> isSeparator c = false.
Proof.
  induction words as [|word words IH]; intros Hwords; simpl.
  - exists []. split; [reflexivity|]. intros w c [].
  - destruct IH as (ws & -> & Hws).
    { intros w c Hw. apply Hwords. now right. }
    destruct word as [|a rest]; simpl.
    + exists (EmptyString :: ws). split; [reflexivity|].
      intros w c [<-|Hw]; [intros []|]. now apply Hws.
    + destruct (Hwords (String a rest) a (or_introl eq_refl) (or_introl eq_refl))
        as [Hcap Hsep].
      unfold hasCapital in Hcap. destruct (upperChar a) as [capital|] eqn:Hup; [|congruence].
      exists ((capital ++ rest)%string :: ws). split; [reflexivity|].
      intros w c [<-|Hw]; [|now apply Hws].
      intros Hc. apply occurs_append in Hc as [Hc|Hc].
      * pose proof (upperChar_clean a capital Hsep Hup) as Hclean.
        rewrite forallb_forall in Hclean. apply negb_true_iff. now apply Hclean.
      * apply (Hwords (String a rest) c (or_introl eq_refl)). now right.
Qed.

End TitleFacts.

Import TitleFacts.

(** An identifier without the two letters whose capital is not
    representable (U+00B5, U+00FF) has a title, and the title contains no
    underscore, no hyphen and no white space but the single spaces that
    join its words. *)
Theorem title_has_no_separators (operationId : string) :
  Forall hasCapital (list_ascii_of_string operationId) ->
  exists t,
    operationIdToTitle operationId = Some t
    /\ Forall (fun c => isSeparator c = true -> c = " "%char) (list_ascii_of_string t).
Proof.
  intros Hid. rewrite List.Forall_forall in Hid. unfold operationIdToTitle.
  destruct (capitalizeAll_clean
              (splitWords false (spaceAcronym (spaceCamel operationId))))
    as (ws & -> & Hws).
  { intros w c Hw Hc.
    destruct (splitWords_pieces false _ w c Hw Hc) as [Hin Hsep]. split; [|exact Hsep].
    apply occurs_spaceAcronym in Hin as [Hin| ->]; [|discriminate].
    apply occurs_spaceCamel in Hin as [Hin| ->]; [|discriminate].
    now apply Hid. }
  exists (join " " ws). split; [reflexivity|].
  apply List.Forall_forall. intros c Hc Hsep.
  apply occurs_join in Hc as [Hc|(w & Hw & Hc)].
  - destruct Hc as [<-|[]]. reflexivity.
  - rewrite (Hws w c Hw Hc) in Hsep. discriminate.
Qed.

Lemma title_has_no_separators_witness :
  exists t,
    operationIdToTitle "get-HTTPResponse_byId" = Some t
    /\ Forall (fun c => isSeparator c = true -> c = " "%char) (list_ascii_of_string t).
Proof.
  apply (title_has_no_separators "get-HTTPResponse_byId").
  repeat constructor; discriminate.
Defined.

Example title_example :
  operationIdToTitle "get-HTTPResponse_byId" = Some "Get HTTP Response By Id".
Proof. reflexivity. Qed.

(** ** Argument recovery, entry by entry *)

(** Let [JSON.parse] return only strings shorter than the text it reads.
    Argument recovery returns a mapping that keeps the keys of the
    arguments, in their order, and hands on unchanged every value that is
    neither a string nor an array: numbers, booleans, [null] and also
    objects, which are not searched for texts to recover. *)
Theorem recovery_keeps_keys (JSON_parse : string -> option json) (fuel : nat)
    (params : list (string * json)) :
  shrinks JSON_parse -> longest (JObj params) < fuel ->
  List.NoDup (keys params) -> ~ In "__proto__" (keys params) ->
  exists result,
    deserializeParams JSON_parse fuel params = Some result
    /\ keys result = keys params
    /\ forall k v, In (k, v) params ->
         match v with
         | JStr _ | JArr _ => True
         | _ => get k result = Some v
         end.
Proof.
  intros Hshrinks Hfuel Hnd Hproto.
  destruct (deserializeParams_returns JSON_parse Hshrinks fuel params Hfuel)
    as (result & Hrun).
  exists result. split; [exact Hrun|].
  destruct fuel as [|fuel]; [discriminate|].
  destruct (deserializeParams_values JSON_parse fuel params result Hrun Hnd Hproto)
    as [Hkeys Hvalues].
  split; [exact Hkeys|].
  intros k v Hkv. destruct (Hvalues k v Hkv) as (v' & Hv & Hget).
  destruct v; try exact I; simpl in Hv; injection Hv as <-; exact Hget.
Qed.

(** Arguments with a number, an object that holds the text of an object,
    and a plain string. *)
Definition mixedArguments : list (string * json) :=
  [("page_size", JNum 10); ("filter", JObj [("raw", JStr "{}")]); ("query", JStr "pets")].

Lemma recovery_keeps_keys_witness :
  exists result,
    deserializeParams ExampleJson.parse 5 mixedArguments = Some result
    /\ keys result = keys mixedArguments
    /\ forall k v, In (k, v) mixedArguments ->
         match v with
         | JStr _ | JArr _ => True
         | _ => get k result = Some v
         end.
Proof.
  apply (recovery_keeps_keys ExampleJson.parse 5 mixedArguments parse_shrinks).
  - vm_compute. lia.
  - repeat constructor; simpl; intuition discriminate.
  - simpl. intuition discriminate.
Defined.

(** ** Listing and calling *)

Lemma startsWith_slice0 (n : nat) (s : string) : startsWith (slice0 n s) s = true.
Proof.
  unfold startsWith, slice0. revert s.
  induction n as [|n IH]; intros [|c s]; simpl; try reflexivity.
  destruct (ascii_dec c c); [apply IH | contradiction].
Qed.

(** Whatever the proxy holds, every name the list-tools handler exposes has
    at most 64 characters and is the start of the prefixed tool name, the
    whole of it when that has at most 64 characters. *)
Theorem listed_names_fit (self : proxy) :
  Forall (fun t => String.length (lt_name t) <= 64) (listTools self)
  /\ forall toolName method,
       let full := (toolName ++ "-" ++ name method)%string in
       startsWith (lt_name (listTool self toolName method)) full = true
       /\ (String.length full <= 64 -> lt_name (listTool self toolName method) = full).
Proof.
  assert (forall n, String.length (truncateToolName n) <= 64) as Hfit.
  { intros n. unfold truncateToolName.
    destruct (Nat.leb_spec (String.length n) 64); [assumption | apply length_slice0_le]. }
  split.
  - unfold listTools. apply List.Forall_forall. intros t Ht.
    apply in_flat_map in Ht as (def & _ & Ht).
    apply in_map_iff in Ht as (m & <- & _). apply Hfit.
  - intros toolName method full. unfold listTool. cbn [lt_name]. fold full.
    unfold truncateToolName. split.
    + destruct (String.length full <=? 64)%nat; [|apply startsWith_slice0].
      pose proof (startsWith_slice0 (String.length full) full) as Hstart.
      now rewrite slice0_all in Hstart.
    + intros Hlen. now destruct (Nat.leb_spec (String.length full) 64); [|lia].
Qed.

(** A tool whose name has at most 60 characters is listed under a name
    that the call-tool handler finds: [findOperation] yields an operation
    of the document for it. *)
Theorem short_listed_name_resolves (doc : document) (m : toolMethod) :
  In m (methods (fst (convertToMCPTools doc newConverter))) ->
  String.length (name m) <= 60 ->
  exists e,
    findOperation (newProxy doc) (lt_name (listTool (newProxy doc) apiName m)) = Some e
    /\ inDocument doc e.
Proof.
  intros Hin Hlen.
  destruct (tool_entry doc newConverter m Hin) as (e & m' & Hget & Hknown & _ & _).
  exists e. split; [|exact Hknown].
  unfold listTool. cbn [lt_name]. unfold truncateToolName.
  assert (String.length (apiName ++ "-" ++ name m) <= 64) as Hfull
    by (unfold apiName; rewrite !length_append; simpl; lia).
  destruct (Nat.leb_spec (String.length (apiName ++ "-" ++ name m)) 64); [|lia].
  exact Hget.
Qed.

Lemma short_listed_name_resolves_witness :
  exists e,
    findOperation (newProxy testDocument)
      (lt_name (listTool (newProxy testDocument) apiName testTool)) = Some e
    /\ inDocument testDocument e.
Proof.
  apply (short_listed_name_resolves testDocument testTool).
  - vm_compute. left. reflexivity.
  - vm_compute. lia.
Defined.

(** What the call-tool handler answers is one text item; what it throws is
    never the [HttpClientError] of the HTTP client. *)
Theorem call_tool_outcomes (JSON_parse : string -> option json)
    (JSON_stringify : json -> string)
    (executeOperation : lookupEntry -> list (string * json) -> outcome httpResponse)
    (self : proxy) (fuel : nat) (name : string) (params : option (list (string * json)))
    (out : outcome callResult) :
  callTool JSON_parse JSON_stringify executeOperation self fuel name params = Some out ->
  match out with
  | Returns r => exists text, content r = [ContentItem "text" text]
  | Throws e => forall errorData, e <> HttpClientError errorData
  end.
Proof.
  unfold callTool.
  destruct (findOperation self name) as [operation|].
  2: { intros [= <-]. discriminate. }
  destruct (match params with
            | Some p => deserializeParams JSON_parse fuel p
            | None => Some []
            end) as [args|]; [|discriminate].
  destruct (executeOperation operation args) as [response|[message|errorData|what]];
    intros [= <-]; try discriminate; eexists; reflexivity.
Qed.

Lemma call_tool_outcomes_witness :
  exists text,
    content (textResult (ExampleJson.stringify (errorBody (Some (JStr "Not Found")))))
    = [ContentItem "text" text].
Proof.
  exact (call_tool_outcomes ExampleJson.parse ExampleJson.stringify
           (failingClient (Some (JStr "Not Found"))) (newProxy testDocument) 1
           "API-getTest" (Some [])
           (Returns (textResult (ExampleJson.stringify (errorBody (Some (JStr "Not Found"))))))
           eq_refl).
Defined.

(** ** The keys of [$defs] *)

Lemma fold_addComponent_keys (doc : document) (l : list (string * schema))
    (acc : list (string * jschema) * gmap string jschema) :
  List.NoDup (keys (fst acc) ++ keys l) -> ~ In "__proto__" (keys l) ->
  keys (fst (fold_left (addComponent doc) l acc)) = keys (fst acc) ++ keys l.
Proof.
  revert acc. induction l as [|[k s] l IH]; intros acc Hnd Hproto; simpl.
  - now rewrite app_nil_r.
  - simpl in Hnd, Hproto.
    assert (keys (fst (addComponent doc acc (k, s))) = keys (fst acc) ++ [k]) as Hstep.
    { unfold addComponent. simpl. rewrite obj_set_fresh.
      - unfold keys. now rewrite map_app.
      - intros ->. apply Hproto. now left.
      - apply NoDup_remove_2 in Hnd. intros Hin. apply Hnd. apply in_or_app. now left. }
    rewrite IH, Hstep.
    + now rewrite <- app_assoc.
    + rewrite Hstep, <- app_assoc. exact Hnd.
    + tauto.
Qed.

Lemma components_keys_exact (doc : document) (cache : gmap string jschema) :
  List.NoDup (DefsFacts.componentNames doc) ->
  ~ In "__proto__" (DefsFacts.componentNames doc) ->
  keys (fst (convertComponentsToJsonSchema doc cache)) = DefsFacts.componentNames doc.
Proof.
  intros Hnd Hproto. unfold convertComponentsToJsonSchema.
  now rewrite fold_addComponent_keys.
Qed.

(** When the component schemas of the document have pairwise different
    names, none of them [__proto__], the input schema of every tool is an
    object schema whose [$defs] has exactly the names of the component
    schemas as keys, in the order of the document. *)
Theorem defs_list_the_components (doc : document) (self : converter) (m : toolMethod) :
  List.NoDup (DefsFacts.componentNames doc) ->
  ~ In "__proto__" (DefsFacts.componentNames doc) ->
  In m (methods (fst (convertToMCPTools doc self))) ->
  DefsFacts.defKeys (inputSchema m) = DefsFacts.componentNames doc
  /\ js_type (inputSchema m) = Some "object".
Proof.
  intros Hnd Hproto Hin.
  destruct (convertToMCPTools_sound doc self) as [_ _ Hmethods].
  rewrite List.Forall_forall in Hmethods.
  destruct (Hmethods m Hin) as [(e & _ & cache & counter & m0 & Hm0 & ->) _].
  unfold convertOperationToMCPMethod in Hm0.
  destruct (operationId (le_operation e)) as [id|]; [|discriminate].
  destruct (negb (truthy id)); [discriminate|].
  simpl in Hm0. injection Hm0 as <-. simpl.
  split; [|reflexivity]. unfold DefsFacts.defKeys. simpl.
  now apply components_keys_exact.
Qed.

Lemma defs_list_the_components_witness :
  DefsFacts.defKeys (inputSchema petTool) = DefsFacts.componentNames referencedDocument
  /\ js_type (inputSchema petTool) = Some "object".
Proof.
  apply (defs_list_the_components referencedDocument newConverter petTool).
  - repeat constructor. simpl. tauto.
  - simpl. intuition discriminate.
  - vm_compute. left. reflexivity.
Defined.


(** Argument recovery returns for every mapping of arguments, provided
    [JSON.parse] yields only strings shorter than the text it reads: as
    many rounds as the longest string among the arguments has characters,
    and one more, are enough, and more rounds give the same result. *)
Theorem recovery_terminates (JSON_parse : string -> option json) (fuel : nat)
    (params : list (string * json)) :
  shrinks JSON_parse ->
  longest (JObj params) < fuel ->
  exists result,
    forall fuel', fuel <= fuel' -> deserializeParams JSON_parse fuel' params = Some result.
Proof.
  intros Hparse Hfuel.
  destruct (deserializeParams_returns JSON_parse Hparse fuel params Hfuel) as (result & Hrun).
  exists result. intros fuel' Hle. now apply (deserializeParams_mono JSON_parse fuel fuel').
Qed.

Lemma recovery_terminates_witness :
  exists result,
    forall fuel', 60 <= fuel' ->
      deserializeParams ExampleJson.parse fuel'
        [("x", JStr (ExampleJson.stringify nestedValue)); ("n", JNum 3)] = Some result.
Proof.
  apply (recovery_terminates ExampleJson.parse 60).
  - exact parse_shrinks.
  - vm_compute. lia.
Defined.

(** ** References that lead out of the document *)

Lemma prefix_cons (c : ascii) (p : string) (a : ascii) (s : string) :
  String.prefix (String c p) (String a s)
  = if ascii_dec c a then String.prefix p s else false.
Proof. reflexivity. Qed.

Lemma component_prefix_is_local (ref : string) :
  startsWith "#/components/schemas/" ref = true -> startsWith "#/" ref = true.
Proof.
  unfold startsWith. destruct ref as [|a [|b ref]].
  - discriminate.
  - rewrite prefix_cons. destruct (ascii_dec "#" a); discriminate.
  - rewrite !prefix_cons.
    destruct (ascii_dec "#" a); [|discriminate].
    destruct (ascii_dec "/" b); [|discriminate].
    intros _. now destruct ref.
Qed.

(** A reference whose pointer does not start with [#/], is not the name
    of a member the cache inherits from [Object.prototype], and has no
    cache entry is never followed, in either mode: it is translated to a node
    with the pointer as it is written and the description of the
    referencing node, or the empty description; the [Set] and the cache
    stay as they were. *)
Theorem external_reference_passes_through (doc : document) (ref : string)
    (description : option string) (resolved : gset string) (resolveRefs : bool)
    (cache : gmap string jschema) :
  startsWith "#/" ref = false -> inheritedName ref = false -> cache !! ref = None ->
  convertOpenApiSchemaToJsonSchema doc (SRef ref description) resolved resolveRefs cache
  = (set_description (match description with Some d => d | None => "" end)
       (set_ref ref empty_schema),
     TState resolved cache).
Proof.
  intros Hext _ Hmiss.
  assert (startsWith "#/components/schemas/" ref = false) as Hcomp.
  { destruct (startsWith "#/components/schemas/" ref) eqn:E; [|reflexivity].
    apply component_prefix_is_local in E. congruence. }
  pose proof (convertOpenApiSchemaToJsonSchema_run doc (SRef ref description) resolved
                resolveRefs cache) as Hrun.
  rewrite (convert_ref_notResolved doc resolveRefs _ ref description
             (TState resolved cache) (TState resolved cache)) in Hrun.
  - injection Hrun as <-. unfold unresolvedRef, localRef, replacePrefix.
    now rewrite Hcomp.
  - unfold goesInline. rewrite Hcomp. now destruct resolveRefs.
  - unfold lookupRef, internalResolveRef. simpl. now rewrite Hmiss, Hext.
Qed.

Lemma external_reference_passes_through_witness :
  convertOpenApiSchemaToJsonSchema petDocument
    (SRef "https://example.com/pet.json#/Pet" (Some "A pet")) ∅ true ∅
  = (set_description "A pet" (set_ref "https://example.com/pet.json#/Pet" empty_schema),
     TState ∅ ∅).
Proof.
  apply (external_reference_passes_through petDocument
           "https://example.com/pet.json#/Pet" (Some "A pet") ∅ true ∅).
  - reflexivity.
  - reflexivity.
  - apply lookup_empty.
Defined.

(** ** Return schemas *)




